(** * podman-swarm: a shallow embedding of the agent core

    The development follows the Go packages of the repository:

    - [GoStrings]  the functions of Go's [strings] package the code calls;
    - [Json]       the values [encoding/json] decodes into [interface{}];
    - [Pod], [Deployment], [Service], [Ingress], [Node]  internal/types;
    - [Cluster]    internal/cluster, the roster and the broadcast;
    - [Discovery]  internal/discovery, the service registry;
    - [Dns]        internal/dns, the authoritative and forwarding resolver;
    - [Security]   internal/security, the join-token manager;
    - [Storage]    internal/storage, the persistent store and its merge;
    - [Scheduler], [IngressController], [Podman], [Parser]  the
      collaborators of the API, as far as apply and delete drive them;
    - [Api]        internal/api, apply, delete and recovery;
    - [ApiTokens], [Middleware]  the API tokens of internal/security and
      the authentication middleware of internal/api;
    - [IngressRouting]  internal/ingress, the rule search of the request
      handler;
    - [DnsApi]     internal/api, the whitelist endpoints;
    - [Agent]      cmd/agent, the gossip receive handler.

    The properties follow the definitions, one module per subject.

    Conventions.  Go maps are [gmap]s.  Go ranges over a map in an order
    that is unspecified and differs from one [range] to the next; a
    function that collects what it ranges over lists it in the order of
    [map_to_list] (of [elements] for a set), one of the orders a call may
    take ([Discovery.inSomeOrder] relates it to the lists of the other
    orders).  A Go map holding pointers is a map holding the
    pointed-to records where every writer in the repository stores the
    address of a record (the registry, the scheduler, the roster, the
    caches of the API, the token managers); the maps of the store and of
    a snapshot are also filled from decoded JSON, in which [null] gives
    a nil pointer, and hold an [option] per key.  Where two places share
    one pointer, a write through one is written to the other as well.  A
    call returns or panics ([outcome]); a function that changes state
    before it may panic gives the state it leaves beside its outcome.
    Instants and durations are integers in nanoseconds; [time.Now()] is
    an explicit argument [now].  Strings are byte strings; [ToLower] is
    the ASCII case mapping, which is [strings.ToLower] on ASCII text.
    JSON numbers are integers.  Calls into external libraries and into
    the operating system (the DNS record parser, upstream exchanges, the
    container runtime, the file system, SHA-256, the random source, the
    encryption of a gossip message) are explicit oracles. *)

From Stdlib Require Import ZArith String Ascii List Bool Lia.
From stdpp Require Import gmap strings list fin_maps pretty.

Local Open Scope Z_scope.

(** Results of fallible Go functions: a value, or the error. *)
Inductive result (A : Type) : Type :=
| Ok (a : A)
| Err (msg : string).
Arguments Ok {A} a.
Arguments Err {A} msg.

Definition is_ok {A} (r : result A) : bool :=
  match r with Ok _ => true | Err _ => false end.

(* ================================================================== *)
(** ** Go's [strings] package *)
(* ================================================================== *)
Module GoStrings.

(** [strings.HasPrefix]. *)
Fixpoint HasPrefix (s prefix : string) : bool :=
  match prefix, s with
  | EmptyString, _ => true
  | String _ _, EmptyString => false
  | String c p, String d s' => if Ascii.eqb c d then HasPrefix s' p else false
  end.

(** [strings.TrimPrefix]. *)
Fixpoint TrimPrefix (s prefix : string) : string :=
  match prefix, s with
  | EmptyString, _ => s
  | String c p, String d s' =>
      if HasPrefix s prefix then TrimPrefix s' p else s
  | String _ _, EmptyString => s
  end.

(** [strings.HasSuffix]: some tail of [s] is [suffix]. *)
Fixpoint HasSuffix (s suffix : string) : bool :=
  if String.eqb s suffix then true
  else match s with
       | EmptyString => false
       | String _ s' => HasSuffix s' suffix
       end.

(** [strings.TrimSuffix]: [s] without the trailing [suffix], or [s]
    itself when it does not end with [suffix]. *)
Fixpoint TrimSuffix (s suffix : string) : string :=
  if String.eqb s suffix then EmptyString
  else match s with
       | EmptyString => EmptyString
       | String c s' => String c (TrimSuffix s' suffix)
       end.

(** [strings.Split(s, ".")]: the labels between the dots; the empty
    string splits into one empty label. *)
Fixpoint SplitDot (s : string) : list string :=
  match s with
  | EmptyString => [EmptyString]
  | String c s' =>
      if Ascii.eqb c "."%char then EmptyString :: SplitDot s'
      else match SplitDot s' with
           | p :: ps => String c p :: ps
           | [] => [String c EmptyString]
           end
  end.

(** [strings.Join(parts, ".")]. *)
Fixpoint JoinDot (parts : list string) : string :=
  match parts with
  | [] => EmptyString
  | [p] => p
  | p :: ps => p +:+ "." +:+ JoinDot ps
  end.

Definition lower_ascii (c : ascii) : ascii :=
  let n := nat_of_ascii c in
  if ((65 <=? n)%nat && (n <=? 90)%nat)%bool then ascii_of_nat (n + 32) else c.

(** Text all of whose bytes are below [utf8.RuneSelf] (0x80). *)
Fixpoint isASCII (s : string) : bool :=
  match s with
  | EmptyString => true
  | String c s' => (nat_of_ascii c <? 128)%nat && isASCII s'
  end.

(** [strings.ToLower] as it acts on ASCII text: [A]-[Z] become [a]-[z]
    and every other byte stays.  On text with a byte from 0x80 on the
    library decodes UTF-8 and lower-cases by Unicode code point
    ([unicode.ToLower]), which is not modelled: DNS names are ASCII in
    presentation format, and a statement about text from elsewhere (a
    host given to the API) carries the hypothesis [isASCII]. *)
Fixpoint ToLower (s : string) : string :=
  match s with
  | EmptyString => EmptyString
  | String c s' => String (lower_ascii c) (ToLower s')
  end.

(** The last byte of a string, to tell suffixes apart. *)
Fixpoint lastByte (s : string) : option ascii :=
  match s with
  | EmptyString => None
  | String c EmptyString => Some c
  | String _ s' => lastByte s'
  end.

End GoStrings.
Import GoStrings.

(** A Go call either returns or panics (a failed type assertion, a nil
    dereference).  Nothing in the repository recovers a panic of the
    gossip handler or of the recovery goroutine, so there a panic ends
    the agent; the HTTP handlers run under [gin.Recovery], which answers
    500 and lets the agent go on with the state the panic left. *)
Inductive outcome (A : Type) : Type :=
| Returned (a : A)
| Panicked (what : string).
Arguments Returned {A} a.
Arguments Panicked {A} what.

(** The panic of a read or a call through a nil pointer. *)
Definition nilDereference : string :=
  "runtime error: invalid memory address or nil pointer dereference".

(* ================================================================== *)
(** ** [encoding/json] values *)
(* ================================================================== *)
Module Json.

(** What [json.Unmarshal] stores into an [interface{}]: nil, bool,
    float64 (here the integral values), string, slice, map. *)
#[warnings="-register-all"] Inductive value : Type :=
| JNull
| JBool (b : bool)
| JNum (n : Z)
| JStr (s : string)
| JArr (items : list value)
| JObj (fields : list (string * value)).

(** The Go map an object decodes to: of two equal keys the later wins. *)
Fixpoint lookup (key : string) (fields : list (string * value)) : option value :=
  match fields with
  | [] => None
  | (k, v) :: rest =>
      match lookup key rest with
      | Some v' => Some v'
      | None => if String.eqb k key then Some v else None
      end
  end.

(** [json.Unmarshal(message, &update)] for a [map[string]interface{}]:
    [None] stands for bytes that are not JSON; null leaves the map nil,
    and every other non-object is a type error. *)
Definition unmarshalMap (message : option value) : result (list (string * value)) :=
  match message with
  | None => Err "invalid character"
  | Some JNull => Ok []
  | Some (JObj fields) => Ok fields
  | Some _ => Err "cannot unmarshal into Go value of type map[string]interface {}"
  end.

(** [update[key]]: a missing key reads as the nil interface. *)
Definition index (update : list (string * value)) (key : string) : value :=
  match lookup key update with
  | Some v => v
  | None => JNull
  end.

(** The type assertions [x.(string)], [x.(float64)], [x.(bool)]. *)
Definition assertString (x : value) : outcome string :=
  match x with
  | JStr s => Returned s
  | _ => Panicked "interface conversion: interface {} is not string"
  end.

Definition assertFloat64 (x : value) : outcome Z :=
  match x with
  | JNum n => Returned n
  | _ => Panicked "interface conversion: interface {} is not float64"
  end.

Definition assertBool (x : value) : outcome bool :=
  match x with
  | JBool b => Returned b
  | _ => Panicked "interface conversion: interface {} is not bool"
  end.

End Json.

(* ================================================================== *)
(** ** internal/types *)
(* ================================================================== *)

Inductive PodState : Type :=
| PodStatePending | PodStateRunning | PodStateSucceeded | PodStateFailed
| PodStateUnknown.

(** [corev1.ContainerPort], [corev1.ServicePort]: the fields the agent
    reads. *)
Record ContainerPort : Type := mkContainerPort {
  ContainerPortNumber : Z;
  HostPort : Z;
  ContainerProtocol : string
}.

Record ServicePort : Type := mkServicePort {
  ServicePortName : string;
  ServicePortNumber : Z;
  TargetPort : Z;
  ServiceProtocol : string
}.

Module Pod.
Record t : Type := mk {
  ID : string;
  Name : string;
  Namespace : string;
  NodeName : string;
  State : PodState;
  Image : string;
  Labels : gmap string string;
  Annotations : gmap string string;
  Ports : list ContainerPort;
  Env : list (string * string);
  Volumes : list (string * string * bool);
  NodeSelector : gmap string string;
  CreatedAt : Z
}.

Definition setID (p : t) (id : string) : t :=
  mk id (Name p) (Namespace p) (NodeName p) (State p) (Image p) (Labels p)
     (Annotations p) (Ports p) (Env p) (Volumes p) (NodeSelector p) (CreatedAt p).

Definition setCreatedAt (p : t) (c : Z) : t :=
  mk (ID p) (Name p) (Namespace p) (NodeName p) (State p) (Image p) (Labels p)
     (Annotations p) (Ports p) (Env p) (Volumes p) (NodeSelector p) c.

Definition setNodeName (p : t) (n : string) : t :=
  mk (ID p) (Name p) (Namespace p) n (State p) (Image p) (Labels p)
     (Annotations p) (Ports p) (Env p) (Volumes p) (NodeSelector p) (CreatedAt p).

Definition setState (p : t) (st : PodState) : t :=
  mk (ID p) (Name p) (Namespace p) (NodeName p) st (Image p) (Labels p)
     (Annotations p) (Ports p) (Env p) (Volumes p) (NodeSelector p) (CreatedAt p).
End Pod.

(** [corev1.PodTemplateSpec], as far as [ExtractPodFromTemplate] reads it. *)
Module Template.
Record Container : Type := mkContainer {
  ContainerImage : string;
  ContainerPorts : list ContainerPort;
  ContainerEnv : list (string * string);
  VolumeMounts : list (string * string * bool)
}.

Record t : Type := mk {
  Labels : gmap string string;
  Annotations : gmap string string;
  Containers : list Container;
  NodeSelector : gmap string string
}.
End Template.

Module Deployment.
Record t : Type := mk {
  Name : string;
  Namespace : string;
  Replicas : Z;
  DesiredReplicas : Z;
  Pods : list Pod.t;
  Template : Template.t;
  Labels : gmap string string;
  Selector : gmap string string
}.

Definition setPods (d : t) (pods : list Pod.t) : t :=
  mk (Name d) (Namespace d) (Replicas d) (DesiredReplicas d) pods
     (Template d) (Labels d) (Selector d).
End Deployment.

Module Service.
Record t : Type := mk {
  Name : string;
  Namespace : string;
  Type_ : string;
  Selector : gmap string string;
  Ports : list ServicePort;
  ClusterIP : string;
  Labels : gmap string string
}.
End Service.

Module Ingress.
Record IngressPath : Type := mkPath {
  Path : string;
  PathType : option string;
  ServiceName : string;
  ServicePort : Z
}.

Record IngressRule : Type := mkRule {
  Host : string;
  Paths : list IngressPath
}.

Record t : Type := mk {
  Name : string;
  Namespace : string;
  Rules : list IngressRule;
  Labels : gmap string string;
  Annotations : gmap string string
}.
End Ingress.

Module Node.
Record t : Type := mk {
  Name : string;
  Address : string;
  Status : string;
  Labels : gmap string string
}.
End Node.

(** The key of the store, of the API caches and of the ingress rules:
    [fmt.Sprintf("%s/%s", namespace, name)]. *)
Definition nsKey (namespace name : string) : string :=
  namespace +:+ "/" +:+ name.

(** A label lookup in Go: a missing key reads as the empty string. *)
Definition labelOf (labels : gmap string string) (key : string) : string :=
  default EmptyString (labels !! key).

(* ================================================================== *)
(** ** internal/cluster: the roster *)
(* ================================================================== *)
Module Cluster.

Record t : Type := mk {
  nodes : gmap string Node.t;
  localNodeName : string
}.

(** [GetNodes]: the roster in map order. *)
Definition GetNodes (c : t) : list Node.t := snd <$> map_to_list (nodes c).

Definition GetNode (c : t) (name : string) : result Node.t :=
  match nodes c !! name with
  | Some node => Ok node
  | None => Err "node not found"
  end.

Definition GetLocalNodeName (c : t) : string := localNodeName c.

(** [c.memberlist.SendBestEffort(nil, sendMsg)], the call [Broadcast]
    ends with.  The library builds the destination from [to.Address()]
    and [to.Name] before it sends anything, and [Address] reads [n.Addr]
    through the node pointer: with the nil node the agent passes, the
    call is a nil dereference and no packet leaves the node. *)
Definition SendBestEffortNil : outcome (result unit) := Panicked nilDereference.

(** [Broadcast].  [encryptor] is [c.encryptor]: [None] for nil, else
    what [Encrypt] answers for a message (it fails when the nonce cannot
    be read from the random source). *)
Definition Broadcast {A} (encryptor : option (A -> result unit)) (msg : A)
    : outcome (result unit) :=
  match encryptor with
  | Some Encrypt =>
      match Encrypt msg with
      | Err _ => Returned (Err "failed to encrypt message")
      | Ok _ => SendBestEffortNil
      end
  | None => SendBestEffortNil
  end.

(** [IsLeader]; [members] are the names of [memberlist.Members] and
    [localName] that of [memberlist.LocalNode].  Go compares strings
    byte by byte. *)
Definition IsLeader (members : list string) (localName : string) : bool :=
  if (length members =? 0)%nat then false
  else forallb (fun member => negb (String.ltb member localName)) members.

End Cluster.

(* ================================================================== *)
(** ** internal/discovery: the service registry *)
(* ================================================================== *)
Module Discovery.

Definition Second : Z := 1000000000.

Record ServiceEndpoint : Type := mkEndpoint {
  ServiceName : string;
  Namespace : string;
  PodID : string;
  PodName : string;
  NodeName : string;
  Address : string;
  Port : Z;
  Healthy : bool;
  LastSeen : Z
}.

(** A [service_update] handed to [cluster.Broadcast]. *)
Record Update : Type := mkUpdate {
  updateAction : string;
  updateEndpoint : ServiceEndpoint;
  updateTimestamp : Z
}.

(** The discovery client: the registry ([services]: serviceKey ->
    endpointID -> endpoint) and, oldest first, the updates it has handed
    to [cluster.Broadcast] ([broadcasts]; what becomes of them is
    [Cluster.Broadcast]'s outcome). *)
Record t : Type := mk {
  services : gmap string (gmap string ServiceEndpoint);
  broadcasts : list Update
}.

Definition serviceKey (serviceName namespace : string) : string :=
  serviceName +:+ "." +:+ namespace.

Definition endpointID (namespace serviceName podID : string) : string :=
  namespace +:+ "-" +:+ serviceName +:+ "-" +:+ podID.

(** The test both read paths apply: healthy and seen in the last 30 s. *)
Definition fresh (now : Z) (e : ServiceEndpoint) : bool :=
  Healthy e && (now - LastSeen e <? 30 * Second).

(** [GetServiceEndpoints].  Go ranges over the inner map in an order
    that is unspecified and differs from one [range] to the next; the
    list is given in the order of [map_to_list], one of the orders a call
    may take, and [inSomeOrder] below relates it to the lists of the
    other orders. *)
Definition GetServiceEndpoints (now : Z) (d : t)
    (serviceName namespace : string) : result (list ServiceEndpoint) :=
  match services d !! serviceKey serviceName namespace with
  | None => Err "service not found"
  | Some endpoints =>
      Ok (List.filter (fresh now) (snd <$> map_to_list endpoints))
  end.

(** What a [range] over the same entries may produce in place of the
    list [modelled]: the same elements in some order. *)
Definition inSomeOrder {A} (modelled actual : list A) : Prop :=
  modelled ≡ₚ actual.

(** [broadcastServiceUpdate]: the update is marshalled and handed to
    [cluster.Broadcast]; an error of the broadcast is logged and dropped,
    a panic of it is not recovered here. *)
Definition broadcastServiceUpdate (now : Z)
    (encryptor : option (Update -> result unit)) (d : t)
    (endpoint : ServiceEndpoint) (action : string) : outcome unit * t :=
  let update := mkUpdate action endpoint (now / Second) in
  let d := mk (services d) (broadcasts d ++ [update]) in
  match Cluster.Broadcast encryptor update with
  | Returned _ => (Returned tt, d)
  | Panicked what => (Panicked what, d)
  end.

(** [d.registry.services[key][endpointID] = endpoint], creating the
    inner map when the key is new. *)
Definition putEndpoint (reg : gmap string (gmap string ServiceEndpoint))
    (key id : string) (endpoint : ServiceEndpoint)
    : gmap string (gmap string ServiceEndpoint) :=
  <[key := <[id := endpoint]> (default ∅ (reg !! key))]> reg.

(** [delete(endpoints, endpointID)], and the key with it when that
    leaves the inner map empty. *)
Definition dropEndpoint (reg : gmap string (gmap string ServiceEndpoint))
    (key id : string) (endpoints : gmap string ServiceEndpoint)
    : gmap string (gmap string ServiceEndpoint) :=
  let endpoints := delete id endpoints in
  if (size endpoints =? 0)%nat then delete key reg
  else <[key := endpoints]> reg.

(** [RegisterService]: what the call does and the client it leaves.
    The endpoint is stored before the broadcast, so it is in the registry
    also when the broadcast panics (the deferred unlock runs then too). *)
Definition RegisterService (now : Z) (encryptor : option (Update -> result unit))
    (c : Cluster.t) (d : t) (service : Service.t) (pod : Pod.t)
    : outcome (result unit) * t :=
  let key := serviceKey (Service.Name service) (Service.Namespace service) in
  let id := endpointID (Service.Namespace service) (Service.Name service) (Pod.ID pod) in
  let port := match Service.Ports service with
              | p :: _ => ServicePortNumber p
              | [] => 0
              end in
  let nodeAddress := match Cluster.GetNode c (Pod.NodeName pod) with
                     | Ok node => Node.Address node
                     | Err _ => Pod.NodeName pod
                     end in
  let endpoint :=
    mkEndpoint (Service.Name service) (Service.Namespace service) (Pod.ID pod)
               (Pod.Name pod) (Pod.NodeName pod) nodeAddress port true now in
  let d := mk (putEndpoint (services d) key id endpoint) (broadcasts d) in
  match broadcastServiceUpdate now encryptor d endpoint "register" with
  | (Returned _, d) => (Returned (Ok tt), d)
  | (Panicked what, d) => (Panicked what, d)
  end.

(** [DeregisterService]: the broadcast comes before the delete, so a
    panic of the broadcast leaves the endpoint in the registry. *)
Definition DeregisterService (now : Z) (encryptor : option (Update -> result unit))
    (d : t) (service : Service.t) (pod : Pod.t) : outcome (result unit) * t :=
  let key := serviceKey (Service.Name service) (Service.Namespace service) in
  let id := endpointID (Service.Namespace service) (Service.Name service) (Pod.ID pod) in
  match services d !! key with
  | Some endpoints =>
      match endpoints !! id with
      | Some endpoint =>
          match broadcastServiceUpdate now encryptor d endpoint "deregister" with
          | (Returned _, d) =>
              (Returned (Ok tt),
               mk (dropEndpoint (services d) key id endpoints) (broadcasts d))
          | (Panicked what, d) => (Panicked what, d)
          end
      | None => (Returned (Ok tt), d)
      end
  | None => (Returned (Ok tt), d)
  end.

(** [int32(x)] of a float64 holding an integer. *)
Definition toInt32 (n : Z) : Z :=
  if (-2147483648 <=? n) && (n <=? 2147483647) then n else -2147483648.

(** Sequencing of steps that may panic. *)
Definition bindO {A B} (x : outcome A) (k : A -> outcome B) : outcome B :=
  match x with
  | Returned a => k a
  | Panicked what => Panicked what
  end.
Notation "x <- e ;; k" := (bindO e (fun x => k))
  (at level 100, e at next level, right associativity).

Import Json.

(** [update["type"] == "service_update"]: the interface value is a
    string and that string. *)
Definition isServiceUpdate (x : Json.value) : bool :=
  match x with
  | JStr ty => String.eqb ty "service_update"
  | _ => false
  end.

(** [HandleServiceUpdate]: the error returned and the registry
    afterwards, unless a type assertion panics.  The assertions run in
    the order of the source. *)
Definition HandleServiceUpdate (now : Z) (d : t) (message : option Json.value)
    : outcome (result unit * t) :=
  match unmarshalMap message with
  | Err e => Returned (Err "failed to unmarshal service update", d)
  | Ok update =>
      if isServiceUpdate (index update "type") then
        action <- assertString (index update "action") ;;
        serviceName <- assertString (index update "serviceName") ;;
        namespace <- assertString (index update "namespace") ;;
        podID <- assertString (index update "podID") ;;
        podName <- assertString (index update "podName") ;;
        nodeName <- assertString (index update "nodeName") ;;
        address <- assertString (index update "address") ;;
        port <- assertFloat64 (index update "port") ;;
        healthy <- assertBool (index update "healthy") ;;
        let key := serviceKey serviceName namespace in
        let id := endpointID namespace serviceName podID in
        let endpoint :=
          mkEndpoint serviceName namespace podID podName nodeName address
                     (toInt32 port) healthy now in
        if String.eqb action "register" then
          Returned (Ok tt, mk (putEndpoint (services d) key id endpoint) (broadcasts d))
        else if String.eqb action "deregister" then
          match services d !! key with
          | Some endpoints =>
              Returned (Ok tt, mk (dropEndpoint (services d) key id endpoints) (broadcasts d))
          | None => Returned (Ok tt, d)
          end
        else Returned (Ok tt, d)
      else Returned (Ok tt, d)
  end.

(** One sweep of [healthCheck]. *)
Definition healthCheck (now : Z) (d : t) : t :=
  mk ((fun endpoints : gmap string ServiceEndpoint =>
         (fun e => if 30 * Second <? now - LastSeen e
                   then mkEndpoint (ServiceName e) (Namespace e) (PodID e) (PodName e)
                                   (NodeName e) (Address e) (Port e) false (LastSeen e)
                   else e) <$> endpoints) <$> services d)
     (broadcasts d).

(** The endpoints of one service that pass the freshness test, as both
    read paths and [ListServices] collect them. *)
Definition freshEndpoints (now : Z) (endpoints : gmap string ServiceEndpoint)
    : list ServiceEndpoint :=
  List.filter (fresh now) (snd <$> map_to_list endpoints).

(** [fmt.Sprintf("%s:%d", endpoint.Address, endpoint.Port)]. *)
Definition addressOf (e : ServiceEndpoint) : string :=
  Address e +:+ ":" +:+ pretty (Port e).

(** [GetServiceAddresses]: an error when the service is unknown, and
    another when none of its endpoints is fresh. *)
Definition GetServiceAddresses (now : Z) (d : t) (serviceName namespace : string)
    : result (list string) :=
  match services d !! serviceKey serviceName namespace with
  | None => Err "service not found"
  | Some endpoints =>
      let addresses := addressOf <$> freshEndpoints now endpoints in
      if (length addresses =? 0)%nat then Err "no healthy instances for service"
      else Ok addresses
  end.

(** [ListServices]: the services that have a fresh endpoint, each with
    its fresh endpoints. *)
Definition ListServices (now : Z) (d : t) : gmap string (list ServiceEndpoint) :=
  omap (fun endpoints =>
          let healthyEndpoints := freshEndpoints now endpoints in
          if (0 <? length healthyEndpoints)%nat then Some healthyEndpoints else None)
       (services d).

(** The JSON object [broadcastServiceUpdate] marshals; [json.Marshal]
    writes the keys of a map in sorted order. *)
Definition marshalUpdate (u : Update) : Json.value :=
  let e := updateEndpoint u in
  JObj [("action", JStr (updateAction u));
        ("address", JStr (Address e));
        ("healthy", JBool (Healthy e));
        ("namespace", JStr (Namespace e));
        ("nodeName", JStr (NodeName e));
        ("podID", JStr (PodID e));
        ("podName", JStr (PodName e));
        ("port", JNum (Port e));
        ("serviceName", JStr (ServiceName e));
        ("timestamp", JNum (updateTimestamp u));
        ("type", JStr "service_update")].

End Discovery.

(* ================================================================== *)
(** ** internal/dns: the resolver *)
(* ================================================================== *)
Module Dns.
Import Discovery.

(** Resource records the server builds or inspects.  [RR_Nil] is the
    nil record [emptyAnswer] hands back when its line does not parse. *)
Inductive RR : Type :=
| RR_A (name : string) (ttl : Z) (address : string)
| RR_SRV (name : string) (ttl : Z) (priority weight port : Z) (target : string)
| RR_CNAME (name : string) (ttl : Z) (target : string)
| RR_Other (name : string)
| RR_Nil.

Inductive QType : Type := TypeA | TypeSRV | TypeAAAA | TypeOther.

Record Question : Type := mkQuestion { qName : string; Qtype : QType }.

Inductive Rcode : Type :=
| RcodeSuccess | RcodeServerFailure | RcodeRefused | RcodeOther (code : Z).

Record Msg : Type := mkMsg {
  Questions : list Question;
  Answer : list RR;
  Extra : list RR;
  MsgRcode : Rcode;
  Authoritative : bool
}.

(** [m.SetReply(r)]: an empty NOERROR reply carrying the first question. *)
Definition SetReply (r : Msg) : Msg :=
  mkMsg (take 1 (Questions r)) [] [] RcodeSuccess false.

Definition withRcode (m : Msg) (rc : Rcode) : Msg :=
  mkMsg (Questions m) (Answer m) (Extra m) rc (Authoritative m).

Definition appendAnswer (m : Msg) (rr : RR) : Msg :=
  mkMsg (Questions m) (Answer m ++ [rr]) (Extra m) (MsgRcode m) (Authoritative m).

Definition appendExtra (m : Msg) (rr : RR) : Msg :=
  mkMsg (Questions m) (Answer m) (Extra m ++ [rr]) (MsgRcode m) (Authoritative m).

(** [DNSWhitelist]: [Hosts] is a [map[string]bool] only ever assigned
    [true], that is, a set of names. *)
Record DNSWhitelist : Type := mkWhitelist {
  Enabled : bool;
  Hosts : gset string
}.

Record Server : Type := mkServer {
  discovery : Discovery.t;
  clusterDomain : string;
  upstreamDNS : list string;
  whitelist : DNSWhitelist
}.

(** *** Name parsing *)

(** [parseServiceName]: the two [TrimSuffix] calls run in the order of
    the source, the bare zone first. *)
Definition parseServiceName (s : Server) (name : string)
    : result (string * string) :=
  let name := TrimSuffix name "." in
  let name := TrimSuffix name ("." +:+ clusterDomain s) in
  let name := TrimSuffix name (".svc." +:+ clusterDomain s) in
  let parts := SplitDot name in
  if (length parts <? 2)%nat then Err "invalid service name format"
  else
    let namespace := List.last parts EmptyString in
    let serviceName := JoinDot (List.removelast parts) in
    Ok (serviceName, namespace).

(** [parseSRVName]: (portName, protocol, serviceName, namespace). *)
Definition parseSRVName (s : Server) (name : string)
    : result (string * string * string * string) :=
  let name := TrimSuffix name "." in
  let name := TrimSuffix name ("." +:+ clusterDomain s) in
  let name := TrimSuffix name (".svc." +:+ clusterDomain s) in
  let parts := SplitDot name in
  if (length parts <? 4)%nat then Err "invalid SRV name format"
  else
    let p0 := List.nth 0 parts EmptyString in
    let p1 := List.nth 1 parts EmptyString in
    if negb (HasPrefix p0 "_") || negb (HasPrefix p1 "_")
    then Err "invalid SRV name format"
    else
      let portName := TrimPrefix p0 "_" in
      let protocol := TrimPrefix p1 "_" in
      let namespace := List.last parts EmptyString in
      let serviceName := JoinDot (List.removelast (drop 2 parts)) in
      Ok (portName, protocol, serviceName, namespace).

(** *** Cluster-authoritative answers *)
Section Authoritative.

(** [dns.NewRR] parses the zone-file line the server formats; it is a
    function of the external DNS library and may reject the line (an
    address that is no IPv4 address, a port outside 16 bits).  The
    oracle says which records parse. *)
Variable rr_accepts : RR -> bool.

Definition NewRR (rr : RR) : result RR :=
  if rr_accepts rr then Ok rr else Err "dns: bad record".

(** [handleAQuery]. *)
Definition handleAQuery (now : Z) (s : Server) (m : Msg) (q : Question) : Msg :=
  match parseServiceName s (qName q) with
  | Err _ => m
  | Ok (serviceName, namespace) =>
      match GetServiceEndpoints now (discovery s) serviceName namespace with
      | Err _ => m
      | Ok endpoints =>
          foldl (fun m endpoint =>
                   match NewRR (RR_A (qName q) 60 (Address endpoint)) with
                   | Err _ => m
                   | Ok rr => appendAnswer m rr
                   end) m endpoints
      end
  end.

(** The port every SRV record of one answer carries: the loop that
    looks for it breaks on its first iteration. *)
Definition targetPortOf (endpoints : list ServiceEndpoint) : Z :=
  match endpoints with
  | [] => 0
  | endpoint :: _ => Port endpoint
  end.

(** The record loop of [handleSRVQuery]; [i] is the loop index and
    [priority] the [uint16] that the loop carries. *)
Fixpoint srvLoop (qname target : string) (targetPort : Z)
    (endpoints : list ServiceEndpoint) (i : nat) (priority : Z) (m : Msg) : Msg :=
  match endpoints with
  | [] => m
  | endpoint :: rest =>
      match NewRR (RR_SRV qname 60 priority 10 targetPort target) with
      | Err _ => srvLoop qname target targetPort rest (S i) priority m
      | Ok rr =>
          let m := appendAnswer m rr in
          let m := match NewRR (RR_A target 60 (Address endpoint)) with
                   | Ok aRR => appendExtra m aRR
                   | Err _ => m
                   end in
          let priority := if (0 <? i)%nat then (priority + 10) mod 65536
                          else priority in
          srvLoop qname target targetPort rest (S i) priority m
      end
  end.

(** [handleSRVQuery]. *)
Definition handleSRVQuery (now : Z) (s : Server) (m : Msg) (q : Question) : Msg :=
  match parseSRVName s (qName q) with
  | Err _ => m
  | Ok (portName, protocol, serviceName, namespace) =>
      match GetServiceEndpoints now (discovery s) serviceName namespace with
      | Err _ => m
      | Ok endpoints =>
          let targetPort := targetPortOf endpoints in
          let target :=
            serviceName +:+ "." +:+ namespace +:+ "." +:+ clusterDomain s +:+ "." in
          srvLoop (qName q) target targetPort endpoints 0 10 m
      end
  end.

(** [emptyAnswer] ignores the parse error and returns what it got. *)
Definition emptyAnswer (q : Question) : RR :=
  match NewRR (RR_A (qName q) 0 "0.0.0.0") with
  | Ok rr => rr
  | Err _ => RR_Nil
  end.

(** [handleClusterQuery]: the reply written for a cluster question. *)
Definition handleClusterQuery (now : Z) (s : Server) (r : Msg) : Msg :=
  let m := SetReply r in
  let m := mkMsg (Questions m) (Answer m) (Extra m) (MsgRcode m) true in
  foldl (fun m q =>
           match Qtype q with
           | TypeA => handleAQuery now s m q
           | TypeSRV => handleSRVQuery now s m q
           | TypeAAAA => appendAnswer m (emptyAnswer q)
           | TypeOther => appendAnswer m (emptyAnswer q)
           end) m (Questions r).

End Authoritative.

(** [isClusterDomainQuery]. *)
Definition isClusterDomainQuery (s : Server) (questions : list Question) : bool :=
  existsb (fun q =>
             let name := ToLower (TrimSuffix (qName q) ".") in
             HasSuffix name ("." +:+ clusterDomain s)
             || String.eqb name (clusterDomain s)) questions.

(** *** The whitelist *)

Definition normalizeHost (host : string) : string :=
  ToLower (TrimSuffix host ".").

(** The lookup [s.whitelist.Hosts[k]]. *)
Definition hostsHas (w : DNSWhitelist) (k : string) : bool :=
  bool_decide (k ∈ Hosts w).

(** [SetWhitelist]: every host is stored twice, normalized and
    normalized with a trailing dot. *)
Definition SetWhitelist (s : Server) (enabled : bool) (hosts : list string) : Server :=
  let stored :=
    foldl (fun (acc : gset string) host =>
             let normalized := normalizeHost host in
             {[ normalized +:+ "." ]} ∪ ({[ normalized ]} ∪ acc)) ∅ hosts in
  mkServer (discovery s) (clusterDomain s) (upstreamDNS s)
           (mkWhitelist enabled stored).

Definition isWhitelistEnabled (s : Server) : bool := Enabled (whitelist s).

(** [isHostAllowed]. *)
Definition isHostAllowed (s : Server) (queryName : string) : bool :=
  let w := whitelist s in
  if negb (Enabled w) then true
  else
    let normalized := normalizeHost queryName in
    if hostsHas w normalized || hostsHas w (normalized +:+ ".") then true
    else
      let parts := SplitDot normalized in
      existsb (fun i =>
                 let domain := JoinDot (drop i parts) in
                 hostsHas w domain || hostsHas w (domain +:+ "."))
              (seq 0 (length parts)).

Definition cnameTarget (rr : RR) : option string :=
  match rr with
  | RR_CNAME _ _ target => Some target
  | _ => None
  end.

(** One section loop of [extractCNAMETargets]: normalized targets not
    seen before are appended. *)
Definition extractFrom (rrs : list RR) (targets : list string) : list string :=
  foldl (fun targets rr =>
           match cnameTarget rr with
           | Some t =>
               let target := normalizeHost t in
               if bool_decide (target ∈ targets) then targets
               else targets ++ [target]
           | None => targets
           end) targets rrs.

Definition extractCNAMETargets (resp : Msg) : list string :=
  extractFrom (Extra resp) (extractFrom (Answer resp) []).

(** One section loop of [validateCNAMERecords]. *)
Definition cnamesAllowed (s : Server) (rrs : list RR) : bool :=
  forallb (fun rr =>
             match cnameTarget rr with
             | Some target => isHostAllowed s target
             | None => true
             end) rrs.

(** [validateCNAMERecords]. *)
Definition validateCNAMERecords (s : Server) (resp : Msg) : bool :=
  if negb (cnamesAllowed s (Answer resp)) then false
  else if negb (cnamesAllowed s (Extra resp)) then false
  else forallb (isHostAllowed s) (extractCNAMETargets resp).

(** *** Forwarding *)

Inductive Net : Type := UDP | TCP.

(** One [client.Exchange]: the transport, the client timeout and the
    upstream asked. *)
Record Contact : Type := mkContact {
  contactNet : Net;
  contactTimeout : Z;
  contactUpstream : string
}.

(** What [client.Exchange] returns: an error, or a response (which the
    code checks against nil). *)
Inductive Exchange : Type :=
| ExchangeErr
| ExchangeResp (resp : option Msg).

(** How one iteration of the upstream loop ends. *)
Inductive Step : Type :=
| Continue
| Return (resp : Msg).

Section Forwarding.

(** The network: what an exchange of request [r] through a contact
    gives. *)
Variable exchange : Contact -> Msg -> Exchange.

(** What the loop does with the response of an upstream. *)
Definition inspect (s : Server) (resp : option Msg) : Step :=
  match resp with
  | Some resp =>
      match MsgRcode resp with
      | RcodeSuccess =>
          if isWhitelistEnabled s && negb (validateCNAMERecords s resp)
          then Continue
          else Return resp
      | _ => Continue
      end
  | None => Continue
  end.

(** The body of the upstream loop, with the exchanges it made. *)
Definition tryUpstream (s : Server) (r : Msg) (upstream : string)
    : Step * list Contact :=
  let udp := mkContact UDP (5 * Second) upstream in
  match exchange udp r with
  | ExchangeErr =>
      let tcp := mkContact TCP (5 * Second) upstream in
      match exchange tcp r with
      | ExchangeErr => (Continue, [udp; tcp])
      | ExchangeResp resp => (inspect s resp, [udp; tcp])
      end
  | ExchangeResp resp => (inspect s resp, [udp])
  end.

(** The upstream loop: the response written, if any, and the trace. *)
Fixpoint tryUpstreams (s : Server) (r : Msg) (upstreams : list string)
    : option Msg * list Contact :=
  match upstreams with
  | [] => (None, [])
  | upstream :: rest =>
      match tryUpstream s r upstream with
      | (Return resp, trace) => (Some resp, trace)
      | (Continue, trace) =>
          let '(out, trace') := tryUpstreams s r rest in
          (out, trace ++ trace')
      end
  end.

(** [forwardQuery]: the message written to the client and the
    exchanges made with upstreams. *)
Definition forwardQuery (s : Server) (r : Msg) : Msg * list Contact :=
  let queryName :=
    match Questions r with
    | q :: _ => qName q
    | [] => EmptyString
    end in
  if isWhitelistEnabled s && negb (isHostAllowed s queryName)
  then (withRcode (SetReply r) RcodeRefused, [])
  else
    match tryUpstreams s r (upstreamDNS s) with
    | (Some resp, trace) => (resp, trace)
    | (None, trace) => (withRcode (SetReply r) RcodeServerFailure, trace)
    end.

(** [handleDNS]. *)
Definition handleDNS (rr_accepts : RR -> bool) (now : Z) (s : Server) (r : Msg)
    : Msg * list Contact :=
  if isClusterDomainQuery s (Questions r)
  then (handleClusterQuery rr_accepts now s r, [])
  else forwardQuery s r.

End Forwarding.

(** [GetWhitelist]: the stored names without their trailing dot, each
    once; Go ranges over the map in an unspecified order, the model in
    that of [elements]. *)
Definition GetWhitelist (s : Server) : bool * list string :=
  (Enabled (whitelist s),
   foldl (fun hosts host =>
            let normalized := TrimSuffix host "." in
            if bool_decide (normalized ∈ hosts) then hosts
            else hosts ++ [normalized])
         [] (elements (Hosts (whitelist s)))).

End Dns.

(* ================================================================== *)
(** ** internal/security: join tokens *)
(* ================================================================== *)
Module Security.

(** *** [encoding/base64], URL alphabet with padding *)

Definition b64val (c : ascii) : option N :=
  let n := N_of_ascii c in
  if ((65 <=? n) && (n <=? 90))%N then Some (n - 65)%N
  else if ((97 <=? n) && (n <=? 122))%N then Some (n - 71)%N
  else if ((48 <=? n) && (n <=? 57))%N then Some (n + 4)%N
  else if (n =? 45)%N then Some 62%N
  else if (n =? 95)%N then Some 63%N
  else None.

Definition isPad (c : ascii) : bool := Ascii.eqb c "="%char.

Definition isNewline (c : ascii) : bool :=
  Ascii.eqb c "010"%char || Ascii.eqb c "013"%char.

Definition byteOf (n : N) : ascii := ascii_of_N (n mod 256).

(** The quanta of four characters; padding may close the last one. *)
Fixpoint decodeQuanta (cs : list ascii) : option (list ascii) :=
  match cs with
  | [] => Some []
  | a :: b :: c :: d :: rest =>
      match b64val a, b64val b with
      | Some va, Some vb =>
          let b1 := byteOf (va * 4 + vb / 16) in
          if isPad d then
            match rest with
            | [] =>
                if isPad c then Some [b1]
                else match b64val c with
                     | Some vc => Some [b1; byteOf (vb * 16 + vc / 4)]
                     | None => None
                     end
            | _ :: _ => None
            end
          else
            match b64val c, b64val d, decodeQuanta rest with
            | Some vc, Some vd, Some bytes =>
                Some (b1 :: byteOf (vb * 16 + vc / 4) :: byteOf (vc * 64 + vd) :: bytes)
            | _, _, _ => None
            end
      | _, _ => None
      end
  | _ => None
  end.

(** [base64.URLEncoding.DecodeString]: carriage returns and line feeds
    are skipped, anything else outside the alphabet is an error. *)
Definition DecodeString (s : string) : result string :=
  match decodeQuanta (List.filter (fun c => negb (isNewline c)) (list_ascii_of_string s)) with
  | Some bytes => Ok (string_of_list_ascii bytes)
  | None => Err "illegal base64 data"
  end.

(** *** [encoding/hex] *)

Definition hexDigit (n : N) : ascii :=
  if (n <? 10)%N then ascii_of_N (48 + n) else ascii_of_N (87 + n).

Fixpoint EncodeToString (bytes : string) : string :=
  match bytes with
  | EmptyString => EmptyString
  | String c rest =>
      let n := N_of_ascii c in
      String (hexDigit (n / 16)) (String (hexDigit (n mod 16)) (EncodeToString rest))
  end.

(** *** The token manager *)

Record Token : Type := mkToken {
  Value : string;
  Hash : string;
  CreatedAt : Z;
  ExpiresAt : option Z
}.

Record TokenManager : Type := mkTokenManager {
  tokens : gmap string Token;
  secret : string
}.

Section Hashing.

(** [sha256.Sum256], the digest as a byte string. *)
Variable Sum256 : string -> string.

(** The hash string the manager stores and recomputes. *)
Definition hashStr (secret tokenBytes : string) : string :=
  EncodeToString (Sum256 (secret +:+ tokenBytes)).

(** [GenerateToken]; [token] is the URL-safe text of the 32 random
    bytes [tokenBytes]. *)
Definition GenerateToken (now : Z) (token tokenBytes : string) (tm : TokenManager)
    : string * TokenManager :=
  let t := mkToken token (hashStr (secret tm) tokenBytes) now None in
  (token, mkTokenManager (<[token := t]> (tokens tm)) (secret tm)).

(** [ValidateToken]: the verdict and the manager afterwards (an
    expired token is deleted). *)
Definition ValidateToken (now : Z) (tm : TokenManager) (token : string)
    : bool * TokenManager :=
  match tokens tm !! token with
  | None =>
      match DecodeString token with
      | Err _ => (false, tm)
      | Ok tokenBytes =>
          let h := hashStr (secret tm) tokenBytes in
          if existsb (fun kt => String.eqb (Hash (snd kt)) h) (map_to_list (tokens tm))
          then (true, tm)
          else if (size (tokens tm) =? 0)%nat then (true, tm)
          else (false, tm)
      end
  | Some t =>
      match ExpiresAt t with
      | Some expires =>
          if expires <? now
          then (false, mkTokenManager (delete token (tokens tm)) (secret tm))
          else (true, tm)
      | None => (true, tm)
      end
  end.

End Hashing.

(** [RevokeToken]. *)
Definition RevokeToken (tm : TokenManager) (token : string) : TokenManager :=
  mkTokenManager (delete token (tokens tm)) (secret tm).

(** [ListTokens], in map order. *)
Definition ListTokens (tm : TokenManager) : list string :=
  fst <$> map_to_list (tokens tm).

End Security.

(* ================================================================== *)
(** ** internal/security: API tokens *)
(* ================================================================== *)
Module ApiTokens.

Record APIToken : Type := mkAPIToken {
  Token : string;
  Hash : string;
  Name : string;
  CreatedAt : Z;
  ExpiresAt : option Z
}.

(** [tokens]: token -> record; [hashes]: hash -> token. *)
Record APITokenManager : Type := mkManager {
  tokens : gmap string APIToken;
  hashes : gmap string string;
  secret : string
}.

(** [t.ExpiresAt != nil && now.After( *t.ExpiresAt)]. *)
Definition expiredAt (now : Z) (t : APIToken) : bool :=
  match ExpiresAt t with
  | Some expires => expires <? now
  | None => false
  end.

(** [GenerateToken] when [rand.Read] succeeds; [token] is the URL-safe
    text of the 32 random bytes [tokenBytes], [Sum256] the digest. *)
Definition GenerateToken (Sum256 : string -> string) (now : Z)
    (token tokenBytes name : string) (expiresAt : option Z) (tm : APITokenManager)
    : string * APITokenManager :=
  let hashStr := Security.hashStr Sum256 (secret tm) tokenBytes in
  let apiToken := mkAPIToken token hashStr name now expiresAt in
  (token, mkManager (<[token := apiToken]> (tokens tm))
                    (<[hashStr := token]> (hashes tm)) (secret tm)).

(** [ValidateToken]. *)
Definition ValidateToken (now : Z) (tm : APITokenManager) (token : string) : bool :=
  match tokens tm !! token with
  | None => false
  | Some t => if expiredAt now t then false else true
  end.

(** [RevokeToken]. *)
Definition RevokeToken (tm : APITokenManager) (token : string)
    : result unit * APITokenManager :=
  match tokens tm !! token with
  | None => (Err "token not found", tm)
  | Some t =>
      (Ok tt, mkManager (delete token (tokens tm)) (delete (Hash t) (hashes tm))
                        (secret tm))
  end.

(** [ListTokens], in map order: copies with the token value masked. *)
Definition ListTokens (tm : APITokenManager) : list APIToken :=
  (fun token => mkAPIToken "***" (Hash token) (Name token) (CreatedAt token)
                           (ExpiresAt token))
    <$> (snd <$> map_to_list (tokens tm)).

(** [CleanupExpiredTokens]: the loop ranges over the token map and
    deletes, per expired record, its hash entry and itself. *)
Definition CleanupExpiredTokens (now : Z) (tm : APITokenManager) : APITokenManager :=
  map_fold (fun token t tm =>
              if expiredAt now t
              then mkManager (delete token (tokens tm)) (delete (Hash t) (hashes tm))
                             (secret tm)
              else tm) tm (tokens tm).

End ApiTokens.

(* ================================================================== *)
(** ** internal/storage: the persistent store *)
(* ================================================================== *)
Module Storage.

(** [ClusterState], the unit of persistence and of anti-entropy.  Its
    maps hold pointers, and [json.Unmarshal] decodes a [null] entry to a
    nil pointer: an entry is [None] for the nil pointer and [Some] of the
    record otherwise.  A nil map of an incoming snapshot ranges like the
    empty map. *)
Record ClusterState : Type := mkState {
  Deployments : gmap string (option Deployment.t);
  Services : gmap string (option Service.t);
  Ingresses : gmap string (option Ingress.t);
  Pods : gmap string (option Pod.t);
  LastModified : Z;
  Version : Z
}.

(** The data directory: [state.json] and [state.json.tmp], each by the
    snapshot its bytes encode. *)
Record Disk : Type := mkDisk {
  stateFile : option ClusterState;
  tmpFile : option ClusterState
}.

(** What the file system does to one [persist]. *)
Inductive IO : Type := IOSuccess | WriteFileFails | RenameFails.

(** The store.  [Load] and [MergeState] put the entries of a decoded
    snapshot into the maps as they are, so these too may hold nil
    pointers. *)
Record t : Type := mk {
  deployments : gmap string (option Deployment.t);
  services : gmap string (option Service.t);
  ingresses : gmap string (option Ingress.t);
  pods : gmap string (option Pod.t);
  lastModified : Z;
  disk : Disk
}.

(** The snapshot [persist], [GetState] and [Backup] build. *)
Definition GetState (s : t) : ClusterState :=
  mkState (deployments s) (services s) (ingresses s) (pods s) (lastModified s) 1.

Definition withDisk (s : t) (d : Disk) : t :=
  mk (deployments s) (services s) (ingresses s) (pods s) (lastModified s) d.

(** [persist]: write [state.json.tmp], then rename it over
    [state.json]. *)
Definition persist (io : IO) (s : t) : result unit * t :=
  let state := GetState s in
  match io with
  | WriteFileFails => (Err "failed to write state file", s)
  | RenameFails =>
      (Err "failed to rename state file",
       withDisk s (mkDisk (stateFile (disk s)) (Some state)))
  | IOSuccess => (Ok tt, withDisk s (mkDisk (Some state) None))
  end.

(** [Load]: an absent file leaves the store as it is. *)
Definition Load (s : t) : t :=
  match stateFile (disk s) with
  | None => s
  | Some state =>
      mk (Deployments state) (Services state) (Ingresses state) (Pods state)
         (LastModified state) (disk s)
  end.

(** *** Deployments *)

(** The [Save] functions read the namespace and the name through the
    pointer they are given; their callers in the repository hand in the
    address of a record, which is what the model takes. *)
Definition SaveDeployment (now : Z) (io : IO) (s : t) (deployment : Deployment.t)
    : result unit * t :=
  let key := nsKey (Deployment.Namespace deployment) (Deployment.Name deployment) in
  persist io (mk (<[key := Some deployment]> (deployments s)) (services s)
                 (ingresses s) (pods s) now (disk s)).

(** [GetDeployment] returns the pointer stored under the key, nil or
    not. *)
Definition GetDeployment (s : t) (namespace name : string)
    : result (option Deployment.t) :=
  match deployments s !! nsKey namespace name with
  | Some deployment => Ok deployment
  | None => Err "deployment not found"
  end.

Definition DeleteDeployment (now : Z) (io : IO) (s : t) (namespace name : string)
    : result unit * t :=
  persist io (mk (delete (nsKey namespace name) (deployments s)) (services s)
                 (ingresses s) (pods s) now (disk s)).

Definition ListDeployments (s : t) : list (option Deployment.t) :=
  snd <$> map_to_list (deployments s).

(** *** Services *)

Definition SaveService (now : Z) (io : IO) (s : t) (service : Service.t)
    : result unit * t :=
  let key := nsKey (Service.Namespace service) (Service.Name service) in
  persist io (mk (deployments s) (<[key := Some service]> (services s))
                 (ingresses s) (pods s) now (disk s)).

Definition GetService (s : t) (namespace name : string) : result (option Service.t) :=
  match services s !! nsKey namespace name with
  | Some service => Ok service
  | None => Err "service not found"
  end.

Definition DeleteService (now : Z) (io : IO) (s : t) (namespace name : string)
    : result unit * t :=
  persist io (mk (deployments s) (delete (nsKey namespace name) (services s))
                 (ingresses s) (pods s) now (disk s)).

Definition ListServices (s : t) : list (option Service.t) :=
  snd <$> map_to_list (services s).

(** *** Ingresses *)

Definition SaveIngress (now : Z) (io : IO) (s : t) (ingress : Ingress.t)
    : result unit * t :=
  let key := nsKey (Ingress.Namespace ingress) (Ingress.Name ingress) in
  persist io (mk (deployments s) (services s)
                 (<[key := Some ingress]> (ingresses s)) (pods s) now (disk s)).

Definition GetIngress (s : t) (namespace name : string) : result (option Ingress.t) :=
  match ingresses s !! nsKey namespace name with
  | Some ingress => Ok ingress
  | None => Err "ingress not found"
  end.

Definition DeleteIngress (now : Z) (io : IO) (s : t) (namespace name : string)
    : result unit * t :=
  persist io (mk (deployments s) (services s)
                 (delete (nsKey namespace name) (ingresses s)) (pods s) now (disk s)).

(** *** Pods *)

Definition SavePod (now : Z) (io : IO) (s : t) (pod : Pod.t) : result unit * t :=
  let key := nsKey (Pod.Namespace pod) (Pod.Name pod) in
  persist io (mk (deployments s) (services s) (ingresses s)
                 (<[key := Some pod]> (pods s)) now (disk s)).

Definition GetPod (s : t) (namespace name : string) : result (option Pod.t) :=
  match pods s !! nsKey namespace name with
  | Some pod => Ok pod
  | None => Err "pod not found"
  end.

Definition DeletePod (now : Z) (io : IO) (s : t) (namespace name : string)
    : result unit * t :=
  persist io (mk (deployments s) (services s) (ingresses s)
                 (delete (nsKey namespace name) (pods s)) now (disk s)).

(** *** Merge *)

(** [for key, x := range incoming { local[key] = x }]: the pointer is
    stored as it is, nil or not. *)
Definition overwrite {A} (incoming local : gmap string A) : gmap string A :=
  map_fold (fun key x local => <[key := x]> local) local incoming.

(** The body of the pod loop,
    [if existing, ok := s.pods[key]; !ok || pod.CreatedAt > existing.CreatedAt].
    When the key is new the second operand is not evaluated and the
    incoming pointer is stored, nil or not; otherwise [CreatedAt] is read
    through both pointers, and a nil one among them is a nil
    dereference. *)
Definition mergePod (key : string) (pod : option Pod.t)
    (local : gmap string (option Pod.t)) : outcome (gmap string (option Pod.t)) :=
  match local !! key with
  | None => Returned (<[key := pod]> local)
  | Some existing =>
      match pod, existing with
      | Some incomingPod, Some existingPod =>
          Returned (if Pod.CreatedAt existingPod <? Pod.CreatedAt incomingPod
                    then <[key := pod]> local
                    else local)
      | _, _ => Panicked nilDereference
      end
  end.

(** The pod loop: it ends at the first panic, with the pods merged so
    far in place.  Go ranges over the incoming map in an unspecified
    order; the model takes that of [map_fold]. *)
Definition mergePods (incoming local : gmap string (option Pod.t))
    : outcome unit * gmap string (option Pod.t) :=
  map_fold (fun key pod (acc : outcome unit * gmap string (option Pod.t)) =>
              match acc with
              | (Returned _, local) =>
                  match mergePod key pod local with
                  | Returned local => (Returned tt, local)
                  | Panicked what => (Panicked what, local)
                  end
              | (Panicked what, local) => (Panicked what, local)
              end) (Returned tt, local) incoming.

(** [MergeState]: what the call does (the error it returns, or its
    panic) and the store it leaves; [LastModified.After] is [<] on
    instants.  The deferred unlock runs on a panic too, so the store stays
    usable with the entries written before the panic; [lastModified] and
    the disk are written after the pod loop only. *)
Definition MergeState (now : Z) (io : IO) (s : t) (incomingState : ClusterState)
    : outcome (result unit) * t :=
  if lastModified s <? LastModified incomingState then
    let deployments := overwrite (Deployments incomingState) (deployments s) in
    let services := overwrite (Services incomingState) (services s) in
    let ingresses := overwrite (Ingresses incomingState) (ingresses s) in
    match mergePods (Pods incomingState) (pods s) with
    | (Returned _, pods) =>
        let '(r, s) := persist io (mk deployments services ingresses pods now (disk s)) in
        (Returned r, s)
    | (Panicked what, pods) =>
        (Panicked what,
         mk deployments services ingresses pods (lastModified s) (disk s))
    end
  else (Returned (Ok tt), s).

(** *** Synchronisation messages *)

Record StateSyncMessage : Type := mkSync {
  Type_ : string;
  State : option ClusterState;
  Timestamp : Z;
  NodeName : string
}.

Section Sync.

(** [json.Unmarshal(data, &msg)] for a [StateSyncMessage], a function
    of the standard library. *)
Variable unmarshalSync : option Json.value -> result StateSyncMessage.

(** [HandleStateSyncMessage]. *)
Definition HandleStateSyncMessage (now : Z) (io : IO) (s : t)
    (data : option Json.value) : outcome (result unit) * t :=
  match unmarshalSync data with
  | Err _ => (Returned (Err "failed to unmarshal state sync message"), s)
  | Ok msg =>
      if String.eqb (Type_ msg) "state_sync" then
        match State msg with
        | Some state => MergeState now io s state
        | None => (Returned (Ok tt), s)
        end
      else (Returned (Ok tt), s)
  end.

End Sync.

End Storage.

(* ================================================================== *)
(** ** internal/scheduler *)
(* ================================================================== *)
Module Scheduler.

(** [pods]: pod id -> pod. *)
Record t : Type := mk { pods : gmap string Pod.t }.

(** The selector test of [findNodeBySelector] and [matchesSelector]. *)
Definition matchesSelector (labels selector : gmap string string) : bool :=
  forallb (fun kv => String.eqb (labelOf labels (fst kv)) (snd kv))
          (map_to_list selector).

Definition findNodeBySelector (c : Cluster.t) (selector : gmap string string)
    : result Node.t :=
  match List.find (fun node => matchesSelector (Node.Labels node) selector)
                  (Cluster.GetNodes c) with
  | Some node => Ok node
  | None => Err "no node matches selector"
  end.

Section Random.

(** [rand.Intn]. *)
Variable Intn : nat -> nat.

(** [SchedulePod]: the node chosen and the pod as the call leaves it
    (its [NodeName] is set through the pointer). *)
Definition SchedulePod (c : Cluster.t) (s : t) (pod : Pod.t)
    : result (string * Pod.t) * t :=
  if (0 <? size (Pod.NodeSelector pod))%nat then
    match findNodeBySelector c (Pod.NodeSelector pod) with
    | Err _ => (Err "no node matches selector", s)
    | Ok node =>
        let pod := Pod.setNodeName pod (Node.Name node) in
        (Ok (Node.Name node, pod), mk (<[Pod.ID pod := pod]> (pods s)))
    end
  else
    let nodes := Cluster.GetNodes c in
    match List.nth_error nodes (Intn (length nodes) mod length nodes)%nat with
    | None => (Err "no nodes available", s)
    | Some selectedNode =>
        let pod := Pod.setNodeName pod (Node.Name selectedNode) in
        (Ok (Node.Name selectedNode, pod), mk (<[Pod.ID pod := pod]> (pods s)))
    end.

End Random.

Definition RemovePod (s : t) (podID : string) : t := mk (delete podID (pods s)).

Definition GetAllPods (s : t) : list Pod.t := snd <$> map_to_list (pods s).

Definition UpdatePodState (s : t) (podID : string) (state : PodState)
    : result unit * t :=
  match pods s !! podID with
  | None => (Err "pod not found", s)
  | Some pod => (Ok tt, mk (<[podID := Pod.setState pod state]> (pods s)))
  end.

(** [GetPod]. *)
Definition GetPod (s : t) (podID : string) : result Pod.t :=
  match pods s !! podID with
  | Some pod => Ok pod
  | None => Err "pod not found"
  end.

(** [GetPodsByNode], in map order. *)
Definition GetPodsByNode (s : t) (nodeName : string) : list Pod.t :=
  List.filter (fun pod => String.eqb (Pod.NodeName pod) nodeName)
              (snd <$> map_to_list (pods s)).

End Scheduler.

(* ================================================================== *)
(** ** internal/ingress: the rule set of the proxy *)
(* ================================================================== *)
Module IngressController.

Record t : Type := mk { rules : gmap string Ingress.t }.

Definition AddIngress (ic : t) (ingress : Ingress.t) : t :=
  mk (<[nsKey (Ingress.Namespace ingress) (Ingress.Name ingress) := ingress]> (rules ic)).

Definition RemoveIngress (ic : t) (namespace name : string) : t :=
  mk (delete (nsKey namespace name) (rules ic)).

End IngressController.

(** The request handler of the ingress controller, up to the choice of
    the backend: the rule search and the endpoint lookup. *)
Module IngressRouting.
Import Ingress.

(** [len(requestPath) >= len(ingressPath) &&
    requestPath[:len(ingressPath)] == ingressPath]. *)
Definition hasPathPrefix (requestPath ingressPath : string) : bool :=
  (String.length ingressPath <=? String.length requestPath)%nat
  && String.eqb (substring 0 (String.length ingressPath) requestPath) ingressPath.

(** [matchesPath]; a [networkingv1.PathType] is a string. *)
Definition matchesPath (requestPath ingressPath : string) (pathType : option string)
    : bool :=
  if String.eqb ingressPath EmptyString then true
  else
    match pathType with
    | None => hasPathPrefix requestPath ingressPath
    | Some ty =>
        if String.eqb ty "Exact" then String.eqb requestPath ingressPath
        else if String.eqb ty "Prefix" then hasPathPrefix requestPath ingressPath
        else if String.eqb ty "ImplementationSpecific"
             then hasPathPrefix requestPath ingressPath
        else false
    end.

(** The path loop of one rule: the first matching path of a rule for
    this host or for every host. *)
Definition matchRule (host path : string) (rule : IngressRule) : option IngressPath :=
  if String.eqb (Host rule) host || String.eqb (Host rule) EmptyString
  then List.find (fun p => matchesPath path (Path p) (PathType p)) (Paths rule)
  else None.

(** The rule loop of one ingress. *)
Fixpoint matchRules (host path : string) (rules : list IngressRule)
    : option IngressPath :=
  match rules with
  | [] => None
  | rule :: rest =>
      match matchRule host path rule with
      | Some p => Some p
      | None => matchRules host path rest
      end
  end.

(** The loop over the ingresses: the first ingress with a match. *)
Fixpoint matchIngresses (host path : string) (ingresses : list Ingress.t)
    : option (Ingress.t * IngressPath) :=
  match ingresses with
  | [] => None
  | ingress :: rest =>
      match matchRules host path (Rules ingress) with
      | Some p => Some (ingress, p)
      | None => matchIngresses host path rest
      end
  end.

(** How [handleRequest] goes on after the lookup: 404, 503, or on to
    the backend choice with the rule and the endpoints found. *)
Inductive Routed : Type :=
| NotFound
| ServiceUnavailable
| Backends (ingress : Ingress.t) (path : IngressPath)
           (endpoints : list Discovery.ServiceEndpoint).

(** [handleRequest] up to there; Go ranges over the rules in an
    unspecified order, the model in that of [map_to_list]. *)
Definition route (now : Z) (ic : IngressController.t) (d : Discovery.t)
    (host path : string) : Routed :=
  match matchIngresses host path (snd <$> map_to_list (IngressController.rules ic)) with
  | None => NotFound
  | Some (matchedIngress, matchedPath) =>
      match Discovery.GetServiceEndpoints now d (ServiceName matchedPath)
                                          (Namespace matchedIngress) with
      | Err _ => ServiceUnavailable
      | Ok endpoints =>
          if (length endpoints =? 0)%nat then ServiceUnavailable
          else Backends matchedIngress matchedPath endpoints
      end
  end.

End IngressRouting.

(* ================================================================== *)
(** ** internal/podman: the container runtime *)
(* ================================================================== *)
Module Podman.

(** The runtime as the agent sees it: what each call answers. *)
Record Client : Type := mkClient {
  CreatePod : Pod.t -> result string;
  StartPod : string -> result unit;
  StopPod : string -> result unit;
  RemovePod : string -> result unit;
  GetPodStatus : string -> PodState
}.

(** The calls the agent made, oldest first. *)
Inductive Call : Type :=
| CallCreate (pod : Pod.t)
| CallStart (containerID : string)
| CallStop (containerID : string)
| CallRemove (containerID : string)
| CallStatus (containerID : string).

End Podman.

(* ================================================================== *)
(** ** internal/parser *)
(* ================================================================== *)
Module Parser.

(** An [appsv1.Deployment] whose [Spec.Replicas] is set. *)
Record K8sDeployment : Type := mkK8sDeployment {
  ObjName : string;
  ObjNamespace : string;
  SpecReplicas : Z;
  SpecTemplate : Template.t;
  ObjLabels : gmap string string;
  SpecSelector : gmap string string
}.

Definition ParseDeployment (deployment : K8sDeployment) : result Deployment.t :=
  Ok (Deployment.mk (ObjName deployment) (ObjNamespace deployment)
                    (SpecReplicas deployment) (SpecReplicas deployment) []
                    (SpecTemplate deployment) (ObjLabels deployment)
                    (SpecSelector deployment)).

Definition ExtractPodFromTemplate (template : Template.t) (namespace podName : string)
    : Pod.t :=
  let pod := Pod.mk EmptyString podName namespace EmptyString PodStatePending
                    EmptyString (Template.Labels template)
                    (Template.Annotations template) [] [] [] ∅ 0 in
  let pod :=
    match Template.Containers template with
    | container :: _ =>
        Pod.mk (Pod.ID pod) (Pod.Name pod) (Pod.Namespace pod) (Pod.NodeName pod)
               (Pod.State pod) (Template.ContainerImage container) (Pod.Labels pod)
               (Pod.Annotations pod) (Template.ContainerPorts container)
               (Template.ContainerEnv container) (Template.VolumeMounts container)
               (Pod.NodeSelector pod) (Pod.CreatedAt pod)
    | [] => pod
    end in
  Pod.mk (Pod.ID pod) (Pod.Name pod) (Pod.Namespace pod) (Pod.NodeName pod)
         (Pod.State pod) (Pod.Image pod) (Pod.Labels pod) (Pod.Annotations pod)
         (Pod.Ports pod) (Pod.Env pod) (Pod.Volumes pod)
         (Template.NodeSelector template) (Pod.CreatedAt pod).

End Parser.

(* ================================================================== *)
(** ** internal/api: apply, delete and recovery *)
(* ================================================================== *)
Module Api.

(** The API object with the components it points to.  [storage] is the
    field [RecoverDeployments] reads as [a.storage]; [runtimeCalls]
    records what was asked of the container runtime. *)
Record t : Type := mk {
  scheduler : Scheduler.t;
  cluster : Cluster.t;
  discovery : Discovery.t;
  ingress : IngressController.t;
  storage : Storage.t;
  deployments : gmap string Deployment.t;
  services : gmap string Service.t;
  ingresses : gmap string Ingress.t;
  runtimeCalls : list Podman.Call
}.

Definition withScheduler (a : t) (x : Scheduler.t) : t :=
  mk x (cluster a) (discovery a) (ingress a) (storage a) (deployments a)
     (services a) (ingresses a) (runtimeCalls a).

Definition withDiscovery (a : t) (x : Discovery.t) : t :=
  mk (scheduler a) (cluster a) x (ingress a) (storage a) (deployments a)
     (services a) (ingresses a) (runtimeCalls a).

Definition withIngress (a : t) (x : IngressController.t) : t :=
  mk (scheduler a) (cluster a) (discovery a) x (storage a) (deployments a)
     (services a) (ingresses a) (runtimeCalls a).

Definition withStorage (a : t) (x : Storage.t) : t :=
  mk (scheduler a) (cluster a) (discovery a) (ingress a) x (deployments a)
     (services a) (ingresses a) (runtimeCalls a).

Definition withDeployments (a : t) (x : gmap string Deployment.t) : t :=
  mk (scheduler a) (cluster a) (discovery a) (ingress a) (storage a) x
     (services a) (ingresses a) (runtimeCalls a).

Definition withServices (a : t) (x : gmap string Service.t) : t :=
  mk (scheduler a) (cluster a) (discovery a) (ingress a) (storage a)
     (deployments a) x (ingresses a) (runtimeCalls a).

Definition withIngresses (a : t) (x : gmap string Ingress.t) : t :=
  mk (scheduler a) (cluster a) (discovery a) (ingress a) (storage a)
     (deployments a) (services a) x (runtimeCalls a).

Definition called (a : t) (c : Podman.Call) : t :=
  mk (scheduler a) (cluster a) (discovery a) (ingress a) (storage a)
     (deployments a) (services a) (ingresses a) (runtimeCalls a ++ [c]).

Section World.

(** The id [generateID] draws and the Unix time read for replica
    [i], the random source of the scheduler, the runtime, and the
    clock and file system the store sees. *)
Variable generateID : nat -> string.
Variable unixNow : nat -> Z.
Variable Intn : nat -> nat.
Variable podman : Podman.Client.
Variable now : Z.
Variable io : Storage.IO.

(** The body both replica loops share, up to the append: the pod to
    append, or the error the body stops on.  The scheduler keeps the
    pointer to the pod under the generated id, so the write
    [pod.ID = containerID] shows in its table, and the pod appended
    is the one the table holds. *)
Definition replica (a : t) (dep : Deployment.t) (i : nat) : result Pod.t * t :=
  let podName := Deployment.Name dep +:+ "-" +:+ pretty i in
  let pod := Parser.ExtractPodFromTemplate
               (Deployment.Template dep) (Deployment.Namespace dep) podName in
  let generated := generateID i in
  let pod := Pod.setCreatedAt (Pod.setID pod generated) (unixNow i) in
  match Scheduler.SchedulePod Intn (cluster a) (scheduler a) pod with
  | (Err _, _) => (Err "failed to schedule pod", a)
  | (Ok (nodeName, pod), sch) =>
      let a := withScheduler a sch in
      if String.eqb nodeName (Cluster.GetLocalNodeName (cluster a)) then
        let a := called a (Podman.CallCreate pod) in
        match Podman.CreatePod podman pod with
        | Err _ => (Err "failed to create pod", a)
        | Ok containerID =>
            let pod := Pod.setID pod containerID in
            let a := withScheduler a
                       (Scheduler.mk (<[generated := pod]> (Scheduler.pods (scheduler a)))) in
            let a := called a (Podman.CallStart containerID) in
            match Podman.StartPod podman containerID with
            | Err _ => (Err "failed to start pod", a)
            | Ok _ =>
                let a := called a (Podman.CallStatus containerID) in
                let state := Podman.GetPodStatus podman containerID in
                let a := withScheduler a
                           (snd (Scheduler.UpdatePodState (scheduler a) containerID state)) in
                (Ok (default pod (Scheduler.pods (scheduler a) !! generated)), a)
            end
        end
      else (Ok pod, a)
  end.

(** The loop of [applyDeployment]: an error of the body is returned
    at once. *)
Fixpoint applyReplicas (a : t) (dep : Deployment.t) (indices : list nat)
    : result unit * t * Deployment.t :=
  match indices with
  | [] => (Ok tt, a, dep)
  | i :: rest =>
      match replica a dep i with
      | (Err e, a) => (Err e, a, dep)
      | (Ok pod, a) =>
          applyReplicas a (Deployment.setPods dep (Deployment.Pods dep ++ [pod])) rest
      end
  end.

(** [applyDeployment].  [a.deployments[key]] holds the pointer to
    [dep], so it shows the pods appended until the function returns. *)
Definition applyDeployment (a : t) (deployment : Parser.K8sDeployment)
    : result unit * t :=
  match Parser.ParseDeployment deployment with
  | Err e => (Err e, a)
  | Ok dep =>
      let key := nsKey (Deployment.Namespace dep) (Deployment.Name dep) in
      let '(r, a, dep) :=
        applyReplicas a dep (seq 0 (Z.to_nat (Deployment.DesiredReplicas dep))) in
      (r, withDeployments a (<[key := dep]> (deployments a)))
  end.

(** The loop of [RecoverDeployments]: an error of the body is counted
    and the loop goes on with the next replica. *)
Fixpoint recoverReplicas (a : t) (dep : Deployment.t) (indices : list nat)
    (failedCount : nat) : t * Deployment.t * nat :=
  match indices with
  | [] => (a, dep, failedCount)
  | i :: rest =>
      match replica a dep i with
      | (Err _, a) => recoverReplicas a dep rest (S failedCount)
      | (Ok pod, a) =>
          recoverReplicas a (Deployment.setPods dep (Deployment.Pods dep ++ [pod]))
                          rest failedCount
      end
  end.

(** One deployment of [RecoverDeployments]; [stored] is the key the
    store holds it under (the store's object is the one mutated). *)
Definition recoverDeployment (st : t * nat) (entry : string * Deployment.t)
    : t * nat :=
  let '(a, failedCount) := st in
  let '(stored, dep) := entry in
  let dep := Deployment.setPods dep [] in
  let '(a, dep, failedCount) :=
    recoverReplicas a dep (seq 0 (Z.to_nat (Deployment.DesiredReplicas dep)))
                    failedCount in
  let key := nsKey (Deployment.Namespace dep) (Deployment.Name dep) in
  let a := withDeployments a (<[key := dep]> (deployments a)) in
  let s := storage a in
  let s := Storage.mk (<[stored := Some dep]> (Storage.deployments s)) (Storage.services s)
                      (Storage.ingresses s) (Storage.pods s)
                      (Storage.lastModified s) (Storage.disk s) in
  (withStorage a (snd (Storage.SaveDeployment now io s dep)), failedCount).

(** The loop over the stored deployments.  Its first statement reads
    [dep.Namespace] for the log line: at a nil entry of the store the
    loop panics, with the deployments before it recovered. *)
Fixpoint recoverDeployments (entries : list (string * option Deployment.t))
    (st : t * nat) : outcome unit * (t * nat) :=
  match entries with
  | [] => (Returned tt, st)
  | (stored, Some dep) :: rest =>
      recoverDeployments rest (recoverDeployment st (stored, dep))
  | (_, None) :: _ => (Panicked nilDereference, st)
  end.

(** [c.encryptor] of the cluster the discovery client broadcasts
    through. *)
Variable encryptor : option (Discovery.Update -> result unit).

(** [for _, pod := range pods { if matchesSelector(...) {
    a.discovery.RegisterService(svc, pod) } }]: an error of the
    registration is logged, a panic of it ends the loop. *)
Fixpoint registerPods (svc : Service.t) (pods : list Pod.t) (a : t)
    : outcome unit * t :=
  match pods with
  | [] => (Returned tt, a)
  | pod :: rest =>
      if Scheduler.matchesSelector (Pod.Labels pod) (Service.Selector svc) then
        match Discovery.RegisterService now encryptor (cluster a) (discovery a)
                                        svc pod with
        | (Returned _, d) => registerPods svc rest (withDiscovery a d)
        | (Panicked what, d) => (Panicked what, withDiscovery a d)
        end
      else registerPods svc rest a
  end.

(** One service of [RecoverDeployments]: [svc.Namespace] is read for
    the log line first. *)
Definition recoverService (a : t) (svc : option Service.t) : outcome unit * t :=
  match svc with
  | None => (Panicked nilDereference, a)
  | Some svc =>
      match registerPods svc (Scheduler.GetAllPods (scheduler a)) a with
      | (Returned _, a) =>
          (Returned tt,
           withServices a
             (<[nsKey (Service.Namespace svc) (Service.Name svc) := svc]> (services a)))
      | (Panicked what, a) => (Panicked what, a)
      end
  end.

Fixpoint recoverServices (svcs : list (option Service.t)) (a : t)
    : outcome unit * t :=
  match svcs with
  | [] => (Returned tt, a)
  | svc :: rest =>
      match recoverService a svc with
      | (Returned _, a) => recoverServices rest a
      | (Panicked what, a) => (Panicked what, a)
      end
  end.

(** [RecoverDeployments]: what the call does and the API it leaves.  It
    runs in a goroutine of its own, where nothing recovers a panic. *)
Definition RecoverDeployments (a : t) : outcome (result unit) * t :=
  match recoverDeployments (map_to_list (Storage.deployments (storage a)))
                           (a, 0%nat) with
  | (Panicked what, (a, _)) => (Panicked what, a)
  | (Returned _, (a, failedCount)) =>
      match recoverServices (Storage.ListServices (storage a)) a with
      | (Panicked what, a) => (Panicked what, a)
      | (Returned _, a) =>
          if (0 <? failedCount)%nat
          then (Returned (Err "pods failed to recover"), a)
          else (Returned (Ok tt), a)
      end
  end.

(** The deployment branch of [DeleteManifest] for one pod. *)
Definition deletePod (a : t) (pod : Pod.t) : t :=
  let a :=
    if String.eqb (Pod.NodeName pod) (Cluster.GetLocalNodeName (cluster a))
    then called (called a (Podman.CallStop (Pod.ID pod)))
                (Podman.CallRemove (Pod.ID pod))
    else a in
  withScheduler a (Scheduler.RemovePod (scheduler a) (Pod.ID pod)).

(** The loop of the service branch: a panic of [DeregisterService] ends
    it. *)
Fixpoint deregisterPods (svc : Service.t) (pods : list Pod.t) (a : t)
    : outcome unit * t :=
  match pods with
  | [] => (Returned tt, a)
  | pod :: rest =>
      if Scheduler.matchesSelector (Pod.Labels pod) (Service.Selector svc) then
        match Discovery.DeregisterService now encryptor (discovery a) svc pod with
        | (Returned _, d) => deregisterPods svc rest (withDiscovery a d)
        | (Panicked what, d) => (Panicked what, withDiscovery a d)
        end
      else deregisterPods svc rest a
  end.

(** The ingress branch of [DeleteManifest]. *)
Definition deleteIngress (a : t) (namespace name : string) : t :=
  match ingresses a !! nsKey namespace name with
  | Some _ =>
      let a := withIngress a (IngressController.RemoveIngress (ingress a) namespace name) in
      withIngresses a (delete (nsKey namespace name) (ingresses a))
  | None => a
  end.

(** [DeleteManifest]: the three caches of the API are tried in turn.
    The handler runs under [gin.Recovery], so after a panic the agent
    goes on with the API as the panic left it: the deployment branch
    done, the service still in the cache, the ingress branch not
    reached. *)
Definition DeleteManifest (a : t) (namespace name : string) : outcome unit * t :=
  let key := nsKey namespace name in
  let a :=
    match deployments a !! key with
    | Some dep =>
        let a := foldl deletePod a (Deployment.Pods dep) in
        withDeployments a (delete key (deployments a))
    | None => a
    end in
  match services a !! key with
  | Some svc =>
      match deregisterPods svc (Scheduler.GetAllPods (scheduler a)) a with
      | (Returned _, a) =>
          (Returned tt,
           deleteIngress (withServices a (delete key (services a))) namespace name)
      | (Panicked what, a) => (Panicked what, a)
      end
  | None => (Returned tt, deleteIngress a namespace name)
  end.

End World.

End Api.

(* ================================================================== *)
(** ** internal/api: the authentication middleware *)
(* ================================================================== *)
Module Middleware.
Import GoStrings.

(** What the handler does with a request: hand it on ([c.Next]) or
    answer it ([c.JSON] and [c.Abort]). *)
Inductive Verdict : Type :=
| Next
| Abort (status : Z) (error : string).

(** The token of an [Authorization] header: what follows [Bearer ], or
    the header as it is. *)
Definition tokenOf (authHeader : string) : string :=
  if HasPrefix authHeader "Bearer " then TrimPrefix authHeader "Bearer "
  else authHeader.

(** The handler [AuthMiddleware] returns, on a request with the given
    path and [Authorization] header (empty when the header is absent). *)
Definition AuthMiddleware (tokenManager : ApiTokens.APITokenManager) (enabled : bool)
    (now : Z) (path authHeader : string) : Verdict :=
  if negb enabled then Next
  else if String.eqb path "/api/v1/health" then Next
  else if String.eqb authHeader EmptyString
       then Abort 401 "Missing Authorization header"
  else if negb (ApiTokens.ValidateToken now tokenManager (tokenOf authHeader))
       then Abort 401 "Invalid or expired token"
  else Next.

End Middleware.

(* ================================================================== *)
(** ** internal/api: the whitelist endpoints *)
(* ================================================================== *)
Module DnsApi.
Import Dns.

(** [AddDNSWhitelistHost] on a request that binds to [host], with a DNS
    server present: the status answered and the server afterwards. *)
Definition AddDNSWhitelistHost (s : Server) (host : string) : Z * Server :=
  if String.eqb host EmptyString then (400, s)
  else
    let '(enabled, hosts) := GetWhitelist s in
    let hosts := if existsb (fun h => String.eqb h host) hosts then hosts
                 else hosts ++ [host] in
    (200, SetWhitelist s enabled hosts).

(** [RemoveDNSWhitelistHost]. *)
Definition RemoveDNSWhitelistHost (s : Server) (host : string) : Z * Server :=
  if String.eqb host EmptyString then (400, s)
  else
    let '(enabled, hosts) := GetWhitelist s in
    let newHosts := List.filter (fun h => negb (String.eqb h host)) hosts in
    (200, SetWhitelist s enabled newHosts).

End DnsApi.

(* ================================================================== *)
(** ** cmd/agent: the gossip receive handler *)
(* ================================================================== *)
Module Agent.

(** The two components the handler feeds. *)
Record t : Type := mk {
  discovery : Discovery.t;
  storage : Storage.t
}.

(** The function given to [SetMessageHandler]: both component handlers
    see every message, their errors are dropped, and nil is returned.
    Nothing recovers a panic of either handler. *)
Definition messageHandler
    (unmarshalSync : option Json.value -> result Storage.StateSyncMessage)
    (now : Z) (io : Storage.IO) (st : t) (msg : option Json.value)
    : outcome (result unit * t) :=
  match Discovery.HandleServiceUpdate now (discovery st) msg with
  | Panicked what => Panicked what
  | Returned (_, d) =>
      match Storage.HandleStateSyncMessage unmarshalSync now io (storage st) msg with
      | (Returned _, s) => Returned (Ok tt, mk d s)
      | (Panicked what, _) => Panicked what
      end
  end.

End Agent.

(* ================================================================== *)
(** ** Concrete configurations used by the examples *)
(* ================================================================== *)
Module Examples.
Import Discovery Dns.

(** A record parser that accepts every line. *)
Definition acceptAll (rr : RR) : bool := true.

Definition endpoint (pod address : string) (port : Z) : ServiceEndpoint :=
  mkEndpoint "postgres" "default" pod pod "node-1" address port true 0.

(** Service [postgres] in namespace [default] with two endpoints. *)
Definition registry : Discovery.t :=
  Discovery.mk
    {[ "postgres.default" :=
         {[ "default-postgres-p1" := endpoint "p1" "10.0.1.1" 5432;
            "default-postgres-p2" := endpoint "p2" "10.0.1.2" 5433 ]} ]}
    [].

Definition server : Server :=
  mkServer registry "cluster.local" ["8.8.8.8:53"; "8.8.4.4:53"]
           (mkWhitelist false ∅).

Definition emptyReply : Msg := mkMsg [] [] [] RcodeSuccess true.

(** The instant of the queries: one second after the endpoints were
    last seen. *)
Definition queryTime : Z := Second.

Definition answerA (name : string) : Msg :=
  handleAQuery acceptAll queryTime server emptyReply (mkQuestion name TypeA).

Definition answerSRV (name : string) : Msg :=
  handleSRVQuery acceptAll queryTime server emptyReply (mkQuestion name TypeSRV).

(** A whitelist holding [example.com], a network whose first upstream
    answers with a CNAME to [cdn.evil.net] and whose second upstream is
    unreachable on both transports. *)
Definition guarded : Server := SetWhitelist server true ["example.com"].

Definition query (name : string) : Msg :=
  mkMsg [mkQuestion name TypeA] [] [] RcodeSuccess false.

Definition poisoned : Msg :=
  mkMsg [mkQuestion "www.example.com." TypeA]
        [RR_CNAME "www.example.com." 300 "cdn.evil.net.";
         RR_A "cdn.evil.net." 300 "203.0.113.7"]
        [] RcodeSuccess false.

Definition network (c : Contact) (r : Msg) : Exchange :=
  if String.eqb (contactUpstream c) "8.8.8.8:53"
  then ExchangeResp (Some poisoned)
  else ExchangeErr.

(** An injective stand-in for SHA-256, and a manager that generated one
    token from the bytes [token]. *)
Definition plainSum (bytes : string) : string := bytes.

Definition freshManager : Security.TokenManager :=
  Security.mkTokenManager ∅ "test-secret".

Definition seededManager : Security.TokenManager :=
  snd (Security.GenerateToken plainSum 0 "dG9rZW4=" "token" freshManager).

(** A store holding deployment [default/local] and pod [default/web-0],
    last modified at instant 10, and a snapshot of instant 20 with
    deployment [default/remote] and a later record of the pod. *)
Definition deploymentNamed (name : string) : Deployment.t :=
  Deployment.mk name "default" 1 1 [] (Template.mk ∅ ∅ [] ∅) ∅ ∅.

Definition podCreated (created : Z) : Pod.t :=
  Pod.mk "c0ffee" "web-0" "default" "node-1" PodStateRunning "nginx"
         ∅ ∅ [] [] [] ∅ created.

Definition localStore : Storage.t :=
  Storage.mk {[ "default/local" := Some (deploymentNamed "local") ]} ∅ ∅
             {[ "default/web-0" := Some (podCreated 5) ]} 10
             (Storage.mkDisk None None).

Definition incomingState : Storage.ClusterState :=
  Storage.mkState {[ "default/remote" := Some (deploymentNamed "remote") ]} ∅ ∅
                  {[ "default/web-0" := Some (podCreated 7) ]} 20 1.

(** The snapshot of a synchronisation message whose state reads
    [{"deployments": {"default/remote": {...}},
      "pods": {"default/web-0": null}, "last_modified": <instant 20>}]:
    the null decodes to a nil pod pointer.  [nullPodMessage] is such a
    message as the decoder delivers it, whatever the bytes. *)
Definition nullPodState : Storage.ClusterState :=
  Storage.mkState {[ "default/remote" := Some (deploymentNamed "remote") ]} ∅ ∅
                  {[ "default/web-0" := None ]} 20 1.

Definition nullPodMessage (data : option Json.value)
    : result Storage.StateSyncMessage :=
  Ok (Storage.mkSync "state_sync" (Some nullPodState) 20 "node-2").

Definition nullPodPayload : option Json.value :=
  Some (Json.JObj
          [("type", Json.JStr "state_sync");
           ("state",
            Json.JObj [("deployments",
                        Json.JObj [("default/remote",
                                    Json.JObj [("name", Json.JStr "remote");
                                               ("namespace", Json.JStr "default")])]);
                       ("pods", Json.JObj [("default/web-0", Json.JNull)]);
                       ("last_modified", Json.JStr "1970-01-01T00:00:00.00000002Z")]);
           ("node_name", Json.JStr "node-2")]).

(** A one-node cluster whose runtime works, and one whose runtime cannot
    create containers. *)
Definition oneNode : Cluster.t :=
  Cluster.mk {[ "node-1" := Node.mk "node-1" "10.0.0.1" "Ready" ∅ ]} "node-1".

Definition idOf (i : nat) : string := "id-" +:+ pretty i.
Definition clockOf (i : nat) : Z := 1700000000.
Definition firstNode (n : nat) : nat := 0%nat.

Definition workingRuntime : Podman.Client :=
  Podman.mkClient (fun pod => Ok ("ctr-" +:+ Pod.Name pod))
                  (fun _ => Ok tt) (fun _ => Ok tt) (fun _ => Ok tt)
                  (fun _ => PodStateRunning).

Definition brokenRuntime : Podman.Client :=
  Podman.mkClient (fun _ => Err "no such image")
                  (fun _ => Ok tt) (fun _ => Ok tt) (fun _ => Ok tt)
                  (fun _ => PodStateUnknown).

Definition emptyStore : Storage.t :=
  Storage.mk ∅ ∅ ∅ ∅ 0 (Storage.mkDisk None None).

Definition apiOver (store : Storage.t) : Api.t :=
  Api.mk (Scheduler.mk ∅) oneNode (Discovery.mk ∅ []) (IngressController.mk ∅)
         store ∅ ∅ ∅ [].

Definition web : Parser.K8sDeployment :=
  Parser.mkK8sDeployment "web" "default" 2
    (Template.mk {[ "app" := "web" ]} ∅ [Template.mkContainer "nginx" [] [] []] ∅)
    ∅ {[ "app" := "web" ]}.

(** What [ParseDeployment] reads from [web], and the names of the pods
    the runtime was asked to create. *)
Definition webParsed : Deployment.t :=
  Deployment.mk "web" "default" 2 2 []
    (Template.mk {[ "app" := "web" ]} ∅ [Template.mkContainer "nginx" [] [] []] ∅)
    ∅ {[ "app" := "web" ]}.

Definition createsOf (calls : list Podman.Call) : list string :=
  flat_map (fun call => match call with
                        | Podman.CallCreate pod => [Pod.Name pod]
                        | _ => []
                        end) calls.

(** An agent restarted on a data directory whose [state.json] holds the
    deployment [default/nginx]: the store after [Load], the API after
    [RecoverDeployments], and the API after the delete of that
    deployment. *)
Definition nginx : Deployment.t :=
  Deployment.mk "nginx" "default" 1 1 []
    (Template.mk {[ "app" := "nginx" ]} ∅ [Template.mkContainer "nginx" [] [] []] ∅)
    ∅ {[ "app" := "nginx" ]}.

Definition savedState : Storage.ClusterState :=
  Storage.mkState {[ "default/nginx" := Some nginx ]} ∅ ∅ ∅ 50 1.

Definition loadedStore : Storage.t :=
  Storage.Load (Storage.mk ∅ ∅ ∅ ∅ 0 (Storage.mkDisk (Some savedState) None)).

(** An encryptor that seals every message, and one whose random source
    fails. *)
Definition sealing : option (Discovery.Update -> result unit) :=
  Some (fun _ => Ok tt).

Definition noEntropy : option (Discovery.Update -> result unit) :=
  Some (fun _ => Err "failed to generate nonce").

Definition recovered : Api.t :=
  snd (Api.RecoverDeployments idOf clockOf firstNode workingRuntime 60
         Storage.IOSuccess sealing (apiOver loadedStore)).

Definition afterDelete : Api.t :=
  snd (Api.DeleteManifest 70 sealing recovered "default" "nginx").

(** Gossip payloads: a [service_update] without its fields, and one whose
    port is a string. *)
Definition bareUpdate : option Json.value :=
  Some (Json.JObj [("type", Json.JStr "service_update")]).

Definition textPortUpdate : option Json.value :=
  Some (Json.JObj [("type", Json.JStr "service_update");
                   ("action", Json.JStr "register");
                   ("serviceName", Json.JStr "postgres");
                   ("namespace", Json.JStr "default");
                   ("podID", Json.JStr "p3");
                   ("podName", Json.JStr "p3");
                   ("nodeName", Json.JStr "node-2");
                   ("address", Json.JStr "10.0.1.3");
                   ("port", Json.JStr "5432");
                   ("healthy", Json.JBool true);
                   ("timestamp", Json.JNum 1700000000)]).

(** The service behind [registry], a pod of it on [node-1], and the
    client a registration of that pod at instant 0 leaves, starting from
    an empty registry. *)
Definition postgres : Service.t :=
  Service.mk "postgres" "default" "ClusterIP" {[ "app" := "postgres" ]}
             [mkServicePort "pg" 5432 5432 "TCP"] "" ∅.

Definition postgresPod : Pod.t :=
  Pod.mk "p1" "postgres-0" "default" "node-1" PodStateRunning "postgres"
         {[ "app" := "postgres" ]} ∅ [] [] [] ∅ 0.

Definition announced : Discovery.t :=
  snd (RegisterService 0 sealing oneNode (Discovery.mk ∅ []) postgres postgresPod).


(** The seeded manager after a second token, generated from the bytes
    [swarm]. *)
Definition twoTokens : Security.TokenManager :=
  snd (Security.GenerateToken plainSum 0 "c3dhcm0=" "swarm" seededManager).

(** An API token manager with a token that expires at instant 5 and one
    that does not expire. *)
Definition apiTokens : ApiTokens.APITokenManager :=
  snd (ApiTokens.GenerateToken plainSum 0 "c3dhcm0=" "swarm" "ops" None
         (snd (ApiTokens.GenerateToken plainSum 0 "dG9rZW4=" "token" "ci"
                 (Some 5) (ApiTokens.mkManager ∅ ∅ "test-secret")))).

End Examples.

(* ================================================================== *)
(** ** Notions the statements below are phrased with *)
(* ================================================================== *)
Module DnsSpec.
Import Discovery Dns.

(** A name matches when it is stored as it is or followed by a dot. *)
Definition stored (w : DNSWhitelist) (d : string) : Prop :=
  d ∈ Hosts w \/ d +:+ "." ∈ Hosts w.

(** The priorities the record loop hands out when every record parses:
    [n] of them, from loop index [i] on, starting with [priority]. *)
Fixpoint prioritiesFrom (i : nat) (priority : Z) (n : nat) : list Z :=
  match n with
  | O => []
  | S n' =>
      priority
        :: prioritiesFrom (S i)
             (if (0 <? i)%nat then (priority + 10) mod 65536 else priority) n'
  end.

Definition srvRecord (qname target : string) (port priority : Z) : RR :=
  RR_SRV qname 60 priority 10 port target.

Definition glueRecord (target : string) (e : ServiceEndpoint) : RR :=
  RR_A target 60 (Address e).

(** The name [forwardQuery] checks: that of the first question. *)
Definition queryNameOf (r : Msg) : string :=
  match Questions r with
  | q :: _ => qName q
  | [] => EmptyString
  end.

Definition viaUDP (upstream : string) : Contact := mkContact UDP (5 * Second) upstream.
Definition viaTCP (upstream : string) : Contact := mkContact TCP (5 * Second) upstream.

Section Upstreams.

Variable exchange : Contact -> Msg -> Exchange.

(** Trying an upstream: UDP with a 5 s timeout and, when that errs, TCP. *)
Definition contactsOf (r : Msg) (upstream : string) : list Contact :=
  match exchange (viaUDP upstream) r with
  | ExchangeErr => [viaUDP upstream; viaTCP upstream]
  | ExchangeResp _ => [viaUDP upstream]
  end.

(** The response an upstream delivers, if any. *)
Definition responseOf (r : Msg) (upstream : string) : option Msg :=
  match exchange (viaUDP upstream) r with
  | ExchangeResp resp => resp
  | ExchangeErr =>
      match exchange (viaTCP upstream) r with
      | ExchangeResp resp => resp
      | ExchangeErr => None
      end
  end.

(** A response is usable when it is a success that passes the CNAME
    check of an enabled whitelist. *)
Definition usable (s : Server) (resp : Msg) : Prop :=
  MsgRcode resp = RcodeSuccess
  /\ (isWhitelistEnabled s = true -> validateCNAMERecords s resp = true).

(** An upstream has failed when it delivers nothing usable. *)
Definition failed (s : Server) (r : Msg) (upstream : string) : Prop :=
  match responseOf r upstream with
  | Some resp => ~ usable s resp
  | None => True
  end.

End Upstreams.

End DnsSpec.

Module TokenSpec.
Import Security.

(** A token with an expiry instant in the past. *)
Definition expired (now : Z) (t : Token) : Prop :=
  match ExpiresAt t with
  | Some expires => expires < now
  | None => False
  end.

(** The bytes, combined with the secret, reproduce a stored hash. *)
Definition knownHash (Sum256 : string -> string) (tm : TokenManager)
    (tokenBytes : string) : Prop :=
  exists key t, tokens tm !! key = Some t
                /\ Hash t = hashStr Sum256 (secret tm) tokenBytes.

End TokenSpec.

Module MergeSpec.
Import Storage.

(** Last writer wins: the incoming entry where there is one, else the
    local one. *)
Definition preferIncoming {A} (incoming local : option A) : option A :=
  match incoming with
  | Some x => Some x
  | None => local
  end.

(** A pod key at which there is no created_at to compare: the store has
    an entry under the key, and that entry or the incoming one is a nil
    pointer. *)
Definition nilClash (incoming local : option (option Pod.t)) : Prop :=
  match incoming, local with
  | Some None, Some _ => True
  | Some (Some _), Some None => True
  | _, _ => False
  end.

(** Per-record precedence of pods: of two records the one created later,
    the local one on a tie; an incoming entry under a new key is taken as
    it is. *)
Definition laterPod (incoming local : option (option Pod.t))
    : option (option Pod.t) :=
  match incoming, local with
  | Some (Some pod), Some (Some existing) =>
      if Pod.CreatedAt existing <? Pod.CreatedAt pod then incoming else local
  | Some _, None => incoming
  | _, _ => local
  end.

(** A pod map without nil pointers. *)
Definition noNilPods (m : gmap string (option Pod.t)) : Prop :=
  forall k, m !! k <> Some None.

(** Every key of the four entity maps of [s] is a key of [s']. *)
Definition keepsKeys (s s' : Storage.t) : Prop :=
  dom (deployments s) ⊆ dom (deployments s')
  /\ dom (services s) ⊆ dom (services s')
  /\ dom (ingresses s) ⊆ dom (ingresses s')
  /\ dom (pods s) ⊆ dom (pods s').

End MergeSpec.

Module RegistrySpec.
Import Discovery.

Definition populated (d : Discovery.t) : Prop :=
  forall key endpoints, services d !! key = Some endpoints -> endpoints <> ∅.

Definition seenAt (now : Z) (e : ServiceEndpoint) : ServiceEndpoint :=
  mkEndpoint (ServiceName e) (Namespace e) (PodID e) (PodName e) (NodeName e)
             (Address e) (Port e) (Healthy e) now.

(** Every endpoint sits under the service key and the endpoint ID its
    own fields spell. *)
Definition wellKeyed (d : Discovery.t) : Prop :=
  forall key endpoints id e,
    services d !! key = Some endpoints -> endpoints !! id = Some e ->
    key = serviceKey (ServiceName e) (Namespace e)
    /\ id = endpointID (Namespace e) (ServiceName e) (PodID e).

(** The pod of the service has an endpoint in the registry. *)
Definition registered (d : Discovery.t) (service : Service.t) (pod : Pod.t) : Prop :=
  exists endpoints,
    services d !! serviceKey (Service.Name service) (Service.Namespace service)
    = Some endpoints
    /\ is_Some (endpoints !! endpointID (Service.Namespace service)
                                        (Service.Name service) (Pod.ID pod)).

(** An encryptor is configured and fails on the update: the one case in
    which a broadcast of the update returns. *)
Definition encryptionFails (encryptor : option (Update -> result unit))
    (u : Update) : bool :=
  match encryptor with
  | Some Encrypt => negb (is_ok (Encrypt u))
  | None => false
  end.

End RegistrySpec.

Module WhitelistSpec.
Import GoStrings Dns.

(** A list of hosts none of which ends in two dots. *)
Definition wellFormed (hosts : list string) : Prop :=
  forall h, h ∈ hosts -> HasSuffix (normalizeHost h) "." = false.

End WhitelistSpec.

(* ================================================================== *)
(** * Properties *)
(* ================================================================== *)

(** ** Facts about the string functions *)
Module GoStringsFacts.

Lemma SplitDot_nonempty (s : string) : SplitDot s <> [].
Proof.
  destruct s as [|c s]; simpl; [discriminate|].
  destruct (Ascii.eqb c "."); [discriminate|].
  destruct (SplitDot s); discriminate.
Qed.

Lemma JoinDot_cons2 (p q : string) (l : list string) :
  JoinDot (p :: q :: l) = p +:+ "." +:+ JoinDot (q :: l).
Proof. reflexivity. Qed.

Lemma JoinDot_String (c : ascii) (p : string) (l : list string) :
  JoinDot (String c p :: l) = String c (JoinDot (p :: l)).
Proof. destruct l; reflexivity. Qed.

(** Joining the labels gives the name back. *)
Lemma JoinDot_SplitDot (s : string) : JoinDot (SplitDot s) = s.
Proof.
  induction s as [|c s IH]; [reflexivity|].
  simpl. destruct (Ascii.eqb c ".") eqn:E.
  - apply Ascii.eqb_eq in E. subst c.
    pose proof (SplitDot_nonempty s) as Hne.
    destruct (SplitDot s) as [|p ps] eqn:Es; [contradiction|].
    rewrite JoinDot_cons2, IH. reflexivity.
  - pose proof (SplitDot_nonempty s) as Hne.
    destruct (SplitDot s) as [|p ps] eqn:Es; [contradiction|].
    rewrite JoinDot_String, IH. reflexivity.
Qed.

Lemma append_String (x : ascii) (a b : string) :
  String x a +:+ b = String x (a +:+ b).
Proof. reflexivity. Qed.

Lemma append_empty_l (b : string) : "" +:+ b = b.
Proof. reflexivity. Qed.

Lemma append_assoc (a b c : string) : (a +:+ b) +:+ c = a +:+ (b +:+ c).
Proof.
  induction a as [|x a IH]; [reflexivity|].
  by rewrite !append_String, IH.
Qed.

Lemma length_append (a b : string) :
  String.length (a +:+ b) = (String.length a + String.length b)%nat.
Proof.
  induction a as [|x a IH]; [reflexivity|].
  rewrite append_String. simpl. by rewrite IH.
Qed.

Lemma append_inj_r (a b c : string) : a +:+ c = b +:+ c -> a = b.
Proof.
  revert b. induction a as [|x a IH]; intros [|y b] H.
  - reflexivity.
  - apply (f_equal String.length) in H. rewrite !length_append in H. simpl in H. lia.
  - apply (f_equal String.length) in H. rewrite !length_append in H. simpl in H. lia.
  - rewrite !append_String in H. injection H as -> H. f_equal. by apply IH.
Qed.

Lemma TrimSuffix_String (c : ascii) (s suffix : string) :
  TrimSuffix (String c s) suffix
  = if String.eqb (String c s) suffix then "" else String c (TrimSuffix s suffix).
Proof. reflexivity. Qed.

Lemma HasSuffix_String (c : ascii) (s suffix : string) :
  HasSuffix (String c s) suffix
  = if String.eqb (String c s) suffix then true else HasSuffix s suffix.
Proof. reflexivity. Qed.

(** [TrimSuffix] removes a suffix that is there ... *)
Lemma TrimSuffix_append (x suffix : string) : TrimSuffix (x +:+ suffix) suffix = x.
Proof.
  induction x as [|c x IH].
  - rewrite append_empty_l. destruct suffix as [|c suffix]; [reflexivity|].
    by rewrite TrimSuffix_String, String.eqb_refl.
  - rewrite append_String, TrimSuffix_String.
    destruct (String.eqb (String c (x +:+ suffix)) suffix) eqn:E.
    + apply String.eqb_eq in E. apply (f_equal String.length) in E.
      simpl in E. rewrite length_append in E. lia.
    + by rewrite IH.
Qed.

Lemma HasSuffix_true (s suffix : string) :
  HasSuffix s suffix = true -> exists x, s = x +:+ suffix.
Proof.
  induction s as [|c s IH].
  - destruct suffix; [by exists ""|discriminate].
  - rewrite HasSuffix_String.
    destruct (String.eqb (String c s) suffix) eqn:E.
    + apply String.eqb_eq in E. intros _. exists "". by rewrite E.
    + intros H. destruct (IH H) as [x ->]. by exists (String c x).
Qed.

Lemma HasSuffix_append (x suffix : string) : HasSuffix (x +:+ suffix) suffix = true.
Proof.
  induction x as [|c x IH].
  - rewrite append_empty_l. destruct suffix as [|c suffix]; [reflexivity|].
    by rewrite HasSuffix_String, String.eqb_refl.
  - rewrite append_String, HasSuffix_String, IH. by destruct (String.eqb _ _).
Qed.

(** ... and leaves a string without that suffix alone. *)
Lemma TrimSuffix_without (s suffix : string) :
  HasSuffix s suffix = false -> TrimSuffix s suffix = s.
Proof.
  induction s as [|c s IH].
  - by destruct suffix.
  - rewrite HasSuffix_String, TrimSuffix_String.
    destruct (String.eqb (String c s) suffix) eqn:E; [discriminate|].
    intros H. by rewrite IH.
Qed.

Lemma lastByte_append (a b : string) : b <> "" -> lastByte (a +:+ b) = lastByte b.
Proof.
  intros Hb. induction a as [|c a IH]; [reflexivity|].
  rewrite append_String. simpl.
  destruct (a +:+ b) eqn:E; [|exact IH].
  destruct a; [rewrite append_empty_l in E; contradiction|].
  rewrite append_String in E. discriminate.
Qed.

(** Splitting distributes over a separating dot. *)
Lemma SplitDot_append (a b : string) :
  SplitDot (a +:+ "." +:+ b) = SplitDot a ++ SplitDot b.
Proof.
  induction a as [|c a IH]; [reflexivity|].
  rewrite append_String. simpl.
  destruct (Ascii.eqb c "."); [by rewrite IH|].
  rewrite IH. pose proof (SplitDot_nonempty a).
  by destruct (SplitDot a).
Qed.

Lemma lower_ascii_idem (c : ascii) : lower_ascii (lower_ascii c) = lower_ascii c.
Proof.
  destruct c as [[] [] [] [] [] [] [] []]; vm_compute; reflexivity.
Qed.

Lemma ToLower_idem (s : string) : ToLower (ToLower s) = ToLower s.
Proof.
  induction s as [|c s IH]; [reflexivity|].
  cbn [ToLower]. by rewrite lower_ascii_idem, IH.
Qed.

Lemma ToLower_append (a b : string) : ToLower (a +:+ b) = ToLower a +:+ ToLower b.
Proof.
  induction a as [|c a IH]; [reflexivity|].
  rewrite append_String. cbn [ToLower]. by rewrite IH, append_String.
Qed.

Lemma length_ToLower (s : string) : String.length (ToLower s) = String.length s.
Proof. induction s as [|c s IH]; [reflexivity|]. cbn. by rewrite IH. Qed.

Lemma append_inj_length (a b c d : string) :
  String.length a = String.length b -> a +:+ c = b +:+ d -> c = d.
Proof.
  revert b. induction a as [|x a IH]; intros [|y b] Hlen H; try discriminate Hlen.
  - exact H.
  - rewrite !append_String in H. injection H as _ H.
    apply (IH b); [by injection Hlen|exact H].
Qed.

(** Lower-cased text that ends in a suffix ends in a lower-case suffix. *)
Lemma lowercase_suffix (name x suffix : string) :
  ToLower name = x +:+ suffix -> ToLower suffix = suffix.
Proof.
  intros H. pose proof (ToLower_idem name) as Hidem.
  rewrite H, ToLower_append in Hidem.
  apply (append_inj_length (ToLower x) x); [apply length_ToLower|exact Hidem].
Qed.

End GoStringsFacts.

(** ** The cluster name grammar *)
Module DnsNames.
Import Discovery Dns Examples.

(** C1.  The plain form and the Kubernetes form of one service name do
    not resolve alike: with zone [cluster.local] and two fresh endpoints
    of [postgres] in [default], the A query for
    [postgres.default.cluster.local.] is answered with both addresses,
    while the A query for [postgres.default.svc.cluster.local.] is
    answered with none.  [parseServiceName] strips the bare zone first,
    so the second strip finds nothing and the name is read as service
    [postgres.default] in namespace [svc]. *)
Theorem k8s_form_resolves_differently :
  parseServiceName server "postgres.default.cluster.local."
    = Ok ("postgres", "default")
  /\ parseServiceName server "postgres.default.svc.cluster.local."
    = Ok ("postgres.default", "svc")
  /\ Answer (answerA "postgres.default.cluster.local.")
    = [RR_A "postgres.default.cluster.local." 60 "10.0.1.1";
       RR_A "postgres.default.cluster.local." 60 "10.0.1.2"]
  /\ Answer (answerA "postgres.default.svc.cluster.local.") = [].
Proof. repeat split; vm_compute; reflexivity. Qed.

(** The misparse does not depend on the service: in the default zone
    every name of the Kubernetes form [<x>.svc.cluster.local.] is read as
    the service [<x>] (dots included) in the namespace [svc]. *)
Lemma k8s_form_namespace_is_svc (s : Server) (x : string) :
  clusterDomain s = "cluster.local" ->
  parseServiceName s (x +:+ ".svc.cluster.local.") = Ok (x, "svc").
Proof.
  intros Hz. unfold parseServiceName. rewrite Hz.
  replace (x +:+ ".svc.cluster.local.")
    with (((x +:+ ".svc") +:+ ".cluster.local") +:+ ".")
    by (by rewrite !GoStringsFacts.append_assoc).
  rewrite GoStringsFacts.TrimSuffix_append.
  change ("." +:+ "cluster.local") with ".cluster.local".
  rewrite GoStringsFacts.TrimSuffix_append.
  rewrite GoStringsFacts.TrimSuffix_without.
  - change (x +:+ ".svc") with (x +:+ "." +:+ "svc").
    rewrite GoStringsFacts.SplitDot_append. simpl SplitDot.
    rewrite length_app, last_last, removelast_last, GoStringsFacts.JoinDot_SplitDot.
    pose proof (GoStringsFacts.SplitDot_nonempty x).
    destruct (SplitDot x); [contradiction|]. simpl.
    by rewrite Nat.add_comm.
  - apply not_true_is_false. intros H.
    apply GoStringsFacts.HasSuffix_true in H as [y Hy].
    apply (f_equal lastByte) in Hy.
    rewrite !GoStringsFacts.lastByte_append in Hy by discriminate.
    discriminate.
Qed.

End DnsNames.

(** ** The whitelist *)
Module Whitelist.
Import Dns DnsSpec Examples GoStringsFacts.

Lemma hostsHas_stored (w : DNSWhitelist) (d : string) :
  hostsHas w d || hostsHas w (d +:+ ".") = true <-> stored w d.
Proof.
  unfold hostsHas, stored.
  rewrite orb_true_iff, !bool_decide_eq_true. reflexivity.
Qed.

(** The loop of [isHostAllowed] finds a match exactly when some suffix
    of the labels is stored. *)
Lemma suffix_loop (w : DNSWhitelist) (parts : list string) :
  existsb (fun i => hostsHas w (JoinDot (drop i parts))
                    || hostsHas w (JoinDot (drop i parts) +:+ "."))
          (seq 0 (length parts)) = true
  <-> exists i, (i < length parts)%nat /\ stored w (JoinDot (drop i parts)).
Proof.
  rewrite existsb_exists. split.
  - intros (i & Hin & Hi). apply in_seq in Hin.
    exists i. split; [lia|]. by apply hostsHas_stored.
  - intros (i & Hlt & Hi). exists i. split.
    + apply in_seq. lia.
    + by apply hostsHas_stored.
Qed.

(** [isHostAllowed] on an enabled whitelist: the normalized name or one
    of its proper label suffixes matches. *)
Lemma isHostAllowed_iff (s : Server) (queryName : string) :
  let w := whitelist s in
  let n := normalizeHost queryName in
  isHostAllowed s queryName = true <->
    Enabled w = false
    \/ stored w n
    \/ exists i, (1 <= i < length (SplitDot n))%nat
                 /\ stored w (JoinDot (drop i (SplitDot n))).
Proof.
  intros w n. unfold isHostAllowed. fold w. fold n.
  destruct (Enabled w) eqn:En; simpl; [|intuition].
  destruct (hostsHas w n || hostsHas w (n +:+ ".")) eqn:E0.
  - apply hostsHas_stored in E0. intuition.
  - rewrite suffix_loop. split.
    + intros (i & Hlt & Hi). right.
      destruct i as [|i].
      * left. rewrite drop_0, JoinDot_SplitDot in Hi. exact Hi.
      * right. exists (S i). split; [lia|exact Hi].
    + intros [Hd|[Hn|(i & Hlt & Hi)]]; [discriminate| |].
      * apply hostsHas_stored in Hn. congruence.
      * exists i. split; [lia|exact Hi].
Qed.

(** C6, as amended.  With the whitelist enabled a name is allowed
    exactly when its normalized form (trailing dot stripped,
    lowercased), or what is left of it after stripping one or more
    leading labels, is a stored entry either as it is or followed by a
    dot.  An enabled whitelist with no entry blocks every name, and a
    disabled whitelist allows every name. *)
Theorem isHostAllowed_spec (s : Server) (queryName : string) :
  let w := whitelist s in
  let n := normalizeHost queryName in
  (isHostAllowed s queryName = true <->
     Enabled w = false
     \/ stored w n
     \/ exists i, (1 <= i < length (SplitDot n))%nat
                  /\ stored w (JoinDot (drop i (SplitDot n))))
  /\ (Enabled w = true -> Hosts w = ∅ -> isHostAllowed s queryName = false)
  /\ (Enabled w = false -> isHostAllowed s queryName = true).
Proof.
  intros w n. pose proof (isHostAllowed_iff s queryName) as Hmain.
  cbv zeta in Hmain. fold w n in Hmain.
  split; [exact Hmain|]. split.
  - intros En Hemp. apply not_true_is_false. intros E.
    apply Hmain in E. unfold stored in E. rewrite Hemp in E.
    destruct E as [E|[[E|E]|(i & _ & [E|E])]];
      try congruence; by apply not_elem_of_empty in E.
  - intros En. apply Hmain. by left.
Qed.

(** The amended statement at work: [www.Example.COM.] among the entries
    of [example.com], and an enabled empty whitelist. *)
Lemma isHostAllowed_spec_witness :
  isHostAllowed (SetWhitelist server true ["example.com"]) "www.Example.COM." = true
  /\ isHostAllowed (SetWhitelist server true []) "example.com." = false
  /\ isHostAllowed server "example.com." = true.
Proof.
  pose proof (isHostAllowed_spec (SetWhitelist server true ["example.com"])
                "www.Example.COM.") as (H1 & _ & _).
  pose proof (isHostAllowed_spec (SetWhitelist server true []) "example.com.")
    as (_ & H2 & _).
  pose proof (isHostAllowed_spec server "example.com.") as (_ & _ & H3).
  split; [|split].
  - apply H1. right. right. exists 1%nat.
    split; [vm_compute; lia|]. left.
    apply (bool_decide_unpack _). vm_compute. exact I.
  - apply H2; reflexivity.
  - apply H3; reflexivity.
Defined.

(** What [SetWhitelist] stores: every host normalized, with and without a
    trailing dot. *)
Lemma SetWhitelist_hosts (s : Server) (enabled : bool) (hosts : list string)
    (d : string) :
  d ∈ Hosts (whitelist (SetWhitelist s enabled hosts))
  <-> exists h, h ∈ hosts
                /\ (d = normalizeHost h \/ d = normalizeHost h +:+ ".").
Proof.
  unfold SetWhitelist. simpl.
  assert (Hgen : forall acc : gset string,
    d ∈ foldl (fun (acc : gset string) host =>
                 {[ normalizeHost host +:+ "." ]} ∪ ({[ normalizeHost host ]} ∪ acc))
              acc hosts
    <-> d ∈ acc \/ exists h, h ∈ hosts
                             /\ (d = normalizeHost h \/ d = normalizeHost h +:+ ".")).
  { induction hosts as [|h hosts IH]; intros acc; simpl.
    - split; [auto|]. intros [H|(h & Hh & _)]; [exact H|]. by apply elem_of_nil in Hh.
    - rewrite IH. rewrite !elem_of_union, !elem_of_singleton. split.
      + intros [[Hd|[Hd|Hd]]|(h' & Hh' & Hd)].
        * right. exists h. split; [left|]; auto.
        * right. exists h. split; [left|]; auto.
        * by left.
        * right. exists h'. split; [by right|exact Hd].
      + intros [Hd|(h' & Hh' & Hd)].
        * left. auto.
        * apply elem_of_cons in Hh' as [->|Hh'].
          -- left. destruct Hd; auto.
          -- right. exists h'. auto. }
  rewrite Hgen. split.
  - intros [H|H]; [by apply not_elem_of_empty in H|exact H].
  - auto.
Qed.

(** When no normalized host ends with a dot (no host was given with two
    trailing dots), the second lookup of every candidate is redundant, and
    a name is allowed exactly when it or one of its label suffixes is a
    stored entry. *)
Lemma exact_entries_suffice (s : Server) (hosts : list string) (queryName : string) :
  (forall h, h ∈ hosts -> HasSuffix (normalizeHost h) "." = false) ->
  let s' := SetWhitelist s true hosts in
  let n := normalizeHost queryName in
  isHostAllowed s' queryName = true
  <-> n ∈ Hosts (whitelist s')
      \/ exists i, (1 <= i < length (SplitDot n))%nat
                   /\ JoinDot (drop i (SplitDot n)) ∈ Hosts (whitelist s').
Proof.
  intros Hwf s' n.
  assert (Hst : forall d, stored (whitelist s') d <-> d ∈ Hosts (whitelist s')).
  { intros d. unfold stored. split; [|auto].
    intros [H|H]; [exact H|].
    apply SetWhitelist_hosts in H as (h & Hh & [Hd|Hd]).
    - specialize (Hwf h Hh). rewrite <- Hd, HasSuffix_append in Hwf. discriminate.
    - apply append_inj_r in Hd. apply SetWhitelist_hosts. exists h. auto. }
  pose proof (isHostAllowed_iff s' queryName) as Hspec.
  cbv zeta in Hspec. fold n in Hspec. rewrite Hspec. split.
  - intros [H|[H|(i & Hi & H)]]; [discriminate| |].
    + left. by apply Hst.
    + right. exists i. split; [exact Hi|by apply Hst].
  - intros [H|(i & Hi & H)].
    + right. left. by apply Hst.
    + right. right. exists i. split; [exact Hi|by apply Hst].
Qed.

(** C6 as stated fails: after [SetWhitelist(true, ["a.."])] the stored
    entries are [a.] and [a..]; the name [a] is allowed, although it is
    no stored entry and has no leading label to strip. *)
Lemma allowed_without_exact_entry :
  let s := SetWhitelist server true ["a.."] in
  let n := normalizeHost "a" in
  isHostAllowed s "a" = true
  /\ ~ (n ∈ Hosts (whitelist s)
        \/ exists i, (1 <= i < length (SplitDot n))%nat
                     /\ JoinDot (drop i (SplitDot n)) ∈ Hosts (whitelist s)).
Proof.
  intros s n. split; [reflexivity|].
  intros [H|(i & Hi & _)].
  - apply (bool_decide_pack _) in H. vm_compute in H. exact H.
  - vm_compute in Hi. lia.
Qed.

End Whitelist.

(** ** SRV answers *)
Module Srv.
Import Discovery Dns DnsSpec Examples.

Section Accepted.

Variable rr_accepts : RR -> bool.

(** The priorities the loop hands out stay within 16 bits. *)
Lemma prioritiesFrom_uint16 (n : nat) :
  forall (i : nat) (priority : Z),
    0 <= priority < 65536 ->
    Forall (fun p => 0 <= p < 65536) (prioritiesFrom i priority n).
Proof.
  induction n as [|n IH]; intros i priority Hp; simpl; constructor; [exact Hp|].
  apply IH. destruct (0 <? i)%nat; [|exact Hp].
  apply Z.mod_pos_bound. lia.
Qed.

(** The record loop, when the lines it formats parse: the SRV line of
    the query for every 16-bit priority, and the glue line of every
    endpoint. *)
Lemma srvLoop_accepted (qname target : string) (port : Z)
    (endpoints : list ServiceEndpoint) :
  (forall p, 0 <= p < 65536 -> rr_accepts (srvRecord qname target port p) = true) ->
  Forall (fun e => rr_accepts (glueRecord target e) = true) endpoints ->
  forall (i : nat) (priority : Z) (m : Msg),
    0 <= priority < 65536 ->
    let m' := srvLoop rr_accepts qname target port endpoints i priority m in
    Answer m' = Answer m ++ (srvRecord qname target port
                               <$> prioritiesFrom i priority (length endpoints))
    /\ Extra m' = Extra m ++ (glueRecord target <$> endpoints).
Proof.
  intros Hsrv Hglue.
  induction endpoints as [|e rest IH]; intros i priority m Hp; simpl.
  - by rewrite !app_nil_r.
  - apply Forall_cons in Hglue as [He Hrest].
    unfold NewRR.
    pose proof (Hsrv priority Hp) as Hs. unfold srvRecord in Hs. rewrite Hs.
    unfold glueRecord in He. rewrite He.
    assert (Hnext : 0 <= (if (0 <? i)%nat then (priority + 10) mod 65536 else priority)
                    < 65536).
    { destruct (0 <? i)%nat; [apply Z.mod_pos_bound; lia|exact Hp]. }
    destruct (IH Hrest (S i)
                 (if (0 <? i)%nat then (priority + 10) mod 65536 else priority)
                 (appendExtra (appendAnswer m (RR_SRV qname 60 priority 10 port target))
                              (RR_A target 60 (Address e))) Hnext) as [HA HE].
    split.
    + rewrite HA. simpl. by rewrite <- app_assoc.
    + rewrite HE. simpl. by rewrite <- app_assoc.
Qed.

End Accepted.

(** From the third record on the priority is ten times the loop index
    (as a [uint16]). *)
Lemma prioritiesFrom_positive (n : nat) :
  forall i : nat, (0 < i)%nat ->
    prioritiesFrom i ((10 * Z.of_nat i) mod 65536) n
    = (fun j : nat => (10 * Z.of_nat j) mod 65536) <$> seq i n.
Proof.
  induction n as [|n IH]; intros i Hi; [reflexivity|].
  simpl. destruct (0 <? i)%nat eqn:E; [|apply Nat.ltb_ge in E; lia].
  f_equal.
  replace (((10 * Z.of_nat i) mod 65536 + 10) mod 65536)
    with ((10 * Z.of_nat (S i)) mod 65536).
  - by apply IH; lia.
  - rewrite Zplus_mod_idemp_l. f_equal. lia.
Qed.

(** The priorities of an answer: 10 twice, then 20, 30, ... *)
Lemma priorities_of_answer (n : nat) :
  prioritiesFrom 0 10 (S (S n))
  = 10 :: 10 :: ((fun j : nat => (10 * Z.of_nat j) mod 65536) <$> seq 2 n).
Proof.
  simpl. do 2 f_equal.
  change ((10 + 10) mod 65536) with ((10 * Z.of_nat 2) mod 65536).
  by apply prioritiesFrom_positive; lia.
Qed.

Lemma length_prioritiesFrom (n : nat) :
  forall (i : nat) (priority : Z), length (prioritiesFrom i priority n) = n.
Proof.
  induction n as [|n IH]; intros i priority; simpl; [reflexivity|].
  by rewrite IH.
Qed.

(** C8, as amended.  When the query name parses, the registry knows the
    service and the DNS library accepts the record lines of the answer
    (the SRV line of the query with the answer's port and target, whatever
    its 16-bit priority, and the glue line of every endpoint), the answer
    gains one SRV record per fresh endpoint, the first of priority 10,
    each of weight 10 and TTL 60, each carrying the port of the first
    endpoint the registry returned and the target
    [<service>.<namespace>.<zone>.]; the Additional section gains one glue
    A record per endpoint, owned by the target and carrying that
    endpoint's address. *)
Theorem handleSRVQuery_records (rr_accepts : RR -> bool) (now : Z) (s : Server)
    (m : Msg) (q : Question) (portName protocol serviceName namespace : string)
    (endpoints : list ServiceEndpoint) :
  let target :=
    serviceName +:+ "." +:+ namespace +:+ "." +:+ clusterDomain s +:+ "." in
  let m' := handleSRVQuery rr_accepts now s m q in
  parseSRVName s (qName q) = Ok (portName, protocol, serviceName, namespace) ->
  GetServiceEndpoints now (discovery s) serviceName namespace = Ok endpoints ->
  (forall priority, 0 <= priority < 65536 ->
     rr_accepts (RR_SRV (qName q) 60 priority 10 (targetPortOf endpoints) target)
     = true) ->
  Forall (fun e => rr_accepts (RR_A target 60 (Address e)) = true) endpoints ->
  Forall (fun e => fresh now e = true) endpoints
  /\ exists priorities : list Z,
       length priorities = length endpoints
       /\ (endpoints <> [] -> head priorities = Some 10)
       /\ Answer m'
          = Answer m
            ++ ((fun priority =>
                   RR_SRV (qName q) 60 priority 10 (targetPortOf endpoints) target)
                <$> priorities)
       /\ Extra m' = Extra m ++ ((fun e => RR_A target 60 (Address e)) <$> endpoints).
Proof.
  intros target m' Hparse Hget Hsrv Hglue. split.
  - unfold GetServiceEndpoints in Hget.
    destruct (Discovery.services (discovery s) !! serviceKey serviceName namespace);
      [|discriminate].
    injection Hget as <-. apply Forall_forall. intros e He.
    apply list_elem_of_In, filter_In in He. tauto.
  - exists (prioritiesFrom 0 10 (length endpoints)).
    subst m'. unfold handleSRVQuery. rewrite Hparse, Hget.
    destruct (srvLoop_accepted rr_accepts (qName q) target
                (targetPortOf endpoints) endpoints Hsrv Hglue 0%nat 10 m
                ltac:(lia)) as [HA HE].
    split; [apply length_prioritiesFrom|].
    split.
    { destruct endpoints; [congruence|reflexivity]. }
    split; [exact HA|exact HE].
Qed.

(** The amended statement on the example registry, with a record parser
    that accepts the lines of this answer. *)
Lemma handleSRVQuery_records_witness :
  Answer (answerSRV "_pg._tcp.postgres.default.cluster.local.")
    = [RR_SRV "_pg._tcp.postgres.default.cluster.local." 60 10 10 5432
              "postgres.default.cluster.local.";
       RR_SRV "_pg._tcp.postgres.default.cluster.local." 60 10 10 5432
              "postgres.default.cluster.local."]
  /\ Extra (answerSRV "_pg._tcp.postgres.default.cluster.local.")
    = [RR_A "postgres.default.cluster.local." 60 "10.0.1.1";
       RR_A "postgres.default.cluster.local." 60 "10.0.1.2"].
Proof.
  destruct (handleSRVQuery_records acceptAll queryTime server emptyReply
              (mkQuestion "_pg._tcp.postgres.default.cluster.local." TypeSRV)
              "pg" "tcp" "postgres" "default"
              [endpoint "p1" "10.0.1.1" 5432; endpoint "p2" "10.0.1.2" 5433]
              eq_refl eq_refl (fun _ _ => eq_refl)
              ltac:(repeat constructor))
    as (_ & priorities & Hlen & Hhead & HA & HE).
  split; [|exact HE].
  destruct priorities as [|p0 [|p1 [|p2 rest]]]; try discriminate Hlen.
  assert (Hp0 : Some p0 = Some 10) by (apply Hhead; discriminate).
  injection Hp0 as ->.
  unfold answerSRV. rewrite HA. simpl.
  assert (Hsecond :
    Answer (answerSRV "_pg._tcp.postgres.default.cluster.local.") !! 1%nat
    = Some (RR_SRV "_pg._tcp.postgres.default.cluster.local." 60 10 10 5432
                   "postgres.default.cluster.local.")) by reflexivity.
  unfold answerSRV in Hsecond. rewrite HA in Hsecond. simpl in Hsecond.
  injection Hsecond as ->. reflexivity.
Defined.

(** C8 as stated fails on the example registry, whose two fresh endpoints
    have ports 5432 and 5433: both SRV records have priority 10 and port
    5432, where the claim has priorities 10 and 20 and each endpoint's own
    port. *)
Lemma srv_answer_not_as_claimed :
  GetServiceEndpoints queryTime registry "postgres" "default"
    = Ok [endpoint "p1" "10.0.1.1" 5432; endpoint "p2" "10.0.1.2" 5433]
  /\ Answer (answerSRV "_pg._tcp.postgres.default.cluster.local.")
    = [RR_SRV "_pg._tcp.postgres.default.cluster.local." 60 10 10 5432
              "postgres.default.cluster.local.";
       RR_SRV "_pg._tcp.postgres.default.cluster.local." 60 10 10 5432
              "postgres.default.cluster.local."]
  /\ Answer (answerSRV "_pg._tcp.postgres.default.cluster.local.")
    <> [RR_SRV "_pg._tcp.postgres.default.cluster.local." 60 10 10 5432
               "postgres.default.cluster.local.";
        RR_SRV "_pg._tcp.postgres.default.cluster.local." 60 20 10 5433
               "postgres.default.cluster.local."].
Proof. repeat split; vm_compute; congruence. Qed.

End Srv.

(** ** Forwarding *)
Module Forwarding.
Import Discovery Dns DnsSpec Examples.

Section Network.

Variable exchange : Contact -> Msg -> Exchange.

(** The loop body asks the upstream as [contactsOf] says and inspects
    what [responseOf] delivers. *)
Lemma tryUpstream_eq (s : Server) (r : Msg) (upstream : string) :
  tryUpstream exchange s r upstream
  = (inspect s (responseOf exchange r upstream), contactsOf exchange r upstream).
Proof.
  unfold tryUpstream, responseOf, contactsOf, viaUDP, viaTCP.
  destruct (exchange _ r); [|reflexivity].
  destruct (exchange _ r); reflexivity.
Qed.

Lemma inspect_Return (s : Server) (o : option Msg) (resp : Msg) :
  inspect s o = Return resp <-> o = Some resp /\ usable s resp.
Proof.
  unfold inspect, usable. destruct o as [m|]; [|split; [discriminate|intros [? _]; discriminate]].
  destruct (MsgRcode m) eqn:Hrc;
    try (split; [discriminate|intros [[= ->] [? _]]; congruence]).
  destruct (isWhitelistEnabled s) eqn:En; simpl.
  - destruct (validateCNAMERecords s m) eqn:Hv; simpl.
    + split; [intros [= ->]; auto|intros [[= ->] _]; reflexivity].
    + split; [discriminate|]. intros [[= ->] [_ H]].
      specialize (H eq_refl). congruence.
  - split; [intros [= ->]; split; [reflexivity|split; [exact Hrc|discriminate]]
           |intros [[= ->] _]; reflexivity].
Qed.

Lemma inspect_Continue (s : Server) (r : Msg) (upstream : string) :
  inspect s (responseOf exchange r upstream) = Continue
  <-> failed exchange s r upstream.
Proof.
  unfold failed. destruct (responseOf exchange r upstream) as [m|] eqn:Hr.
  - split.
    + intros Hc Hu.
      assert (inspect s (Some m) = Return m) by (apply inspect_Return; auto).
      congruence.
    + intros Hn. destruct (inspect s (Some m)) as [|m'] eqn:Hi; [reflexivity|].
      apply inspect_Return in Hi as [[= ->] Hu]. contradiction.
  - simpl. tauto.
Qed.

(** The upstream loop stops at the first upstream with a usable response,
    having asked every upstream before it and none after it. *)
Lemma tryUpstreams_spec (s : Server) (r : Msg) (upstreams : list string) :
  (exists before upstream after resp,
      upstreams = before ++ upstream :: after
      /\ Forall (failed exchange s r) before
      /\ responseOf exchange r upstream = Some resp
      /\ usable s resp
      /\ tryUpstreams exchange s r upstreams
         = (Some resp, flat_map (contactsOf exchange r) (before ++ [upstream])))
  \/ (Forall (failed exchange s r) upstreams
      /\ tryUpstreams exchange s r upstreams
         = (None, flat_map (contactsOf exchange r) upstreams)).
Proof.
  induction upstreams as [|u rest IH]; [right; split; [constructor|reflexivity]|].
  simpl. rewrite tryUpstream_eq.
  destruct (inspect s (responseOf exchange r u)) as [|resp] eqn:Hi.
  - apply inspect_Continue in Hi.
    destruct IH as [(before & v & after & resp & -> & Hf & Hr & Hu & Ht)|[Hf Ht]].
    + left. exists (u :: before), v, after, resp.
      rewrite Ht. split; [reflexivity|]. split; [by constructor|].
      split; [exact Hr|]. split; [exact Hu|reflexivity].
    + right. rewrite Ht. split; [by constructor|reflexivity].
  - apply inspect_Return in Hi as [Hr Hu].
    left. exists [], u, rest, resp. simpl. rewrite app_nil_r.
    split; [reflexivity|]. split; [constructor|].
    split; [exact Hr|]. split; [exact Hu|reflexivity].
Qed.

(** A success carrying a CNAME whose target the whitelist does not allow
    is not usable. *)
Lemma disallowed_cname_unusable (s : Server) (resp : Msg) (rr : RR) (target : string) :
  rr ∈ Answer resp ++ Extra resp ->
  cnameTarget rr = Some target ->
  isHostAllowed s target = false ->
  ~ usable s resp.
Proof.
  intros Hin Hc Hna [_ Hv].
  assert (En : isWhitelistEnabled s = true).
  { unfold isWhitelistEnabled. unfold isHostAllowed in Hna.
    destruct (Enabled (whitelist s)); [reflexivity|discriminate]. }
  specialize (Hv En). unfold validateCNAMERecords in Hv.
  assert (Hall : forall rrs, rr ∈ rrs -> cnamesAllowed s rrs = false).
  { intros rrs Hrr. unfold cnamesAllowed.
    apply not_true_is_false. intros Hf.
    rewrite forallb_forall in Hf.
    specialize (Hf rr (proj1 (list_elem_of_In _ _) Hrr)).
    rewrite Hc in Hf. congruence. }
  apply elem_of_app in Hin as [Hin|Hin].
  - rewrite (Hall _ Hin) in Hv. discriminate.
  - rewrite (Hall _ Hin) in Hv.
    destruct (cnamesAllowed s (Answer resp)); discriminate.
Qed.

(** A query with no question in the cluster zone is forwarded. *)
Lemma handleDNS_forwards (rr_accepts : RR -> bool) (now : Z) (s : Server) (r : Msg) :
  isClusterDomainQuery s (Questions r) = false ->
  handleDNS exchange rr_accepts now s r = forwardQuery exchange s r.
Proof. intros H. unfold handleDNS. by rewrite H. Qed.

(** C5.  A forwarded query whose name an enabled whitelist does not allow
    is answered REFUSED (a reply carrying the first question, no record
    and the code REFUSED) and no upstream is contacted.  Otherwise the
    upstreams are tried in order, each over UDP with a 5 s timeout and, on
    a transport error, over TCP with the same timeout: either the reply is
    the response of the first upstream that delivers a usable one (every
    upstream before it failed, none after it is contacted), or every
    upstream failed and the reply carries the first question, no record
    and the code SERVFAIL.  A success response with a CNAME whose target is
    not allowed is not usable, so its upstream counts as failed. *)
Theorem forwardQuery_spec (s : Server) (r : Msg) :
  (isWhitelistEnabled s = true -> isHostAllowed s (queryNameOf r) = false ->
     forwardQuery exchange s r
     = (mkMsg (take 1 (Questions r)) [] [] RcodeRefused false, []))
  /\ (~ (isWhitelistEnabled s = true /\ isHostAllowed s (queryNameOf r) = false) ->
        (exists before upstream after resp,
            upstreamDNS s = before ++ upstream :: after
            /\ Forall (failed exchange s r) before
            /\ responseOf exchange r upstream = Some resp
            /\ usable s resp
            /\ forwardQuery exchange s r
               = (resp, flat_map (contactsOf exchange r) (before ++ [upstream])))
        \/ (Forall (failed exchange s r) (upstreamDNS s)
            /\ forwardQuery exchange s r
               = (mkMsg (take 1 (Questions r)) [] [] RcodeServerFailure false,
                  flat_map (contactsOf exchange r) (upstreamDNS s))))
  /\ (forall upstream,
        contactsOf exchange r upstream
        = mkContact UDP 5000000000 upstream
            :: match exchange (mkContact UDP 5000000000 upstream) r with
               | ExchangeErr => [mkContact TCP 5000000000 upstream]
               | ExchangeResp _ => []
               end)
  /\ (forall upstream,
        responseOf exchange r upstream
        = match exchange (mkContact UDP 5000000000 upstream) r with
          | ExchangeResp resp => resp
          | ExchangeErr =>
              match exchange (mkContact TCP 5000000000 upstream) r with
              | ExchangeResp resp => resp
              | ExchangeErr => None
              end
          end)
  /\ (forall resp rr target,
        MsgRcode resp = RcodeSuccess ->
        rr ∈ Answer resp ++ Extra resp ->
        cnameTarget rr = Some target ->
        isHostAllowed s target = false ->
        ~ usable s resp).
Proof.
  split; [|split; [|split; [|split]]].
  - intros En Hna. unfold forwardQuery. fold (queryNameOf r).
    by rewrite En, Hna.
  - intros Hok. unfold forwardQuery. fold (queryNameOf r).
    destruct (isWhitelistEnabled s && negb (isHostAllowed s (queryNameOf r))) eqn:Hg.
    { exfalso. apply Hok. apply andb_true_iff in Hg as [? Hn].
      apply negb_true_iff in Hn. auto. }
    destruct (tryUpstreams_spec s r (upstreamDNS s))
      as [(before & u & after & resp & Hup & Hf & Hr & Hu & Ht)|[Hf Ht]].
    + left. exists before, u, after, resp. rewrite Ht. auto.
    + right. rewrite Ht. auto.
  - intros upstream. unfold contactsOf. by destruct (exchange _ r).
  - intros upstream. reflexivity.
  - intros resp rr target _. apply disallowed_cname_unusable.
Qed.

End Network.

(** The statement on the example network: [evil.net.] is refused without
    any exchange; for [www.example.com.] the upstreams are walked as the
    theorem says. *)
Lemma forwardQuery_spec_witness :
  forwardQuery network guarded (query "evil.net.")
    = (mkMsg [mkQuestion "evil.net." TypeA] [] [] RcodeRefused false, [])
  /\ ((exists before upstream after resp,
          upstreamDNS guarded = before ++ upstream :: after
          /\ Forall (failed network guarded (query "www.example.com.")) before
          /\ responseOf network (query "www.example.com.") upstream = Some resp
          /\ usable guarded resp
          /\ forwardQuery network guarded (query "www.example.com.")
             = (resp, flat_map (contactsOf network (query "www.example.com."))
                               (before ++ [upstream])))
      \/ (Forall (failed network guarded (query "www.example.com."))
                 (upstreamDNS guarded)
          /\ forwardQuery network guarded (query "www.example.com.")
             = (mkMsg [mkQuestion "www.example.com." TypeA] [] []
                      RcodeServerFailure false,
                flat_map (contactsOf network (query "www.example.com."))
                         (upstreamDNS guarded)))).
Proof.
  split.
  - apply (proj1 (forwardQuery_spec network guarded (query "evil.net."))); reflexivity.
  - apply (proj1 (proj2 (forwardQuery_spec network guarded (query "www.example.com.")))).
    intros [_ H]. vm_compute in H. discriminate.
Defined.

(** Scenario 3 of the specification, run: the poisoned response of the
    first upstream is discarded, the second is tried over UDP and TCP, and
    the reply is SERVFAIL. *)
Example cname_chain_blocked :
  forwardQuery network guarded (query "www.example.com.")
  = (mkMsg [mkQuestion "www.example.com." TypeA] [] [] RcodeServerFailure false,
     [mkContact UDP 5000000000 "8.8.8.8:53";
      mkContact UDP 5000000000 "8.8.4.4:53";
      mkContact TCP 5000000000 "8.8.4.4:53"]).
Proof. vm_compute. reflexivity. Qed.

End Forwarding.

(** ** Join tokens *)
Module Tokens.
Import Security TokenSpec Examples.

Section Hash.

Variable Sum256 : string -> string.

Lemma hash_search (tm : TokenManager) (tokenBytes : string) :
  existsb (fun kt => String.eqb (Hash (snd kt)) (hashStr Sum256 (secret tm) tokenBytes))
          (map_to_list (tokens tm)) = true
  <-> knownHash Sum256 tm tokenBytes.
Proof.
  rewrite existsb_exists. unfold knownHash. split.
  - intros ([k t] & Hin & Heq). exists k, t.
    apply list_elem_of_In, elem_of_map_to_list in Hin.
    apply String.eqb_eq in Heq. auto.
  - intros (k & t & Hl & Heq). exists (k, t). split.
    + by apply list_elem_of_In, elem_of_map_to_list.
    + by apply String.eqb_eq.
Qed.

Lemma no_tokens (tm : TokenManager) :
  (size (tokens tm) =? 0)%nat = true <-> tokens tm = ∅.
Proof. rewrite Nat.eqb_eq. apply map_size_empty_iff. Qed.

(** C7, as amended.  A token is accepted exactly when it is in the token
    set and not expired, or it is not in the set, decodes as URL-safe
    base64, and its decoded bytes hashed with the secret reproduce a stored
    hash or no tokens are known at all.  In particular, while no tokens are
    known every presented token that decodes is accepted. *)
Theorem ValidateToken_spec (now : Z) (tm : TokenManager) (token : string) :
  (fst (ValidateToken Sum256 now tm token) = true <->
     (exists t, tokens tm !! token = Some t /\ ~ expired now t)
     \/ (tokens tm !! token = None
         /\ exists tokenBytes,
              DecodeString token = Ok tokenBytes
              /\ (knownHash Sum256 tm tokenBytes \/ tokens tm = ∅)))
  /\ (tokens tm = ∅ -> is_ok (DecodeString token) = true ->
      fst (ValidateToken Sum256 now tm token) = true).
Proof.
  assert (Hmain : fst (ValidateToken Sum256 now tm token) = true <->
     (exists t, tokens tm !! token = Some t /\ ~ expired now t)
     \/ (tokens tm !! token = None
         /\ exists tokenBytes,
              DecodeString token = Ok tokenBytes
              /\ (knownHash Sum256 tm tokenBytes \/ tokens tm = ∅))).
  { unfold ValidateToken.
    destruct (tokens tm !! token) as [t|] eqn:Hl.
    - unfold expired.
      destruct (ExpiresAt t) as [e|] eqn:He.
      + destruct (e <? now) eqn:Hlt; simpl.
        * apply Z.ltb_lt in Hlt. split; [discriminate|].
          intros [(t' & [= <-] & Hne)|[[=] _]]. rewrite He in Hne. contradiction.
        * apply Z.ltb_ge in Hlt. split; [|reflexivity]. intros _. left.
          exists t. split; [reflexivity|]. rewrite He. lia.
      + simpl. split; [|reflexivity]. intros _. left.
        exists t. split; [reflexivity|]. rewrite He. tauto.
    - destruct (DecodeString token) as [bytes|e] eqn:Hd; simpl.
      + destruct (existsb _ (map_to_list (tokens tm))) eqn:Hs; simpl.
        * apply hash_search in Hs. split; [|reflexivity]. intros _. right.
          split; [reflexivity|]. exists bytes. auto.
        * destruct (size (tokens tm) =? 0)%nat eqn:Hz; simpl.
          -- apply no_tokens in Hz. split; [|reflexivity]. intros _. right.
             split; [reflexivity|]. exists bytes. auto.
          -- split; [discriminate|].
             intros [(t & [=] & _)|(_ & bytes' & [= <-] & [Hk|Hemp])].
             ++ apply hash_search in Hk. congruence.
             ++ apply no_tokens in Hemp. congruence.
      + split; [discriminate|].
        intros [(t & [=] & _)|(_ & bytes' & [=] & _)]. }
  split; [exact Hmain|].
  intros Hemp Hd. apply Hmain. right. split.
  - rewrite Hemp. apply lookup_empty.
  - destruct (DecodeString token) as [bytes|]; [|discriminate].
    exists bytes. auto.
Qed.

End Hash.

(** The amended statement at work: a manager without tokens accepts the
    decodable token [dG9rZW4=], and a manager that generated it accepts
    another spelling of the same bytes through the stored hash. *)
Lemma ValidateToken_spec_witness :
  fst (ValidateToken plainSum 1 freshManager "dG9rZW4=") = true
  /\ fst (ValidateToken plainSum 1 seededManager "dG9rZW5=") = true.
Proof.
  split.
  - apply (proj2 (ValidateToken_spec plainSum 1 freshManager "dG9rZW4="));
      reflexivity.
  - apply (proj1 (ValidateToken_spec plainSum 1 seededManager "dG9rZW5=")).
    right. split; [reflexivity|]. exists "token". split; [reflexivity|].
    left. exists "dG9rZW4=", (mkToken "dG9rZW4=" "746573742d736563726574746f6b656e" 0 None).
    split; reflexivity.
Defined.

(** C7 as stated fails in the bootstrap case: a manager that knows no
    token rejects [invalid-token], which is not valid base64. *)
Lemma bootstrap_rejects_undecodable :
  tokens freshManager = ∅
  /\ fst (ValidateToken plainSum 1 freshManager "invalid-token") = false.
Proof. split; reflexivity. Qed.

End Tokens.

(** ** Merging snapshots *)
Module Merge.
Import Storage MergeSpec Examples.

Lemma overwrite_lookup {A} (incoming local : gmap string A) (k : string) :
  overwrite incoming local !! k = preferIncoming (incoming !! k) (local !! k).
Proof.
  unfold overwrite. revert k.
  apply (map_fold_weak_ind
           (fun r (m : gmap string A) =>
              forall k, r !! k = preferIncoming (m !! k) (local !! k))).
  - intros k. by rewrite lookup_empty.
  - intros i x m r Hi IH k.
    destruct (decide (i = k)) as [->|Hne].
    + by rewrite !lookup_insert_eq.
    + by rewrite !lookup_insert_ne.
Qed.

(** The pod loop.  Keys the incoming map lacks are left alone.  The loop
    returns exactly when no key is a nil clash, and then every key holds
    the entry of the precedence rule; it panics exactly when some key is
    a nil clash. *)
Lemma mergePods_inv (incoming local : gmap string (option Pod.t)) :
  (forall k, incoming !! k = None -> snd (mergePods incoming local) !! k = local !! k)
  /\ match fst (mergePods incoming local) with
     | Returned _ =>
         (forall k, ~ nilClash (incoming !! k) (local !! k))
         /\ forall k, snd (mergePods incoming local) !! k
                      = laterPod (incoming !! k) (local !! k)
     | Panicked what =>
         what = nilDereference
         /\ exists k, nilClash (incoming !! k) (local !! k)
     end.
Proof.
  unfold mergePods.
  apply (map_fold_weak_ind
           (fun (r : outcome unit * gmap string (option Pod.t))
                (m : gmap string (option Pod.t)) =>
              (forall k, m !! k = None -> snd r !! k = local !! k)
              /\ match fst r with
                 | Returned _ =>
                     (forall k, ~ nilClash (m !! k) (local !! k))
                     /\ forall k, snd r !! k = laterPod (m !! k) (local !! k)
                 | Panicked what =>
                     what = nilDereference
                     /\ exists k, nilClash (m !! k) (local !! k)
                 end)).
  - split; [reflexivity|]. cbn. split; intros k; rewrite lookup_empty.
    + cbn. tauto.
    + reflexivity.
  - intros i x m [[u|what] l] Hi [Hframe IH]; cbn [fst snd] in *.
    + (* the loop has not panicked so far *)
      destruct IH as [Hno Hl].
      assert (Hli : l !! i = local !! i) by (apply Hframe, Hi).
      unfold mergePod. rewrite Hli.
      destruct (local !! i) as [existing|] eqn:Hlocal.
      * destruct x as [p|], existing as [e|]; cbn [fst snd].
        -- (* both records are there *)
           split; [|split].
           ++ intros k Hk. apply lookup_insert_None in Hk as [Hk Hne].
              destruct (Pod.CreatedAt e <? Pod.CreatedAt p);
                [rewrite lookup_insert_ne by done|]; by apply Hframe.
           ++ intros k. destruct (decide (i = k)) as [<-|Hne].
              ** rewrite lookup_insert_eq, Hlocal. cbn. tauto.
              ** rewrite lookup_insert_ne by done. apply Hno.
           ++ intros k. destruct (decide (i = k)) as [<-|Hne].
              ** rewrite lookup_insert_eq, Hlocal. cbn [laterPod].
                 destruct (Pod.CreatedAt e <? Pod.CreatedAt p).
                 --- by rewrite lookup_insert_eq.
                 --- by rewrite Hli.
              ** rewrite (lookup_insert_ne m) by done. rewrite <- Hl.
                 destruct (Pod.CreatedAt e <? Pod.CreatedAt p); [|reflexivity].
                 by rewrite lookup_insert_ne.
        -- split; [|split; [reflexivity|]].
           ++ intros k Hk. apply lookup_insert_None in Hk as [Hk Hne].
              by apply Hframe.
           ++ exists i. rewrite lookup_insert_eq, Hlocal. exact I.
        -- split; [|split; [reflexivity|]].
           ++ intros k Hk. apply lookup_insert_None in Hk as [Hk Hne].
              by apply Hframe.
           ++ exists i. rewrite lookup_insert_eq, Hlocal. exact I.
        -- split; [|split; [reflexivity|]].
           ++ intros k Hk. apply lookup_insert_None in Hk as [Hk Hne].
              by apply Hframe.
           ++ exists i. rewrite lookup_insert_eq, Hlocal. exact I.
      * (* a new key *)
        cbn [fst snd]. split; [|split].
        -- intros k Hk. apply lookup_insert_None in Hk as [Hk Hne].
           rewrite lookup_insert_ne by done. by apply Hframe.
        -- intros k. destruct (decide (i = k)) as [<-|Hne].
           ++ rewrite lookup_insert_eq, Hlocal. destruct x; cbn; tauto.
           ++ rewrite lookup_insert_ne by done. apply Hno.
        -- intros k. destruct (decide (i = k)) as [<-|Hne].
           ++ rewrite !lookup_insert_eq, Hlocal. by destruct x.
           ++ rewrite !lookup_insert_ne by done. apply Hl.
    + (* the loop has panicked before *)
      destruct IH as [Hwhat [k Hk]]. split; [|split; [exact Hwhat|]].
      * intros k' Hk'. apply lookup_insert_None in Hk' as [Hk' Hne].
        by apply Hframe.
      * exists k. destruct (decide (i = k)) as [<-|Hne].
        -- rewrite Hi in Hk. destruct Hk.
        -- by rewrite lookup_insert_ne.
Qed.

(** Without a nil clash the pod loop returns, and every key holds the
    entry of the precedence rule. *)
Lemma mergePods_returns (incoming local : gmap string (option Pod.t)) :
  (forall k, ~ nilClash (incoming !! k) (local !! k)) ->
  fst (mergePods incoming local) = Returned tt
  /\ forall k, snd (mergePods incoming local) !! k
               = laterPod (incoming !! k) (local !! k).
Proof.
  intros Hno. destruct (mergePods_inv incoming local) as [_ H].
  destruct (fst (mergePods incoming local)) as [[]|what].
  - split; [reflexivity|apply H].
  - destruct H as [_ [k Hk]]. destruct (Hno k Hk).
Qed.

(** With a nil clash the pod loop panics, whatever the order in which it
    visits the keys. *)
Lemma mergePods_panics (incoming local : gmap string (option Pod.t)) (k : string) :
  nilClash (incoming !! k) (local !! k) ->
  fst (mergePods incoming local) = Panicked nilDereference.
Proof.
  intros Hk. destruct (mergePods_inv incoming local) as [_ H].
  destruct (fst (mergePods incoming local)) as [u|what].
  - destruct H as [Hno _]. destruct (Hno k Hk).
  - by destruct H as [-> _].
Qed.

(** Returning or not, the pod loop drops no key. *)
Lemma mergePods_dom (incoming local : gmap string (option Pod.t)) :
  dom local ⊆ dom (snd (mergePods incoming local)).
Proof.
  unfold mergePods.
  apply (map_fold_weak_ind
           (fun (r : outcome unit * gmap string (option Pod.t))
                (m : gmap string (option Pod.t)) => dom local ⊆ dom (snd r))).
  - reflexivity.
  - intros i x m [[u|what] l] Hi IH; cbn [fst snd] in *; [|exact IH].
    unfold mergePod.
    destruct (l !! i) as [existing|] eqn:Hl.
    + destruct x as [p|], existing as [e|]; cbn [snd]; try exact IH.
      destruct (Pod.CreatedAt e <? Pod.CreatedAt p); [|exact IH].
      etrans; [exact IH|]. rewrite dom_insert. set_solver.
    + cbn [snd]. etrans; [exact IH|]. rewrite dom_insert. set_solver.
Qed.

(** [persist] touches the disk only. *)
Lemma persist_memory (io : IO) (s : Storage.t) :
  let s' := snd (persist io s) in
  deployments s' = deployments s /\ services s' = services s
  /\ ingresses s' = ingresses s /\ pods s' = pods s
  /\ lastModified s' = lastModified s.
Proof. destruct io; simpl; auto. Qed.

(** What [MergeState] does with a newer snapshot when its pod loop
    returns. *)
Lemma MergeState_newer (now : Z) (io : IO) (s : Storage.t) (incoming : ClusterState) :
  lastModified s < LastModified incoming ->
  (forall k, ~ nilClash (Pods incoming !! k) (pods s !! k)) ->
  MergeState now io s incoming
  = (Returned (fst (persist io (mk (overwrite (Deployments incoming) (deployments s))
                                   (overwrite (Services incoming) (services s))
                                   (overwrite (Ingresses incoming) (ingresses s))
                                   (snd (mergePods (Pods incoming) (pods s)))
                                   now (disk s)))),
     snd (persist io (mk (overwrite (Deployments incoming) (deployments s))
                         (overwrite (Services incoming) (services s))
                         (overwrite (Ingresses incoming) (ingresses s))
                         (snd (mergePods (Pods incoming) (pods s)))
                         now (disk s)))).
Proof.
  intros Hnew Hno. apply Z.ltb_lt in Hnew. unfold MergeState. rewrite Hnew.
  destruct (mergePods_returns _ _ Hno) as [Hfst _].
  destruct (mergePods (Pods incoming) (pods s)) as [o merged]. cbn [fst snd] in *.
  subst o. cbv zeta. by destruct (persist io _).
Qed.

(** What it does with a newer snapshot when its pod loop panics. *)
Lemma MergeState_newer_panics (now : Z) (io : IO) (s : Storage.t)
    (incoming : ClusterState) (k : string) :
  lastModified s < LastModified incoming ->
  nilClash (Pods incoming !! k) (pods s !! k) ->
  MergeState now io s incoming
  = (Panicked nilDereference,
     mk (overwrite (Deployments incoming) (deployments s))
        (overwrite (Services incoming) (services s))
        (overwrite (Ingresses incoming) (ingresses s))
        (snd (mergePods (Pods incoming) (pods s)))
        (lastModified s) (disk s)).
Proof.
  intros Hnew Hk. apply Z.ltb_lt in Hnew. unfold MergeState. rewrite Hnew.
  pose proof (mergePods_panics _ _ k Hk) as Hfst.
  destruct (mergePods (Pods incoming) (pods s)) as [o merged]. cbn [fst snd] in *.
  by subst o.
Qed.

Lemma MergeState_older (now : Z) (io : IO) (s : Storage.t) (incoming : ClusterState) :
  LastModified incoming <= lastModified s ->
  MergeState now io s incoming = (Returned (Ok tt), s).
Proof.
  intros Hold. apply Z.ltb_ge in Hold. unfold MergeState. by rewrite Hold.
Qed.

(** The merge as the specification describes it, for a snapshot that
    brings no nil pod pointer to a key the store holds and meets none
    there.  If the snapshot is newer than the store, [MergeState] puts
    the incoming entry at every key of the incoming deployments, services
    and ingresses and leaves the other keys as they were; at every pod
    key it keeps the record created later; it sets [lastModified] to the
    current time and persists (when the file system accepts the write,
    [state.json] is the snapshot of the merged store).  If the snapshot
    is older or equally old, the store is left as it was. *)
Lemma MergeState_spec (now : Z) (io : IO) (s : Storage.t) (incoming : ClusterState) :
  (lastModified s < LastModified incoming ->
   (forall k, ~ nilClash (Pods incoming !! k) (pods s !! k)) ->
     let s' := snd (MergeState now io s incoming) in
     (exists r, fst (MergeState now io s incoming) = Returned r)
     /\ (forall k, deployments s' !! k
                   = preferIncoming (Deployments incoming !! k) (deployments s !! k))
     /\ (forall k, services s' !! k
                   = preferIncoming (Services incoming !! k) (services s !! k))
     /\ (forall k, ingresses s' !! k
                   = preferIncoming (Ingresses incoming !! k) (ingresses s !! k))
     /\ (forall k, pods s' !! k = laterPod (Pods incoming !! k) (pods s !! k))
     /\ lastModified s' = now
     /\ (io = IOSuccess ->
         fst (MergeState now io s incoming) = Returned (Ok tt)
         /\ stateFile (disk s') = Some (GetState s')))
  /\ (LastModified incoming <= lastModified s ->
      MergeState now io s incoming = (Returned (Ok tt), s)).
Proof.
  split; [|apply MergeState_older].
  intros Hnew Hno. rewrite (MergeState_newer now io s incoming Hnew Hno).
  cbn [fst snd].
  match goal with |- context [persist io ?m] => set (merged := m) end.
  destruct (persist_memory io merged) as (Hd & Hs & Hi & Hp & Hm).
  cbv zeta in *. rewrite Hd, Hs, Hi, Hp, Hm.
  split; [eauto|]. subst merged. cbn [deployments services ingresses pods lastModified].
  split; [intros k; apply overwrite_lookup|].
  split; [intros k; apply overwrite_lookup|].
  split; [intros k; apply overwrite_lookup|].
  split; [intros k; apply (mergePods_returns _ _ Hno)|].
  split; [reflexivity|].
  intros ->. simpl. split; reflexivity.
Qed.

(** On the example store: the newer snapshot is merged, and merging it
    again (now older than the store) changes nothing. *)
Lemma MergeState_spec_example :
  let s' := snd (MergeState 30 IOSuccess localStore incomingState) in
  fst (MergeState 30 IOSuccess localStore incomingState) = Returned (Ok tt)
  /\ deployments s' !! "default/remote" = Some (Some (deploymentNamed "remote"))
  /\ deployments s' !! "default/local" = Some (Some (deploymentNamed "local"))
  /\ pods s' !! "default/web-0" = Some (Some (podCreated 7))
  /\ lastModified s' = 30
  /\ MergeState 40 IOSuccess s' incomingState = (Returned (Ok tt), s').
Proof. repeat split; vm_compute; reflexivity. Qed.

(** C4.  [MergeState] does not merge every snapshot.  Whatever the store
    and the clock: when a newer snapshot holds, under a pod key of the
    store, a nil pointer (a JSON [null]), or meets one there, the pod loop
    reads [CreatedAt] through it and the call panics; the deployments,
    services and ingresses are overwritten by then, but [lastModified] is
    not set and nothing is persisted.  So it is for the example store and
    the snapshot [{"pods": {"default/web-0": null}}] of instant 20: the
    incoming deployment is in the store, the pod is as before, the store
    still counts as modified at instant 10, the disk is untouched, and the
    gossip handler that delivered the message panics. *)
Theorem MergeState_panics_on_null_pod :
  (forall now io s incoming k,
      lastModified s < LastModified incoming ->
      nilClash (Pods incoming !! k) (pods s !! k) ->
      fst (MergeState now io s incoming) = Panicked nilDereference
      /\ lastModified (snd (MergeState now io s incoming)) = lastModified s
      /\ disk (snd (MergeState now io s incoming)) = disk s
      /\ forall key, deployments (snd (MergeState now io s incoming)) !! key
                     = preferIncoming (Deployments incoming !! key)
                                      (deployments s !! key))
  /\ lastModified localStore < LastModified nullPodState
  /\ pods localStore !! "default/web-0" = Some (Some (podCreated 5))
  /\ Pods nullPodState !! "default/web-0" = Some None
  /\ fst (MergeState 30 IOSuccess localStore nullPodState) = Panicked nilDereference
  /\ deployments (snd (MergeState 30 IOSuccess localStore nullPodState))
       !! "default/remote" = Some (Some (deploymentNamed "remote"))
  /\ pods (snd (MergeState 30 IOSuccess localStore nullPodState))
       !! "default/web-0" = Some (Some (podCreated 5))
  /\ lastModified (snd (MergeState 30 IOSuccess localStore nullPodState)) = 10
  /\ stateFile (disk (snd (MergeState 30 IOSuccess localStore nullPodState))) = None
  /\ Agent.messageHandler nullPodMessage 30 IOSuccess
       (Agent.mk registry localStore) nullPodPayload
     = Panicked nilDereference.
Proof.
  split.
  - intros now io s incoming k Hnew Hk.
    rewrite (MergeState_newer_panics now io s incoming k Hnew Hk). cbn [fst snd].
    repeat split; try reflexivity.
    intros key. apply overwrite_lookup.
  - repeat split; vm_compute; reflexivity.
Qed.

Lemma preferIncoming_is_Some {A} (incoming local : option A) :
  is_Some local -> is_Some (preferIncoming incoming local).
Proof. destruct incoming; simpl; eauto. Qed.

Lemma keepsKeys_refl (s : Storage.t) : keepsKeys s s.
Proof. by repeat split. Qed.

Lemma overwrite_dom {A} (incoming local : gmap string A) :
  dom local ⊆ dom (overwrite incoming local).
Proof.
  intros k Hk. apply elem_of_dom. apply elem_of_dom in Hk.
  rewrite overwrite_lookup. by apply preferIncoming_is_Some.
Qed.

Lemma MergeState_keepsKeys (now : Z) (io : IO) (s : Storage.t) (incoming : ClusterState) :
  keepsKeys s (snd (MergeState now io s incoming)).
Proof.
  unfold MergeState.
  destruct (lastModified s <? LastModified incoming); [|apply keepsKeys_refl].
  pose proof (mergePods_dom (Pods incoming) (pods s)) as Hpods.
  destruct (mergePods (Pods incoming) (pods s)) as [[u|what] merged];
    cbn [snd] in Hpods; cbv zeta.
  - match goal with |- context [persist io ?m] => set (m' := m) end.
    destruct (persist_memory io m') as (Hd & Hs & Hi & Hp & _).
    destruct (persist io m') as [r s']. cbn [snd] in *.
    unfold keepsKeys. rewrite Hd, Hs, Hi, Hp. subst m'. cbn.
    repeat split; try apply overwrite_dom. exact Hpods.
  - unfold keepsKeys. cbn.
    repeat split; try apply overwrite_dom. exact Hpods.
Qed.

(** C10.  Neither [MergeState] nor the handler of synchronisation
    messages drops a key: every key of the deployments, services,
    ingresses and pods of the store before the call is a key of the store
    the call leaves, whatever the snapshot or the message holds (nil
    entries included), whether the call returns or panics. *)
Theorem merge_never_removes (now : Z) (io : IO) (s : Storage.t)
    (incoming : ClusterState)
    (unmarshalSync : option Json.value -> result StateSyncMessage)
    (data : option Json.value) :
  keepsKeys s (snd (MergeState now io s incoming))
  /\ keepsKeys s (snd (HandleStateSyncMessage unmarshalSync now io s data)).
Proof.
  split; [apply MergeState_keepsKeys|].
  unfold HandleStateSyncMessage.
  destruct (unmarshalSync data) as [msg|]; [|apply keepsKeys_refl].
  destruct (String.eqb (Type_ msg) "state_sync"); [|apply keepsKeys_refl].
  destruct (State msg); [apply MergeState_keepsKeys|apply keepsKeys_refl].
Qed.

End Merge.

(** ** Delete and the store *)
Module Delete.
Import Api Examples.

Lemma foldl_storage {B} (f : Api.t -> B -> Api.t) (l : list B) :
  (forall a b, storage (f a b) = storage a) ->
  forall a, storage (foldl f a l) = storage a.
Proof.
  intros Hf. induction l as [|b l IH]; intros a; simpl; [reflexivity|].
  by rewrite IH, Hf.
Qed.

Lemma deregisterPods_storage now encryptor svc pods :
  forall a, storage (snd (deregisterPods now encryptor svc pods a)) = storage a.
Proof.
  induction pods as [|pod pods IH]; intros a; cbn [deregisterPods]; [reflexivity|].
  destruct (Scheduler.matchesSelector _ _); [|apply IH].
  destruct (Discovery.DeregisterService _ _ _ _ _) as [[r|what] d];
    [by rewrite IH|reflexivity].
Qed.

Lemma deleteIngress_storage a namespace name :
  storage (deleteIngress a namespace name) = storage a.
Proof. unfold deleteIngress. by destruct (ingresses a !! _). Qed.

(** [DeleteManifest] never writes to the store, whether it returns or
    panics. *)
Lemma DeleteManifest_keeps_storage now encryptor (a : Api.t) (namespace name : string) :
  storage (snd (DeleteManifest now encryptor a namespace name)) = storage a.
Proof.
  unfold DeleteManifest.
  set (key := nsKey namespace name).
  set (a1 := match deployments a !! key with
             | Some dep => _
             | None => a
             end).
  assert (H1 : storage a1 = storage a).
  { subst a1. destruct (deployments a !! key); [|reflexivity]. simpl.
    apply foldl_storage. intros a' pod. unfold deletePod.
    by destruct (String.eqb _ _). }
  cbv zeta. destruct (services a1 !! key) as [svc|].
  - pose proof (deregisterPods_storage now encryptor svc
                  (Scheduler.GetAllPods (scheduler a1)) a1) as H2.
    destruct (deregisterPods _ _ _ _ _) as [[u|what] a2]; cbn [snd] in *.
    + rewrite deleteIngress_storage. cbn. congruence.
    + congruence.
  - cbn [snd]. by rewrite deleteIngress_storage.
Qed.

(** The store's own delete does remove the record, in memory and, when
    the write succeeds, in [state.json]. *)
Lemma DeleteDeployment_then_get (now : Z) (io : Storage.IO) (s : Storage.t)
    (namespace name : string) :
  let s' := snd (Storage.DeleteDeployment now io s namespace name) in
  Storage.GetDeployment s' namespace name = Err "deployment not found"
  /\ (io = Storage.IOSuccess ->
      exists state, Storage.stateFile (Storage.disk s') = Some state
                    /\ Storage.Deployments state !! nsKey namespace name = None).
Proof.
  unfold Storage.DeleteDeployment, Storage.GetDeployment. split.
  - destruct io; simpl; by rewrite lookup_delete_eq.
  - intros ->. simpl. eexists. split; [reflexivity|]. simpl.
    apply lookup_delete_eq.
Qed.

(** C2.  The delete of a deployment leaves its record in the store.  An
    agent restarted on a [state.json] that holds [default/nginx] recovers
    the deployment; [DeleteManifest] for [default/nginx] returns, the
    container is stopped and removed and the API has forgotten the
    deployment, yet [GetDeployment] on the store still returns the record
    and the persisted snapshot still contains it. *)
Theorem delete_leaves_store_record :
  is_Some (deployments recovered !! "default/nginx")
  /\ deployments afterDelete !! "default/nginx" = None
  /\ runtimeCalls afterDelete
     = runtimeCalls recovered
         ++ [Podman.CallStop "ctr-nginx-0"; Podman.CallRemove "ctr-nginx-0"]
  /\ is_ok (Storage.GetDeployment (storage afterDelete) "default" "nginx") = true
  /\ (exists state,
        Storage.stateFile (Storage.disk (storage afterDelete)) = Some state
        /\ is_Some (Storage.Deployments state !! "default/nginx"))
  /\ fst (RecoverDeployments idOf clockOf firstNode workingRuntime 60
            Storage.IOSuccess sealing (apiOver loadedStore)) = Returned (Ok tt)
  /\ fst (DeleteManifest 70 sealing recovered "default" "nginx") = Returned tt
  /\ (exists dep,
        Storage.GetDeployment (storage afterDelete) "default" "nginx" = Ok (Some dep)
        /\ Deployment.Name dep = "nginx" /\ Deployment.Namespace dep = "default")
  /\ exists state dep,
       Storage.stateFile (Storage.disk (storage afterDelete)) = Some state
       /\ Storage.Deployments state !! "default/nginx" = Some (Some dep)
       /\ Deployment.Name dep = "nginx".
Proof.
  split; [vm_compute; eauto|].
  split; [vm_compute; reflexivity|].
  split; [vm_compute; reflexivity|].
  split; [vm_compute; reflexivity|].
  split; [eexists; split; [vm_compute; reflexivity|]; vm_compute; eauto|].
  split; [vm_compute; reflexivity|].
  split; [vm_compute; reflexivity|].
  split; [eexists; split; [vm_compute; reflexivity|]; split; reflexivity|].
  eexists. eexists. split; [vm_compute; reflexivity|].
  split; [vm_compute; reflexivity|reflexivity].
Qed.

End Delete.

(** ** Applying a deployment *)
Module Apply.
Import Api Examples.

Section World.

Variable generateID : nat -> string.
Variable unixNow : nat -> Z.
Variable Intn : nat -> nat.
Variable podman : Podman.Client.

(** The replica loop appends one pod per index when it returns no error,
    and fewer when it returns one. *)
Lemma applyReplicas_pods (indices : list nat) :
  forall (a : Api.t) (dep : Deployment.t),
    let out := applyReplicas generateID unixNow Intn podman a dep indices in
    if is_ok (fst (fst out))
    then length (Deployment.Pods (snd out))
         = (length (Deployment.Pods dep) + length indices)%nat
    else (length (Deployment.Pods (snd out))
          < length (Deployment.Pods dep) + length indices)%nat.
Proof.
  induction indices as [|i rest IH]; intros a dep; simpl; [lia|].
  destruct (replica generateID unixNow Intn podman a dep i) as [[pod|e] a'];
    simpl; [|lia].
  specialize (IH a' (Deployment.setPods dep (Deployment.Pods dep ++ [pod]))).
  simpl in IH. rewrite length_app in IH. simpl in IH.
  destruct (is_ok _); lia.
Qed.

(** When the loop returns an error, the indices before the failing one
    were processed without error, the body of the failing index returned
    that error, and the API is as that body left it: no later index is
    processed. *)
Lemma applyReplicas_stops (indices : list nat) :
  forall (a : Api.t) (dep : Deployment.t) (e : string) (a' : Api.t)
         (dep' : Deployment.t),
    applyReplicas generateID unixNow Intn podman a dep indices = (Err e, a', dep') ->
    exists done i rest a_i,
      indices = done ++ i :: rest
      /\ applyReplicas generateID unixNow Intn podman a dep done = (Ok tt, a_i, dep')
      /\ replica generateID unixNow Intn podman a_i dep' i = (Err e, a').
Proof.
  induction indices as [|i rest IH]; intros a dep e a' dep' H; simpl in H;
    [discriminate|].
  destruct (replica generateID unixNow Intn podman a dep i) as [[pod|e0] a0] eqn:Hr.
  - destruct (IH _ _ _ _ _ H) as (done & j & rest' & a_j & -> & Hdone & Hj).
    exists (i :: done), j, rest', a_j. split; [reflexivity|].
    split; [|exact Hj]. simpl. by rewrite Hr.
  - injection H as <- <- <-. exists [], i, rest, a. auto.
Qed.

(** After [applyDeployment] the API holds the deployment.  When the
    apply returned no error, its pod list has exactly [replicas_desired]
    entries.  When it returned an error (a replica could not be
    scheduled, created or started), the apply was aborted at that
    replica: the replicas before it are in the pod list, which has fewer
    than [replicas_desired] entries, and no replica after it was
    processed. *)
Lemma applyDeployment_pods (a : Api.t) (deployment : Parser.K8sDeployment) :
  let out := applyDeployment generateID unixNow Intn podman a deployment in
  let N := Parser.SpecReplicas deployment in
  exists dep,
    deployments (snd out)
      !! nsKey (Parser.ObjNamespace deployment) (Parser.ObjName deployment) = Some dep
    /\ (is_ok (fst out) = true -> Z.of_nat (length (Deployment.Pods dep)) = Z.max 0 N)
    /\ (is_ok (fst out) = false ->
        Z.of_nat (length (Deployment.Pods dep)) < Z.max 0 N
        /\ exists done i rest a_i a' e,
             seq 0 (Z.to_nat N) = done ++ i :: rest
             /\ length (Deployment.Pods dep) = length done
             /\ replica generateID unixNow Intn podman a_i dep i = (Err e, a')
             /\ fst out = Err e
             /\ scheduler (snd out) = scheduler a'
             /\ runtimeCalls (snd out) = runtimeCalls a').
Proof.
  unfold applyDeployment, Parser.ParseDeployment. simpl.
  set (dep0 := Deployment.mk _ _ _ _ _ _ _ _).
  set (indices := seq 0 (Z.to_nat (Parser.SpecReplicas deployment))).
  pose proof (applyReplicas_pods indices a dep0) as H.
  pose proof (applyReplicas_stops indices a dep0) as Hstop.
  destruct (applyReplicas generateID unixNow Intn podman a dep0 indices)
    as [[r a'] dep'].
  simpl in *. subst indices. rewrite length_seq in H.
  exists dep'. split; [apply lookup_insert_eq|].
  destruct r as [[]|e]; simpl in *.
  - split; [intros _; lia|discriminate].
  - split; [discriminate|]. intros _. split; [lia|].
    destruct (Hstop e a' dep' eq_refl) as (done & i & rest & a_i & Hsplit & Hdone & Hi).
    exists done, i, rest, a_i, a', e.
    split; [exact Hsplit|]. split; [|auto].
    pose proof (applyReplicas_pods done a dep0) as Hlen.
    rewrite Hdone in Hlen. simpl in Hlen. exact Hlen.
Qed.

End World.

(** On the example cluster: two replicas with a working runtime, none
    with a runtime that cannot create containers. *)
Lemma applyDeployment_pods_example :
  (exists dep,
      deployments (snd (applyDeployment idOf clockOf firstNode workingRuntime
                          (apiOver emptyStore) web)) !! "default/web" = Some dep
      /\ Z.of_nat (length (Deployment.Pods dep)) = 2)
  /\ (exists dep,
         deployments (snd (applyDeployment idOf clockOf firstNode brokenRuntime
                             (apiOver emptyStore) web)) !! "default/web" = Some dep
         /\ Z.of_nat (length (Deployment.Pods dep)) < 2).
Proof.
  split.
  - destruct (applyDeployment_pods idOf clockOf firstNode workingRuntime
                (apiOver emptyStore) web) as (dep & Hd & Hok & _).
    exists dep. split; [exact Hd|]. apply Hok. reflexivity.
  - destruct (applyDeployment_pods idOf clockOf firstNode brokenRuntime
                (apiOver emptyStore) web) as (dep & Hd & _ & Herr).
    exists dep. split; [exact Hd|]. apply Herr. reflexivity.
Defined.

(** With two desired replicas and a runtime that fails to create the
    first container, the apply returns the error, the deployment has no
    pod instead of two, and the only call the runtime ever saw is the
    create of [web-0]: the second replica was never scheduled or
    created. *)
Lemma apply_aborts_on_create_failure :
  let out := applyDeployment idOf clockOf firstNode brokenRuntime
               (apiOver emptyStore) web in
  fst out = Err "failed to create pod"
  /\ Deployment.Pods <$> deployments (snd out) !! "default/web" = Some []
  /\ Pod.Name <$> Scheduler.GetAllPods (scheduler (snd out)) = ["web-0"]
  /\ length (runtimeCalls (snd out)) = 1%nat.
Proof. repeat split; vm_compute; reflexivity. Qed.

(** C3.  The apply of a deployment aborts at the first replica that
    fails, where the replica loop of the recovery, which has the same
    body, goes on.  The deployment [default/web] asks for two replicas and
    the runtime cannot create a container.  [applyDeployment] returns the
    error of the first replica: the runtime was asked to create [web-0]
    only, [web-1] was never scheduled, and the pod list is empty.  The
    loop of [RecoverDeployments] on the same deployment, API and runtime
    counts the failure and continues: both replicas are scheduled and the
    runtime is asked to create both, with two failures counted. *)
Theorem apply_aborts_where_recovery_continues :
  let applied := applyDeployment idOf clockOf firstNode brokenRuntime
                   (apiOver emptyStore) web in
  let recovery := recoverReplicas idOf clockOf firstNode brokenRuntime
                    (apiOver emptyStore) webParsed (seq 0 2) 0 in
  Parser.ParseDeployment web = Ok webParsed
  /\ Deployment.DesiredReplicas webParsed = 2
  /\ fst applied = Err "failed to create pod"
  /\ Deployment.Pods <$> deployments (snd applied) !! "default/web" = Some []
  /\ createsOf (runtimeCalls (snd applied)) = ["web-0"]
  /\ Pod.Name <$> Scheduler.GetAllPods (scheduler (snd applied)) = ["web-0"]
  /\ createsOf (runtimeCalls (fst (fst recovery))) = ["web-0"; "web-1"]
  /\ length (Scheduler.GetAllPods (scheduler (fst (fst recovery)))) = 2%nat
  /\ snd recovery = 2%nat.
Proof. repeat split; vm_compute; reflexivity. Qed.

End Apply.

(** ** The gossip receive handler *)
Module Gossip.
Import Agent Examples.

Section Handler.

Variable unmarshalSync : option Json.value -> result Storage.StateSyncMessage.
Variable now : Z.
Variable io : Storage.IO.

(** Bytes that decode neither as a map nor as a synchronisation message
    are ignored. *)
Lemma undecodable_ignored (st : Agent.t) :
  unmarshalSync None = Err "invalid character" ->
  messageHandler unmarshalSync now io st None = Returned (Ok tt, st).
Proof.
  intros H. unfold messageHandler, Storage.HandleStateSyncMessage. simpl.
  rewrite H. by destruct st.
Qed.

(** A message whose type is neither [service_update] nor [state_sync] is
    ignored. *)
Lemma unknown_type_ignored (st : Agent.t) (fields : list (string * Json.value))
    (msg : Storage.StateSyncMessage) :
  Json.index fields "type" <> Json.JStr "service_update" ->
  unmarshalSync (Some (Json.JObj fields)) = Ok msg ->
  Storage.Type_ msg <> "state_sync" ->
  messageHandler unmarshalSync now io st (Some (Json.JObj fields))
  = Returned (Ok tt, st).
Proof.
  intros Hty Hsync Hns.
  unfold messageHandler, Storage.HandleStateSyncMessage, Discovery.HandleServiceUpdate.
  simpl. rewrite Hsync.
  apply String.eqb_neq in Hns. rewrite Hns.
  assert (Hno : Discovery.isServiceUpdate (Json.index fields "type") = false).
  { destruct (Json.index fields "type") as [| | |ty| |]; try reflexivity.
    simpl. apply String.eqb_neq. congruence. }
  rewrite Hno. by destruct st.
Qed.

(** C9.  A [service_update] that lacks its fields, or carries one of the
    wrong type, is not ignored: the type assertions of
    [HandleServiceUpdate] panic, whatever the state of the agent, and the
    handler never returns. *)
Theorem malformed_service_update_panics (st : Agent.t) :
  messageHandler unmarshalSync now io st bareUpdate
    = Panicked "interface conversion: interface {} is not string"
  /\ messageHandler unmarshalSync now io st textPortUpdate
    = Panicked "interface conversion: interface {} is not float64".
Proof. split; reflexivity. Qed.

End Handler.

End Gossip.

(** ** The store's own operations *)
Module StoreFacts.
Import Storage.

(** Invariant 1 of the specification: after [save(x)], [get(x)] returns
    [x], whatever the file system did with the write. *)
Lemma SaveDeployment_then_get (now : Z) (io : IO) (s : Storage.t) (d : Deployment.t) :
  GetDeployment (snd (SaveDeployment now io s d))
                (Deployment.Namespace d) (Deployment.Name d) = Ok (Some d).
Proof.
  unfold SaveDeployment, GetDeployment.
  destruct io; simpl; by rewrite lookup_insert_eq.
Qed.

(** A successful [persist] followed by [Load] on a fresh store gives the
    entity maps back. *)
Lemma persist_then_Load (s : Storage.t) :
  let s' := Load (mk ∅ ∅ ∅ ∅ 0 (disk (snd (persist IOSuccess s)))) in
  deployments s' = deployments s /\ services s' = services s
  /\ ingresses s' = ingresses s /\ pods s' = pods s
  /\ lastModified s' = lastModified s.
Proof. simpl. auto. Qed.

(** A failed rename leaves [state.json] as it was. *)
Lemma failed_rename_keeps_state_file (s : Storage.t) :
  stateFile (disk (snd (persist RenameFails s))) = stateFile (disk s).
Proof. reflexivity. Qed.

End StoreFacts.

(* ================================================================== *)
(** ** The service registry *)
(* ================================================================== *)
Module Registry.
Import Discovery RegistrySpec.

Lemma GetServiceEndpoints_eq now d s ns :
  GetServiceEndpoints now d s ns
  = match services d !! serviceKey s ns with
    | None => Err "service not found"
    | Some endpoints => Ok (freshEndpoints now endpoints)
    end.
Proof. reflexivity. Qed.

Lemma ListServices_lookup now d key :
  ListServices now d !! key
  = match services d !! key with
    | Some endpoints =>
        match freshEndpoints now endpoints with
        | [] => None
        | eps => Some eps
        end
    | None => None
    end.
Proof.
  unfold ListServices. rewrite lookup_omap.
  destruct (services d !! key) as [m|]; simpl; [|reflexivity].
  destruct (freshEndpoints now m); reflexivity.
Qed.

(** X1.  The three read paths of the registry agree, whatever the order in
    which each of them ranges over the endpoint map. When
    GetServiceEndpoints finds fresh endpoints, ListServices lists the
    service and GetServiceAddresses succeeds, and every list the three
    calls may produce holds the same endpoints, respectively the
    address:port of each of them, as multisets; where GetServiceEndpoints
    returns an empty list GetServiceAddresses fails with 'no healthy
    instances' and ListServices leaves the service out; both fail alike on
    an unknown service; and conversely what ListServices lists or
    GetServiceAddresses returns is non-empty and a reordering of what
    GetServiceEndpoints returns. *)
Theorem readers_agree now d s ns :
  (forall eps seen,
      GetServiceEndpoints now d s ns = Ok eps -> inSomeOrder eps seen -> seen <> [] ->
      exists listed addresses,
        ListServices now d !! serviceKey s ns = Some listed
        /\ GetServiceAddresses now d s ns = Ok addresses
        /\ (forall listed', inSomeOrder listed listed' -> listed' ≡ₚ seen)
        /\ (forall addresses', inSomeOrder addresses addresses'
                               -> addresses' ≡ₚ addressOf <$> seen))
  /\ (GetServiceEndpoints now d s ns = Ok []
      -> GetServiceAddresses now d s ns = Err "no healthy instances for service"
         /\ ListServices now d !! serviceKey s ns = None)
  /\ (GetServiceEndpoints now d s ns = Err "service not found"
      <-> GetServiceAddresses now d s ns = Err "service not found")
  /\ (forall listed,
        ListServices now d !! serviceKey s ns = Some listed ->
        listed <> []
        /\ exists eps, GetServiceEndpoints now d s ns = Ok eps /\ eps ≡ₚ listed)
  /\ (forall addresses,
        GetServiceAddresses now d s ns = Ok addresses ->
        addresses <> []
        /\ exists eps, GetServiceEndpoints now d s ns = Ok eps
                       /\ addressOf <$> eps ≡ₚ addresses).
Proof.
  rewrite GetServiceEndpoints_eq, ListServices_lookup. unfold GetServiceAddresses.
  unfold inSomeOrder.
  destruct (services d !! serviceKey s ns) as [m|].
  - destruct (freshEndpoints now m) as [|e eps'] eqn:E; cbn.
    + split; [|split; [|split; [|split]]].
      * intros eps seen [= <-] Hp Hne. apply Permutation_nil_l in Hp. congruence.
      * auto.
      * split; discriminate.
      * discriminate.
      * discriminate.
    + split; [|split; [|split; [|split]]].
      * intros eps seen [= <-] Hp _. eexists. eexists.
        split; [reflexivity|]. split; [reflexivity|]. split.
        -- intros listed' Hl. by rewrite <- Hl, <- Hp.
        -- intros addresses' Ha. rewrite <- Ha, <- Hp. reflexivity.
      * discriminate.
      * split; discriminate.
      * intros listed [= <-]. split; [discriminate|]. eauto.
      * intros addresses [= <-]. split; [discriminate|]. eauto.
  - split; [|split; [|split; [|split]]]; try discriminate.
    split; reflexivity.
Qed.

(** One sweep's effect on one endpoint. *)
Lemma healthCheck_services now d :
  services (healthCheck now d)
  = (fun endpoints : gmap string ServiceEndpoint =>
       (fun e => if 30 * Second <? now - LastSeen e
                 then mkEndpoint (ServiceName e) (Namespace e) (PodID e) (PodName e)
                                 (NodeName e) (Address e) (Port e) false (LastSeen e)
                 else e) <$> endpoints) <$> services d.
Proof. reflexivity. Qed.

Lemma filter_fmap_absorb {A} (P : A -> bool) (f : A -> A) (l : list A) :
  (forall x, P (f x) = P x) -> (forall x, P x = true -> f x = x) ->
  List.filter P (f <$> l) = List.filter P l.
Proof.
  intros HP Hf. induction l as [|x l IH]; [reflexivity|].
  rewrite fmap_cons. cbn [List.filter].
  rewrite HP. destruct (P x) eqn:E; [|exact IH].
  rewrite (Hf x E), IH. reflexivity.
Qed.

Lemma snd_prod_map {K A} (f : A -> A) (l : list (K * A)) :
  snd <$> (prod_map id f <$> l) = f <$> (snd <$> l).
Proof.
  induction l as [|[k x] l IH]; [reflexivity|].
  rewrite !fmap_cons, IH. reflexivity.
Qed.

Lemma freshEndpoints_swept now now' (m : gmap string ServiceEndpoint) :
  now <= now' ->
  freshEndpoints now'
    ((fun e => if 30 * Second <? now - LastSeen e
               then mkEndpoint (ServiceName e) (Namespace e) (PodID e) (PodName e)
                               (NodeName e) (Address e) (Port e) false (LastSeen e)
               else e) <$> m)
  = freshEndpoints now' m.
Proof.
  intros Hle. unfold freshEndpoints.
  rewrite map_to_list_fmap, snd_prod_map.
  apply filter_fmap_absorb.
  - intros e. unfold fresh.
    destruct (30 * Second <? now - LastSeen e) eqn:E; [|reflexivity]. simpl.
    apply Z.ltb_lt in E.
    replace (now' - LastSeen e <? 30 * Second) with false
      by (symmetry; apply Z.ltb_ge; lia).
    by rewrite andb_false_r.
  - intros e. unfold fresh. intros [_ H]%andb_prop. apply Z.ltb_lt in H.
    replace (30 * Second <? now - LastSeen e) with false
      by (symmetry; apply Z.ltb_ge; lia).
    reflexivity.
Qed.

(** X2.  A health-check sweep never changes what a reader gets afterwards:
    for every instant not before the sweep, GetServiceEndpoints,
    GetServiceAddresses and ListServices return on the swept registry what
    they return on the registry before the sweep (every endpoint the sweep
    marks unhealthy is one the readers' own 30 s freshness test already
    hides). *)
Theorem healthCheck_unseen_by_readers now now' d s ns :
  now <= now' ->
  GetServiceEndpoints now' (healthCheck now d) s ns = GetServiceEndpoints now' d s ns
  /\ GetServiceAddresses now' (healthCheck now d) s ns = GetServiceAddresses now' d s ns
  /\ ListServices now' (healthCheck now d) = ListServices now' d.
Proof.
  intros Hle.
  assert (Hlook : forall key,
            services (healthCheck now d) !! key
            = (fun endpoints : gmap string ServiceEndpoint =>
                 (fun e => if 30 * Second <? now - LastSeen e
                           then mkEndpoint (ServiceName e) (Namespace e) (PodID e)
                                  (PodName e) (NodeName e) (Address e) (Port e)
                                  false (LastSeen e)
                           else e) <$> endpoints) <$> (services d !! key)).
  { intros key. rewrite healthCheck_services. apply lookup_fmap. }
  split; [|split].
  - rewrite !GetServiceEndpoints_eq, Hlook.
    destruct (services d !! serviceKey s ns); simpl; [|reflexivity].
    by rewrite freshEndpoints_swept.
  - unfold GetServiceAddresses. rewrite Hlook.
    destruct (services d !! serviceKey s ns); simpl; [|reflexivity].
    by rewrite freshEndpoints_swept.
  - apply map_eq. intros key. rewrite !ListServices_lookup, Hlook.
    destruct (services d !! key); simpl; [|reflexivity].
    by rewrite freshEndpoints_swept.
Qed.

Lemma healthCheck_unseen_by_readers_witness :
  GetServiceEndpoints (40 * Second) (healthCheck (35 * Second) Examples.registry)
                      "postgres" "default"
  = GetServiceEndpoints (40 * Second) Examples.registry "postgres" "default".
Proof.
  apply (healthCheck_unseen_by_readers (35 * Second) (40 * Second)).
  vm_compute. discriminate.
Defined.

Lemma putEndpoint_lookup reg key id e :
  putEndpoint reg key id e !! key = Some (<[id := e]> (default ∅ (reg !! key))).
Proof. unfold putEndpoint. apply lookup_insert_eq. Qed.

Lemma freshEndpoints_In now (m : gmap string ServiceEndpoint) e :
  In e (freshEndpoints now m)
  <-> (exists id, m !! id = Some e) /\ fresh now e = true.
Proof.
  unfold freshEndpoints. rewrite filter_In, <- list_elem_of_In, list_elem_of_fmap.
  split.
  - intros [([id e'] & -> & H%elem_of_map_to_list) Hf]. eauto.
  - intros [[id H] Hf]. split; [|exact Hf].
    exists (id, e). split; [reflexivity|]. by apply elem_of_map_to_list.
Qed.

(** A broadcast returns when the encryption of the message fails, and
    panics otherwise. *)
Lemma Broadcast_outcome encryptor (u : Update) :
  Cluster.Broadcast encryptor u
  = if encryptionFails encryptor u then Returned (Err "failed to encrypt message")
    else Panicked nilDereference.
Proof.
  unfold Cluster.Broadcast, encryptionFails, Cluster.SendBestEffortNil.
  destruct encryptor as [Encrypt|]; [|reflexivity].
  by destruct (Encrypt u).
Qed.

Lemma broadcastServiceUpdate_eq now encryptor d e action :
  broadcastServiceUpdate now encryptor d e action
  = (if encryptionFails encryptor (mkUpdate action e (now / Second))
     then Returned tt else Panicked nilDereference,
     mk (services d) (broadcasts d ++ [mkUpdate action e (now / Second)])).
Proof.
  unfold broadcastServiceUpdate. cbv zeta. rewrite Broadcast_outcome.
  by destruct (encryptionFails _ _).
Qed.

(** The endpoint [RegisterService] builds. *)
Lemma RegisterService_eq now encryptor c d service pod :
  exists e,
    ServiceName e = Service.Name service /\ Namespace e = Service.Namespace service
    /\ PodID e = Pod.ID pod /\ PodName e = Pod.Name pod
    /\ NodeName e = Pod.NodeName pod
    /\ Address e = match Cluster.nodes c !! Pod.NodeName pod with
                   | Some node => Node.Address node
                   | None => Pod.NodeName pod
                   end
    /\ Port e = match Service.Ports service with
                | p :: _ => ServicePortNumber p
                | [] => 0
                end
    /\ Healthy e = true /\ LastSeen e = now
    /\ RegisterService now encryptor c d service pod
       = (if encryptionFails encryptor (mkUpdate "register" e (now / Second))
          then Returned (Ok tt) else Panicked nilDereference,
          mk (putEndpoint (services d)
                (serviceKey (Service.Name service) (Service.Namespace service))
                (endpointID (Service.Namespace service) (Service.Name service)
                            (Pod.ID pod)) e)
             (broadcasts d ++ [mkUpdate "register" e (now / Second)])).
Proof.
  unfold RegisterService. cbv zeta.
  match goal with |- context [putEndpoint _ _ _ ?x] => set (e := x) end.
  exists e. rewrite broadcastServiceUpdate_eq. cbn [services broadcasts].
  subst e. cbn [ServiceName Namespace PodID PodName NodeName Address Port Healthy LastSeen].
  unfold Cluster.GetNode.
  repeat (split; [by destruct (Cluster.nodes c !! Pod.NodeName pod)|]).
  by destruct (encryptionFails _ _).
Qed.

Lemma DeregisterService_eq now encryptor d service pod endpoints e :
  services d !! serviceKey (Service.Name service) (Service.Namespace service)
  = Some endpoints ->
  endpoints !! endpointID (Service.Namespace service) (Service.Name service) (Pod.ID pod)
  = Some e ->
  DeregisterService now encryptor d service pod
  = if encryptionFails encryptor (mkUpdate "deregister" e (now / Second))
    then (Returned (Ok tt),
          mk (dropEndpoint (services d)
                (serviceKey (Service.Name service) (Service.Namespace service))
                (endpointID (Service.Namespace service) (Service.Name service)
                            (Pod.ID pod)) endpoints)
             (broadcasts d ++ [mkUpdate "deregister" e (now / Second)]))
    else (Panicked nilDereference,
          mk (services d) (broadcasts d ++ [mkUpdate "deregister" e (now / Second)])).
Proof.
  intros Hkey He. unfold DeregisterService. rewrite Hkey, He.
  rewrite broadcastServiceUpdate_eq.
  by destruct (encryptionFails _ _).
Qed.

Lemma DeregisterService_absent now encryptor d service pod :
  ~ registered d service pod ->
  DeregisterService now encryptor d service pod = (Returned (Ok tt), d).
Proof.
  intros Hnot. unfold DeregisterService.
  destruct (services d !! _) as [endpoints|] eqn:Hkey; [|reflexivity].
  destruct (endpoints !! _) as [e|] eqn:He; [|reflexivity].
  exfalso. apply Hnot. exists endpoints. split; [exact Hkey|]. rewrite He. eauto.
Qed.

(** X3.  RegisterService stores the pod's endpoint before it broadcasts.
    In the client the call leaves, whether it returns or panics, a lookup
    of the service made less than 30 s later succeeds and contains the
    endpoint: service name and namespace of the service, pod ID, pod name
    and node name of the pod, the address of the pod's node in the cluster
    roster (the node name itself when the roster does not know the node),
    the service's first port (0 when it has none), healthy, last seen at
    the time of the call; exactly one 'register' update carrying that
    endpoint has been handed to cluster.Broadcast. The call itself returns
    nil only when the encryption of the update fails; otherwise it panics
    in the broadcast, which passes a nil node to memberlist's
    SendBestEffort, so no peer is told. *)
Theorem registered_endpoint_is_served now now' encryptor c d service pod :
  now' - now < 30 * Second ->
  exists e eps,
    ServiceName e = Service.Name service /\ Namespace e = Service.Namespace service
    /\ PodID e = Pod.ID pod /\ PodName e = Pod.Name pod
    /\ NodeName e = Pod.NodeName pod
    /\ Address e = match Cluster.nodes c !! Pod.NodeName pod with
                   | Some node => Node.Address node
                   | None => Pod.NodeName pod
                   end
    /\ Port e = match Service.Ports service with
                | p :: _ => ServicePortNumber p
                | [] => 0
                end
    /\ Healthy e = true /\ LastSeen e = now
    /\ GetServiceEndpoints now' (snd (RegisterService now encryptor c d service pod))
         (Service.Name service) (Service.Namespace service) = Ok eps
    /\ In e eps
    /\ broadcasts (snd (RegisterService now encryptor c d service pod))
       = broadcasts d ++ [mkUpdate "register" e (now / Second)]
    /\ fst (RegisterService now encryptor c d service pod)
       = match encryptor with
         | Some Encrypt =>
             match Encrypt (mkUpdate "register" e (now / Second)) with
             | Err _ => Returned (Ok tt)
             | Ok _ => Panicked nilDereference
             end
         | None => Panicked nilDereference
         end.
Proof.
  intros Hage.
  destruct (RegisterService_eq now encryptor c d service pod)
    as (e & H1 & H2 & H3 & H4 & H5 & H6 & H7 & H8 & H9 & ->).
  cbn [fst snd]. exists e. rewrite GetServiceEndpoints_eq. cbn [services broadcasts].
  rewrite putEndpoint_lookup. eexists.
  repeat (split; [assumption|]).
  split; [reflexivity|]. split.
  { apply freshEndpoints_In. split.
    - eexists. apply lookup_insert_eq.
    - unfold fresh. rewrite H8, H9. apply Z.ltb_lt. exact Hage. }
  split; [reflexivity|].
  unfold encryptionFails. destruct encryptor as [Encrypt|]; [|reflexivity].
  by destruct (Encrypt _).
Qed.

Lemma populated_put d key id e :
  populated d -> forall bs, populated (mk (putEndpoint (services d) key id e) bs).
Proof.
  intros Hd bs k m. cbn [services]. unfold putEndpoint.
  destruct (decide (key = k)) as [->|Hne].
  - rewrite lookup_insert_eq. intros [= <-]. apply insert_non_empty.
  - rewrite lookup_insert_ne by exact Hne. apply Hd.
Qed.

Lemma populated_drop d key id endpoints :
  populated d ->
  forall bs, populated (mk (dropEndpoint (services d) key id endpoints) bs).
Proof.
  intros Hd bs k m. cbn [services]. unfold dropEndpoint.
  destruct (size (delete id endpoints) =? 0)%nat eqn:E.
  - intros H. apply lookup_delete_Some in H as [_ H]. by apply (Hd k).
  - destruct (decide (key = k)) as [->|Hne].
    + rewrite lookup_insert_eq. intros [= <-] Hempty.
      rewrite Hempty, map_size_empty in E. discriminate.
    + rewrite lookup_insert_ne by exact Hne. apply Hd.
Qed.

Lemma populated_services d d' : services d' = services d -> populated d -> populated d'.
Proof. intros H Hd k m. rewrite H. apply Hd. Qed.

Lemma HandleServiceUpdate_populated now d message r d' :
  populated d ->
  HandleServiceUpdate now d message = Returned (r, d') -> populated d'.
Proof.
  intros Hd. unfold HandleServiceUpdate.
  destruct (Json.unmarshalMap message) as [update|]; [|by intros [= _ <-]].
  destruct (isServiceUpdate _); [|by intros [= _ <-]].
  repeat match goal with
         | |- context [bindO ?x _] => destruct x; cbn [bindO]; [|discriminate]
         end.
  destruct (String.eqb _ "register").
  { intros [= _ <-]. by apply populated_put. }
  destruct (String.eqb _ "deregister"); [|by intros [= _ <-]].
  destruct (services d !! _) as [endpoints|]; [|by intros [= _ <-]].
  intros [= _ <-]. by apply populated_drop.
Qed.

Lemma RegisterService_populated now encryptor c d service pod :
  populated d -> populated (snd (RegisterService now encryptor c d service pod)).
Proof.
  intros Hd.
  destruct (RegisterService_eq now encryptor c d service pod)
    as (e & _ & _ & _ & _ & _ & _ & _ & _ & _ & ->).
  cbn [snd]. by apply populated_put.
Qed.

Lemma DeregisterService_populated now encryptor d service pod :
  populated d -> populated (snd (DeregisterService now encryptor d service pod)).
Proof.
  intros Hd. unfold DeregisterService.
  destruct (services d !! _) as [endpoints|]; [|exact Hd].
  destruct (endpoints !! _); [|exact Hd].
  rewrite broadcastServiceUpdate_eq.
  destruct (encryptionFails _ _); cbn [snd services broadcasts].
  - by apply populated_drop.
  - by apply (populated_services d).
Qed.

Lemma populated_empty bs : populated (mk ∅ bs).
Proof. intros k m. cbn [services]. by rewrite lookup_empty. Qed.

Lemma registered_endpoint_is_served_witness :
  exists e eps,
    GetServiceEndpoints (29 * Second) Examples.announced "postgres" "default" = Ok eps
    /\ In e eps /\ Address e = "10.0.0.1" /\ Port e = 5432
    /\ fst (RegisterService 0 Examples.sealing Examples.oneNode (mk ∅ [])
              Examples.postgres Examples.postgresPod)
       = Panicked nilDereference.
Proof.
  destruct (registered_endpoint_is_served 0 (29 * Second) Examples.sealing
              Examples.oneNode (mk ∅ []) Examples.postgres Examples.postgresPod)
    as (e & eps & _ & _ & _ & _ & _ & H3 & H4 & _ & _ & H1 & H2 & _ & H5).
  - vm_compute. reflexivity.
  - exists e, eps. auto.
Defined.

(** X4.  The registry never holds a service without endpoints: if no
    service key maps to an empty endpoint map, the same holds of the
    registry RegisterService and DeregisterService leave (whether they
    return or panic in the broadcast), after a healthCheck sweep, and
    after every HandleServiceUpdate that returns. *)
Theorem registry_has_no_empty_service now encryptor c d service pod message :
  populated d ->
  populated (snd (RegisterService now encryptor c d service pod))
  /\ populated (snd (DeregisterService now encryptor d service pod))
  /\ populated (healthCheck now d)
  /\ (forall r d', HandleServiceUpdate now d message = Returned (r, d')
                   -> populated d').
Proof.
  intros Hd. split; [|split; [|split]].
  - by apply RegisterService_populated.
  - by apply DeregisterService_populated.
  - intros k m. rewrite healthCheck_services, lookup_fmap.
    destruct (services d !! k) as [m0|] eqn:E; [|discriminate].
    intros [= <-] Hempty. apply fmap_empty_inv in Hempty. by apply (Hd k m0).
  - intros r d'. by apply HandleServiceUpdate_populated.
Qed.

Lemma registry_has_no_empty_service_witness :
  populated (snd (DeregisterService 0 Examples.noEntropy Examples.registry
                    Examples.postgres Examples.postgresPod)).
Proof.
  apply (registry_has_no_empty_service 0 Examples.noEntropy Examples.oneNode
           Examples.registry Examples.postgres Examples.postgresPod None).
  intros key endpoints H Hempty. subst endpoints.
  unfold Examples.registry in H. cbn [services] in H.
  apply lookup_singleton_Some in H as [_ H].
  apply (f_equal (fun m => m !! "default-postgres-p1")) in H.
  vm_compute in H. discriminate.
Defined.

Lemma HandleServiceUpdate_marshalUpdate now d u :
  HandleServiceUpdate now d (Some (marshalUpdate u))
  = let e := updateEndpoint u in
    let key := serviceKey (ServiceName e) (Namespace e) in
    let id := endpointID (Namespace e) (ServiceName e) (PodID e) in
    let endpoint :=
      mkEndpoint (ServiceName e) (Namespace e) (PodID e) (PodName e) (NodeName e)
                 (Address e) (toInt32 (Port e)) (Healthy e) now in
    if String.eqb (updateAction u) "register" then
      Returned (Ok tt, mk (putEndpoint (services d) key id endpoint) (broadcasts d))
    else if String.eqb (updateAction u) "deregister" then
      match services d !! key with
      | Some endpoints =>
          Returned (Ok tt, mk (dropEndpoint (services d) key id endpoints) (broadcasts d))
      | None => Returned (Ok tt, d)
      end
    else Returned (Ok tt, d).
Proof. reflexivity. Qed.

Lemma toInt32_id n : -2147483648 <= n <= 2147483647 -> toInt32 n = n.
Proof.
  intros [Hl Hu]. unfold toInt32.
  apply Z.leb_le in Hl, Hu. by rewrite Hl, Hu.
Qed.

(** X5.  The receiving side of a registration. An agent that handles a
    'register' update in the format broadcastServiceUpdate marshals, for a
    healthy endpoint whose port is in the int32 range, returns without
    error and hands nothing to its own broadcast; it stores the endpoint
    under the service key and endpoint ID the update spells, leaving the
    other services alone, and a lookup of the service on it less than 30 s
    later contains the endpoint with all fields as sent except LastSeen,
    which is the receive time. *)
Theorem register_update_served_by_peer now1 now2 peer u :
  updateAction u = "register" ->
  Healthy (updateEndpoint u) = true ->
  -2147483648 <= Port (updateEndpoint u) <= 2147483647 ->
  now2 - now1 < 30 * Second ->
  exists peer' eps endpoints,
    HandleServiceUpdate now1 peer (Some (marshalUpdate u)) = Returned (Ok tt, peer')
    /\ broadcasts peer' = broadcasts peer
    /\ services peer' !! serviceKey (ServiceName (updateEndpoint u))
                                    (Namespace (updateEndpoint u)) = Some endpoints
    /\ endpoints !! endpointID (Namespace (updateEndpoint u))
                               (ServiceName (updateEndpoint u))
                               (PodID (updateEndpoint u))
       = Some (seenAt now1 (updateEndpoint u))
    /\ (forall key, key <> serviceKey (ServiceName (updateEndpoint u))
                                      (Namespace (updateEndpoint u)) ->
                    services peer' !! key = services peer !! key)
    /\ GetServiceEndpoints now2 peer' (ServiceName (updateEndpoint u))
                           (Namespace (updateEndpoint u)) = Ok eps
    /\ In (seenAt now1 (updateEndpoint u)) eps.
Proof.
  intros Hact Hhealthy Hport Hage.
  rewrite HandleServiceUpdate_marshalUpdate. cbv zeta. rewrite Hact.
  cbn [String.eqb Ascii.eqb Bool.eqb andb]. rewrite toInt32_id by exact Hport.
  fold (seenAt now1 (updateEndpoint u)).
  eexists. eexists. eexists.
  split; [reflexivity|]. split; [reflexivity|]. cbn [services].
  split; [apply putEndpoint_lookup|].
  split; [apply lookup_insert_eq|].
  split.
  { intros key Hne. unfold putEndpoint. by rewrite lookup_insert_ne. }
  rewrite GetServiceEndpoints_eq. cbn [services]. rewrite putEndpoint_lookup.
  split; [reflexivity|].
  apply freshEndpoints_In. split.
  - eexists. apply lookup_insert_eq.
  - unfold fresh, seenAt. cbn [Healthy LastSeen]. rewrite Hhealthy.
    apply Z.ltb_lt. exact Hage.
Qed.

Lemma register_update_served_by_peer_witness :
  exists peer' eps,
    HandleServiceUpdate 2 (mk ∅ [])
      (Some (marshalUpdate (mkUpdate "register"
                              (Examples.endpoint "p1" "10.0.1.1" 5432) 0)))
    = Returned (Ok tt, peer')
    /\ GetServiceEndpoints 3 peer' "postgres" "default" = Ok eps
    /\ In (seenAt 2 (Examples.endpoint "p1" "10.0.1.1" 5432)) eps.
Proof.
  destruct (register_update_served_by_peer 2 3 (mk ∅ [])
              (mkUpdate "register" (Examples.endpoint "p1" "10.0.1.1" 5432) 0))
    as (peer' & eps & endpoints & H1 & _ & _ & _ & _ & H2 & H3).
  - reflexivity.
  - reflexivity.
  - vm_compute. split; discriminate.
  - vm_compute. reflexivity.
  - exists peer', eps. auto.
Defined.

Lemma wellKeyed_put d e :
  wellKeyed d ->
  forall bs,
    wellKeyed (mk (putEndpoint (services d)
                     (serviceKey (ServiceName e) (Namespace e))
                     (endpointID (Namespace e) (ServiceName e) (PodID e)) e) bs).
Proof.
  intros Hd bs k m id e'. cbn [services]. unfold putEndpoint.
  destruct (decide (serviceKey (ServiceName e) (Namespace e) = k)) as [<-|Hne].
  - rewrite lookup_insert_eq. intros [= <-].
    destruct (decide (endpointID (Namespace e) (ServiceName e) (PodID e) = id))
      as [<-|Hid].
    + rewrite lookup_insert_eq. by intros [= <-].
    + rewrite lookup_insert_ne by exact Hid.
      destruct (services d !! serviceKey (ServiceName e) (Namespace e)) as [m0|] eqn:E;
        cbn [default].
      * intros H. by apply (Hd _ _ _ _ E H).
      * by rewrite lookup_empty.
  - rewrite lookup_insert_ne by exact Hne. apply Hd.
Qed.

Lemma wellKeyed_drop d key id endpoints :
  wellKeyed d -> services d !! key = Some endpoints ->
  forall bs, wellKeyed (mk (dropEndpoint (services d) key id endpoints) bs).
Proof.
  intros Hd Hkey bs k m id' e'. cbn [services]. unfold dropEndpoint.
  destruct (size (delete id endpoints) =? 0)%nat.
  - intros H. apply lookup_delete_Some in H as [_ H]. by apply (Hd k).
  - destruct (decide (key = k)) as [<-|Hne].
    + rewrite lookup_insert_eq. intros [= <-] H.
      apply lookup_delete_Some in H as [_ H]. by apply (Hd key endpoints).
    + rewrite lookup_insert_ne by exact Hne. apply Hd.
Qed.

Lemma wellKeyed_services d d' : services d' = services d -> wellKeyed d -> wellKeyed d'.
Proof. intros H Hd k m id e. rewrite H. apply Hd. Qed.

Lemma HandleServiceUpdate_wellKeyed now d message r d' :
  wellKeyed d ->
  HandleServiceUpdate now d message = Returned (r, d') -> wellKeyed d'.
Proof.
  intros Hd. unfold HandleServiceUpdate.
  destruct (Json.unmarshalMap message) as [update|]; [|by intros [= _ <-]].
  destruct (isServiceUpdate _); [|by intros [= _ <-]].
  repeat match goal with
         | |- context [bindO ?x _] => destruct x; cbn [bindO]; [|discriminate]
         end.
  destruct (String.eqb _ "register").
  { intros [= _ <-].
    match goal with |- context [putEndpoint _ _ _ ?x] => set (e := x) end.
    by apply (wellKeyed_put d e). }
  destruct (String.eqb _ "deregister"); [|by intros [= _ <-]].
  destruct (services d !! _) as [endpoints|] eqn:E; [|by intros [= _ <-]].
  intros [= _ <-]. by apply wellKeyed_drop.
Qed.

Lemma RegisterService_wellKeyed now encryptor c d service pod :
  wellKeyed d -> wellKeyed (snd (RegisterService now encryptor c d service pod)).
Proof.
  intros Hd.
  destruct (RegisterService_eq now encryptor c d service pod)
    as (e & H1 & H2 & H3 & _ & _ & _ & _ & _ & _ & ->).
  cbn [snd]. rewrite <- H1, <- H2, <- H3. by apply (wellKeyed_put d e).
Qed.

Lemma DeregisterService_wellKeyed now encryptor d service pod :
  wellKeyed d -> wellKeyed (snd (DeregisterService now encryptor d service pod)).
Proof.
  intros Hd. unfold DeregisterService.
  destruct (services d !! _) as [endpoints|] eqn:E; [|exact Hd].
  destruct (endpoints !! _); [|exact Hd].
  rewrite broadcastServiceUpdate_eq.
  destruct (encryptionFails _ _); cbn [snd services broadcasts].
  - by apply wellKeyed_drop.
  - by apply (wellKeyed_services d).
Qed.

(** X6.  Every endpoint is stored under the service key and endpoint ID
    computed from its own service name, namespace and pod ID; the registry
    RegisterService and DeregisterService leave (whether they return or
    panic in the broadcast), a healthCheck sweep and every
    HandleServiceUpdate that returns preserve this. *)
Theorem endpoints_stay_under_their_keys now encryptor c d service pod message :
  wellKeyed d ->
  wellKeyed (snd (RegisterService now encryptor c d service pod))
  /\ wellKeyed (snd (DeregisterService now encryptor d service pod))
  /\ wellKeyed (healthCheck now d)
  /\ (forall r d', HandleServiceUpdate now d message = Returned (r, d')
                   -> wellKeyed d').
Proof.
  intros Hd. split; [|split; [|split]].
  - by apply RegisterService_wellKeyed.
  - by apply DeregisterService_wellKeyed.
  - intros k m id e. rewrite healthCheck_services, lookup_fmap.
    destruct (services d !! k) as [m0|] eqn:E; [|discriminate].
    intros [= <-]. rewrite lookup_fmap.
    destruct (m0 !! id) as [e0|] eqn:E0; [|discriminate].
    intros [= <-]. destruct (Hd k m0 id e0 E E0) as [-> ->].
    by destruct (30 * Second <? now - LastSeen e0).
  - intros r d'. by apply HandleServiceUpdate_wellKeyed.
Qed.

Lemma wellKeyed_empty bs : wellKeyed (mk ∅ bs).
Proof. intros k m id e. cbn [services]. by rewrite lookup_empty. Qed.

Lemma endpoints_stay_under_their_keys_witness :
  wellKeyed Examples.announced.
Proof.
  apply (endpoints_stay_under_their_keys 0 Examples.sealing Examples.oneNode (mk ∅ [])
           Examples.postgres Examples.postgresPod None).
  apply wellKeyed_empty.
Defined.

Lemma dropped_not_registered reg m bs service pod :
  ~ registered
      (mk (dropEndpoint reg
             (serviceKey (Service.Name service) (Service.Namespace service))
             (endpointID (Service.Namespace service) (Service.Name service)
                         (Pod.ID pod)) m) bs) service pod.
Proof.
  intros (m' & Hm' & [e' He']). cbn [services] in Hm'.
  unfold dropEndpoint in Hm'.
  destruct (size _ =? 0)%nat.
  - by rewrite lookup_delete_eq in Hm'.
  - rewrite lookup_insert_eq in Hm'. injection Hm' as <-.
    by rewrite lookup_delete_eq in He'.
Qed.

(** X7.  Deregistration of a registered pod (in a registry whose endpoints
    sit under their own keys). DeregisterService hands a 'deregister'
    update carrying the stored endpoint to cluster.Broadcast before it
    deletes anything. When the encryption of the update fails the
    broadcast returns, the call returns nil and the endpoint is gone from
    the registry; otherwise the broadcast panics (nil node passed to
    memberlist's SendBestEffort), the call does not return and the
    registry is unchanged, the endpoint still registered. On the receiving
    side, any agent that handles the marshalled update returns without
    error, hands nothing to its own broadcast, and no longer has the
    endpoint. *)
Theorem deregistration_spec now encryptor d service pod :
  wellKeyed d -> registered d service pod ->
  exists endpoints e,
    services d !! serviceKey (Service.Name service) (Service.Namespace service)
    = Some endpoints
    /\ endpoints !! endpointID (Service.Namespace service) (Service.Name service)
                               (Pod.ID pod) = Some e
    /\ broadcasts (snd (DeregisterService now encryptor d service pod))
       = broadcasts d ++ [mkUpdate "deregister" e (now / Second)]
    /\ match encryptor with
       | Some Encrypt =>
           match Encrypt (mkUpdate "deregister" e (now / Second)) with
           | Err _ =>
               fst (DeregisterService now encryptor d service pod) = Returned (Ok tt)
               /\ ~ registered (snd (DeregisterService now encryptor d service pod))
                               service pod
           | Ok _ =>
               fst (DeregisterService now encryptor d service pod)
               = Panicked nilDereference
               /\ services (snd (DeregisterService now encryptor d service pod))
                  = services d
           end
       | None =>
           fst (DeregisterService now encryptor d service pod)
           = Panicked nilDereference
           /\ services (snd (DeregisterService now encryptor d service pod))
              = services d
       end
    /\ forall now1 peer timestamp,
         exists peer',
           HandleServiceUpdate now1 peer
             (Some (marshalUpdate (mkUpdate "deregister" e timestamp)))
           = Returned (Ok tt, peer')
           /\ broadcasts peer' = broadcasts peer
           /\ ~ registered peer' service pod.
Proof.
  intros Hd (endpoints & Hkey & [e He]).
  destruct (Hd _ _ _ _ Hkey He) as [Hk Hid].
  exists endpoints, e. split; [exact Hkey|]. split; [exact He|].
  rewrite (DeregisterService_eq now encryptor d service pod endpoints e Hkey He).
  split; [by destruct (encryptionFails _ _)|]. split.
  - unfold encryptionFails. destruct encryptor as [Encrypt|]; [|by split].
    destruct (Encrypt _); cbn [negb is_ok fst snd services]; split; try reflexivity.
    apply dropped_not_registered.
  - intros now1 peer timestamp.
    rewrite HandleServiceUpdate_marshalUpdate. cbv zeta.
    cbn [updateAction updateEndpoint]. cbn [String.eqb Ascii.eqb Bool.eqb andb].
    rewrite <- Hk, <- Hid.
    destruct (services peer !! _) as [m|] eqn:E.
    + eexists. split; [reflexivity|]. split; [reflexivity|].
      apply dropped_not_registered.
    + exists peer. split; [reflexivity|]. split; [reflexivity|].
      intros (m' & Hm' & _). congruence.
Qed.

Lemma deregistration_spec_witness :
  fst (DeregisterService 5 Examples.sealing Examples.announced
         Examples.postgres Examples.postgresPod) = Panicked nilDereference
  /\ registered (snd (DeregisterService 5 Examples.sealing Examples.announced
                        Examples.postgres Examples.postgresPod))
                Examples.postgres Examples.postgresPod
  /\ fst (DeregisterService 5 Examples.noEntropy Examples.announced
            Examples.postgres Examples.postgresPod) = Returned (Ok tt)
  /\ ~ registered (snd (DeregisterService 5 Examples.noEntropy Examples.announced
                          Examples.postgres Examples.postgresPod))
                  Examples.postgres Examples.postgresPod.
Proof.
  assert (Hwk : wellKeyed Examples.announced)
    by apply RegisterService_wellKeyed, wellKeyed_empty.
  assert (Hreg : registered Examples.announced Examples.postgres Examples.postgresPod).
  { eexists. split; [vm_compute; reflexivity|]. vm_compute. eauto. }
  destruct (deregistration_spec 5 Examples.sealing Examples.announced
              Examples.postgres Examples.postgresPod Hwk Hreg)
    as (endpoints & e & _ & _ & _ & Hs & _).
  destruct (deregistration_spec 5 Examples.noEntropy Examples.announced
              Examples.postgres Examples.postgresPod Hwk Hreg)
    as (endpoints' & e' & _ & _ & _ & Hn & _).
  unfold Examples.sealing in Hs. unfold Examples.noEntropy in Hn.
  cbv beta iota in Hs, Hn. destruct Hs as [Hs1 Hs2], Hn as [Hn1 Hn2].
  unfold Examples.sealing, Examples.noEntropy.
  split; [exact Hs1|]. split; [|split; [exact Hn1|exact Hn2]].
  destruct Hreg as (m & Hm & Hid). exists m. by rewrite Hs2.
Defined.

(** X8.  Deregistering a pod right after registering it, when the pod was
    not registered before and no service had an empty endpoint map. Both
    updates, 'register' and 'deregister' for the same endpoint, are handed
    to cluster.Broadcast in that order. When the encryption of the
    'deregister' update fails, the call returns nil and the registry map
    is exactly what it was before the registration (a service key the
    registration created is removed again); otherwise the call panics in
    the broadcast and the endpoint stays registered. *)
Theorem deregister_undoes_register now now' encryptor encryptor' c d service pod :
  populated d -> ~ registered d service pod ->
  exists e,
    broadcasts (snd (DeregisterService now' encryptor'
                       (snd (RegisterService now encryptor c d service pod))
                       service pod))
    = broadcasts d ++ [mkUpdate "register" e (now / Second);
                       mkUpdate "deregister" e (now' / Second)]
    /\ match encryptor' with
       | Some Encrypt =>
           match Encrypt (mkUpdate "deregister" e (now' / Second)) with
           | Err _ =>
               fst (DeregisterService now' encryptor'
                      (snd (RegisterService now encryptor c d service pod))
                      service pod) = Returned (Ok tt)
               /\ services (snd (DeregisterService now' encryptor'
                                   (snd (RegisterService now encryptor c d service pod))
                                   service pod)) = services d
           | Ok _ =>
               fst (DeregisterService now' encryptor'
                      (snd (RegisterService now encryptor c d service pod))
                      service pod) = Panicked nilDereference
               /\ registered (snd (DeregisterService now' encryptor'
                                     (snd (RegisterService now encryptor c d service pod))
                                     service pod)) service pod
           end
       | None =>
           fst (DeregisterService now' encryptor'
                  (snd (RegisterService now encryptor c d service pod))
                  service pod) = Panicked nilDereference
           /\ registered (snd (DeregisterService now' encryptor'
                                 (snd (RegisterService now encryptor c d service pod))
                                 service pod)) service pod
       end.
Proof.
  intros Hpop Hnot.
  destruct (RegisterService_eq now encryptor c d service pod)
    as (e & _ & _ & _ & _ & _ & _ & _ & _ & _ & ->).
  cbn [snd]. exists e.
  set (key := serviceKey (Service.Name service) (Service.Namespace service)) in *.
  set (id := endpointID (Service.Namespace service) (Service.Name service)
                        (Pod.ID pod)) in *.
  set (d1 := mk (putEndpoint (services d) key id e)
                (broadcasts d ++ [mkUpdate "register" e (now / Second)])).
  assert (Hkey : services d1 !! key = Some (<[id := e]> (default ∅ (services d !! key))))
    by apply putEndpoint_lookup.
  assert (He : <[id := e]> (default ∅ (services d !! key)) !! id = Some e)
    by apply lookup_insert_eq.
  rewrite (DeregisterService_eq now' encryptor' d1 service pod _ e Hkey He).
  fold key id.
  assert (Hback : dropEndpoint (services d1) key id
                    (<[id := e]> (default ∅ (services d !! key))) = services d).
  { subst d1. cbn [services]. unfold dropEndpoint, putEndpoint. cbv zeta.
    destruct (services d !! key) as [m|] eqn:E; unfold default; cbn [from_option];
      unfold Datatypes.id.
    - assert (Hid : m !! id = None).
      { destruct (m !! id) eqn:Em; [|reflexivity].
        exfalso. apply Hnot. exists m. split; [exact E|]. subst id. rewrite Em. eauto. }
      rewrite delete_insert_id by exact Hid.
      assert (Hsize : (size m =? 0)%nat = false).
      { apply Nat.eqb_neq. apply map_size_non_empty_iff. by apply (Hpop key). }
      rewrite Hsize, insert_insert_eq. by apply insert_id.
    - rewrite delete_insert_id by apply lookup_empty.
      rewrite map_size_empty. cbn [Nat.eqb].
      by apply delete_insert_id. }
  assert (Hreg : registered d1 service pod).
  { eexists. split; [exact Hkey|]. fold id. rewrite He. eauto. }
  split.
  { destruct (encryptionFails _ _); cbn [snd broadcasts]; subst d1;
      cbn [broadcasts]; by rewrite <- app_assoc. }
  unfold encryptionFails. destruct encryptor' as [Encrypt|].
  - destruct (Encrypt _); cbn [negb is_ok fst snd services]; split; try reflexivity.
    + destruct Hreg as (m & Hm & Hid). exists m. auto.
    + exact Hback.
  - cbn [fst snd]. split; [reflexivity|].
    destruct Hreg as (m & Hm & Hid). exists m. auto.
Qed.

Lemma deregister_undoes_register_witness :
  services (snd (DeregisterService 5 Examples.noEntropy Examples.announced
                   Examples.postgres Examples.postgresPod)) = ∅.
Proof.
  destruct (deregister_undoes_register 0 5 Examples.sealing Examples.noEntropy
              Examples.oneNode (mk ∅ []) Examples.postgres Examples.postgresPod)
    as (e & _ & H).
  - apply populated_empty.
  - intros (m & H & _). cbn [services] in H. by rewrite lookup_empty in H.
  - unfold Examples.noEntropy in H. cbv beta iota in H.
    unfold Examples.announced, Examples.noEntropy. apply H.
Defined.

Lemma RegisterService_services now c service pod :
  exists e, forall encryptor d,
    services (snd (RegisterService now encryptor c d service pod))
    = putEndpoint (services d)
        (serviceKey (Service.Name service) (Service.Namespace service))
        (endpointID (Service.Namespace service) (Service.Name service) (Pod.ID pod)) e.
Proof.
  eexists. intros encryptor d. unfold RegisterService. cbv zeta.
  rewrite broadcastServiceUpdate_eq.
  destruct (encryptionFails _ _); reflexivity.
Qed.

(** Registering the same pod of the same service again replaces its
    endpoint: no second endpoint appears. *)
Lemma reregistration_replaces now1 now2 enc1 enc2 c1 c2 d service pod :
  services (snd (RegisterService now2 enc2 c2
                   (snd (RegisterService now1 enc1 c1 d service pod)) service pod))
  = services (snd (RegisterService now2 enc2 c2 d service pod)).
Proof.
  destruct (RegisterService_services now1 c1 service pod) as [e1 H1].
  destruct (RegisterService_services now2 c2 service pod) as [e2 H2].
  rewrite !H2, H1.
  unfold putEndpoint at 1. rewrite putEndpoint_lookup.
  unfold default at 1; cbn [from_option]; unfold Datatypes.id.
  unfold putEndpoint. by rewrite !insert_insert_eq.
Qed.

End Registry.

(* ================================================================== *)
(** ** Join tokens, API tokens and the authentication middleware *)
(* ================================================================== *)
Module JoinTokens.
Import Security.

Section Hash.

Variable Sum256 : string -> string.

Lemma existsb_stored (m : gmap string Token) key t h :
  m !! key = Some t -> Hash t = h ->
  existsb (fun kt => String.eqb (Hash (snd kt)) h) (map_to_list m) = true.
Proof.
  intros Hl Hh. apply existsb_exists. exists (key, t). split.
  - by apply list_elem_of_In, elem_of_map_to_list.
  - by apply String.eqb_eq.
Qed.

(** X9.  A join token GenerateToken issued is accepted at every later
    instant and validation leaves the manager unchanged; so is every other
    text that base64-decodes to the same bytes (through the stored hash),
    unless that text is itself a stored token with an expiry. *)
Theorem generated_token_accepted now now' tm token tokenBytes presented :
  presented = token \/ DecodeString presented = Ok tokenBytes ->
  (forall t, tokens tm !! presented = Some t -> ExpiresAt t = None) ->
  let tm' := snd (GenerateToken Sum256 now token tokenBytes tm) in
  ValidateToken Sum256 now' tm' presented = (true, tm').
Proof.
  intros Hp Hexp tm'. subst tm'. unfold GenerateToken. cbv zeta. cbn [snd].
  unfold ValidateToken. cbn [tokens secret].
  destruct (decide (presented = token)) as [->|Hne].
  { rewrite lookup_insert_eq. reflexivity. }
  destruct Hp as [->|Hd]; [contradiction|].
  rewrite lookup_insert_ne by congruence.
  destruct (tokens tm !! presented) as [t|] eqn:E.
  { by rewrite (Hexp t eq_refl). }
  rewrite Hd.
  rewrite (existsb_stored _ token
             (mkToken token (hashStr Sum256 (secret tm) tokenBytes) now None)).
  - reflexivity.
  - apply lookup_insert_eq.
  - reflexivity.
Qed.

(** X10.  RevokeToken of a stored join token: if other tokens remain and
    none of them has the hash of the revoked token's bytes, the revoked
    token is rejected afterwards; but if the revoked token was the last
    one, the manager is back in its bootstrap state and accepts every
    token that base64-decodes, the revoked one included. *)
Theorem revocation now tm token t :
  tokens tm !! token = Some t ->
  let tm' := RevokeToken tm token in
  (tokens tm' <> ∅ ->
   (forall tokenBytes key t',
      DecodeString token = Ok tokenBytes -> tokens tm' !! key = Some t' ->
      Hash t' <> hashStr Sum256 (secret tm) tokenBytes) ->
   ValidateToken Sum256 now tm' token = (false, tm'))
  /\ (tokens tm' = ∅ ->
      forall presented, is_ok (DecodeString presented) = true ->
                        ValidateToken Sum256 now tm' presented = (true, tm')).
Proof.
  intros Hl tm'. subst tm'. unfold RevokeToken. split.
  - cbn [tokens]. intros Hne Hhash.
    unfold ValidateToken. cbn [tokens secret].
    rewrite lookup_delete_eq.
    destruct (DecodeString token) as [tokenBytes|]; [|reflexivity].
    destruct (existsb _ _) eqn:Hs.
    + apply existsb_exists in Hs as ([k t'] & Hin & Heq).
      apply list_elem_of_In, elem_of_map_to_list in Hin.
      apply String.eqb_eq in Heq. exfalso. by apply (Hhash tokenBytes k t').
    + destruct (size _ =? 0)%nat eqn:Hz; [|reflexivity].
      by apply Nat.eqb_eq, map_size_empty_iff in Hz.
  - cbn [tokens]. intros Hemp presented Hd.
    unfold ValidateToken. cbn [tokens secret].
    rewrite Hemp, lookup_empty.
    destruct (DecodeString presented); [|discriminate].
    rewrite map_to_list_empty. cbn [existsb]. by rewrite map_size_empty.
Qed.

End Hash.

Lemma generated_token_accepted_witness :
  fst (ValidateToken Examples.plainSum 99 Examples.seededManager "dG9rZW4=") = true
  /\ fst (ValidateToken Examples.plainSum 99 Examples.seededManager "dG9rZW5=") = true.
Proof.
  split.
  - unfold Examples.seededManager.
    rewrite (generated_token_accepted Examples.plainSum 0 99 Examples.freshManager
               "dG9rZW4=" "token" "dG9rZW4=").
    + reflexivity.
    + left. reflexivity.
    + intros t H. vm_compute in H. discriminate.
  - unfold Examples.seededManager.
    rewrite (generated_token_accepted Examples.plainSum 0 99 Examples.freshManager
               "dG9rZW4=" "token").
    + reflexivity.
    + right. vm_compute. reflexivity.
    + intros t H. vm_compute in H. discriminate.
Defined.

Lemma revocation_witness :
  ValidateToken Examples.plainSum 1 (RevokeToken Examples.twoTokens "dG9rZW4=")
                "dG9rZW4="
  = (false, RevokeToken Examples.twoTokens "dG9rZW4=")
  /\ ValidateToken Examples.plainSum 1 (RevokeToken Examples.seededManager "dG9rZW4=")
                   "dG9rZW4="
     = (true, RevokeToken Examples.seededManager "dG9rZW4=").
Proof.
  split.
  - apply (revocation Examples.plainSum 1 Examples.twoTokens "dG9rZW4="
             (mkToken "dG9rZW4=" "746573742d736563726574746f6b656e" 0 None)).
    + vm_compute. reflexivity.
    + intros H. apply (f_equal (fun m => m !! "c3dhcm0=")) in H.
      vm_compute in H. discriminate.
    + intros tokenBytes key t' Hd Hk. injection Hd as <-.
      cbn [tokens RevokeToken] in Hk.
      apply lookup_delete_Some in Hk as [Hkey Hk].
      unfold Examples.twoTokens, GenerateToken in Hk. cbn [snd tokens] in Hk.
      apply lookup_insert_Some in Hk as [[_ <-]|[_ Hk]].
      * vm_compute. discriminate.
      * unfold Examples.seededManager, GenerateToken in Hk. cbn [snd tokens] in Hk.
        apply lookup_insert_Some in Hk as [[Hk _]|[_ Hk]].
        -- contradiction.
        -- vm_compute in Hk. discriminate.
  - apply (revocation Examples.plainSum 1 Examples.seededManager "dG9rZW4="
             (mkToken "dG9rZW4=" "746573742d736563726574746f6b656e" 0 None)).
    + vm_compute. reflexivity.
    + apply map_eq. intros k. vm_compute. reflexivity.
    + vm_compute. reflexivity.
Defined.

End JoinTokens.

Module ApiTokenFacts.
Import ApiTokens.

Lemma ValidateToken_frame now (m m' : APITokenManager) token :
  tokens m' !! token = tokens m !! token ->
  ValidateToken now m' token = ValidateToken now m token.
Proof. unfold ValidateToken. by intros ->. Qed.

(** X11.  An API token GenerateToken issued validates exactly as long as
    the current time is not after its expiry (always, when it has none;
    the expiry instant itself is still valid), and issuing it changes the
    verdict of no other token. *)
Theorem generated_token_valid_until_expiry Sum256 now now' token tokenBytes name
    expiresAt tm :
  let tm' := snd (GenerateToken Sum256 now token tokenBytes name expiresAt tm) in
  (ValidateToken now' tm' token = true
   <-> match expiresAt with
       | Some expires => now' <= expires
       | None => True
       end)
  /\ (forall other, other <> token ->
        ValidateToken now' tm' other = ValidateToken now' tm other).
Proof.
  intros tm'. subst tm'. unfold GenerateToken. cbv zeta. cbn [snd]. split.
  - unfold ValidateToken. cbn [tokens]. rewrite lookup_insert_eq.
    unfold expiredAt. cbn [ExpiresAt].
    destruct expiresAt as [expires|]; [|tauto].
    destruct (expires <? now') eqn:E.
    + apply Z.ltb_lt in E. split; [discriminate|lia].
    + apply Z.ltb_ge in E. tauto.
  - intros other Hne. apply ValidateToken_frame. cbn [tokens].
    by rewrite lookup_insert_ne.
Qed.

Lemma generated_token_valid_until_expiry_witness :
  ValidateToken 5 Examples.apiTokens "c3dhcm0=" = true
  /\ ValidateToken 6 Examples.apiTokens "dG9rZW4="
     = ValidateToken 6 (snd (GenerateToken Examples.plainSum 0 "dG9rZW4=" "token" "ci"
                               (Some 5) (mkManager ∅ ∅ "test-secret"))) "dG9rZW4=".
Proof.
  destruct (generated_token_valid_until_expiry Examples.plainSum 0 5 "c3dhcm0=" "swarm"
              "ops" None
              (snd (GenerateToken Examples.plainSum 0 "dG9rZW4=" "token" "ci"
                      (Some 5) (mkManager ∅ ∅ "test-secret")))) as [H _].
  destruct (generated_token_valid_until_expiry Examples.plainSum 0 6 "c3dhcm0=" "swarm"
              "ops" None
              (snd (GenerateToken Examples.plainSum 0 "dG9rZW4=" "token" "ci"
                      (Some 5) (mkManager ∅ ∅ "test-secret")))) as [_ H'].
  split; [by apply H|]. apply H'. discriminate.
Defined.

(** X12.  RevokeToken on an unknown API token returns the error 'token not
    found' and leaves the manager unchanged; on a known token it succeeds,
    after which the token is gone and fails validation at every instant, a
    second revocation returns 'token not found', and the verdict of every
    other token is unchanged. *)
Theorem RevokeToken_spec now tm token :
  match tokens tm !! token with
  | Some t =>
      exists tm', RevokeToken tm token = (Ok tt, tm')
                  /\ ValidateToken now tm' token = false
                  /\ tokens tm' !! token = None
                  /\ (forall other, other <> token ->
                        ValidateToken now tm' other = ValidateToken now tm other)
                  /\ fst (RevokeToken tm' token) = Err "token not found"
  | None => RevokeToken tm token = (Err "token not found", tm)
  end.
Proof.
  unfold RevokeToken.
  destruct (tokens tm !! token) as [t|] eqn:E; [|reflexivity].
  eexists. split; [reflexivity|]. cbn [tokens].
  split; [unfold ValidateToken; cbn [tokens]; by rewrite lookup_delete_eq|].
  split; [apply lookup_delete_eq|].
  split.
  - intros other Hne. apply ValidateToken_frame. cbn [tokens].
    by rewrite lookup_delete_ne.
  - by rewrite lookup_delete_eq.
Qed.

Lemma RevokeToken_spec_witness :
  RevokeToken Examples.apiTokens "bm9uZQ==" = (Err "token not found", Examples.apiTokens)
  /\ exists tm', RevokeToken Examples.apiTokens "c3dhcm0=" = (Ok tt, tm')
                 /\ ValidateToken 1 tm' "c3dhcm0=" = false
                 /\ ValidateToken 1 tm' "dG9rZW4=" = true.
Proof.
  split; [exact (RevokeToken_spec 1 Examples.apiTokens "bm9uZQ==")|].
  destruct (RevokeToken_spec 1 Examples.apiTokens "c3dhcm0=")
    as (tm' & H1 & H2 & _ & H3 & _).
  exists tm'. split; [exact H1|]. split; [exact H2|].
  rewrite H3 by discriminate. reflexivity.
Defined.

Lemma CleanupExpiredTokens_tokens now tm key :
  tokens (CleanupExpiredTokens now tm) !! key
  = match tokens tm !! key with
    | Some t => if expiredAt now t then None else Some t
    | None => None
    end.
Proof.
  unfold CleanupExpiredTokens.
  assert (H : forall k,
            tokens (map_fold (fun token t tm =>
                        if expiredAt now t
                        then mkManager (delete token (tokens tm))
                                       (delete (Hash t) (hashes tm)) (secret tm)
                        else tm) tm (tokens tm)) !! k
            = match tokens tm !! k with
              | Some t => if expiredAt now t then None else tokens tm !! k
              | None => tokens tm !! k
              end).
  { apply (map_fold_weak_ind
             (fun r (m : gmap string APIToken) =>
                forall k, tokens r !! k
                          = match m !! k with
                            | Some t => if expiredAt now t then None else tokens tm !! k
                            | None => tokens tm !! k
                            end)).
    - intros k. by rewrite lookup_empty.
    - intros i x m r Hi IH k.
      destruct (decide (i = k)) as [->|Hne].
      + rewrite lookup_insert_eq.
        destruct (expiredAt now x); cbn [tokens].
        * apply lookup_delete_eq.
        * by rewrite IH, Hi.
      + rewrite lookup_insert_ne by exact Hne.
        destruct (expiredAt now x); cbn [tokens].
        * rewrite lookup_delete_ne by exact Hne. apply IH.
        * apply IH. }
  rewrite H. destruct (tokens tm !! key) as [t|] eqn:E; [|reflexivity].
  by destruct (expiredAt now t).
Qed.

(** X13.  CleanupExpiredTokens removes exactly the tokens whose expiry is
    before the cleanup time and keeps every other record as it was;
    consequently it changes no validation verdict at the cleanup time or
    later. *)
Theorem cleanup_removes_only_expired now now' tm token :
  now <= now' ->
  ValidateToken now' (CleanupExpiredTokens now tm) token = ValidateToken now' tm token
  /\ (forall t, tokens (CleanupExpiredTokens now tm) !! token = Some t
                <-> tokens tm !! token = Some t /\ expiredAt now t = false).
Proof.
  intros Hle. split.
  - unfold ValidateToken. rewrite CleanupExpiredTokens_tokens.
    destruct (tokens tm !! token) as [t|]; [|reflexivity].
    destruct (expiredAt now t) eqn:E; [|reflexivity].
    unfold expiredAt in *. destruct (ExpiresAt t) as [expires|]; [|discriminate].
    apply Z.ltb_lt in E.
    replace (expires <? now') with true by (symmetry; apply Z.ltb_lt; lia).
    reflexivity.
  - intros t. rewrite CleanupExpiredTokens_tokens.
    destruct (tokens tm !! token) as [t0|].
    + destruct (expiredAt now t0) eqn:E.
      * split; [discriminate|]. intros [[= ->] H]. congruence.
      * split; [intros [= ->]; auto|]. by intros [H _].
    + split; [discriminate|]. by intros [H _].
Qed.

Lemma cleanup_removes_only_expired_witness :
  ValidateToken 7 (CleanupExpiredTokens 6 Examples.apiTokens) "dG9rZW4=" = false
  /\ ValidateToken 7 (CleanupExpiredTokens 6 Examples.apiTokens) "c3dhcm0=" = true.
Proof.
  split.
  - rewrite (proj1 (cleanup_removes_only_expired 6 7 Examples.apiTokens "dG9rZW4="
                      ltac:(lia))).
    reflexivity.
  - rewrite (proj1 (cleanup_removes_only_expired 6 7 Examples.apiTokens "c3dhcm0="
                      ltac:(lia))).
    reflexivity.
Defined.

(** X14.  ListTokens returns one entry per stored API token, each with the
    token value replaced by '***' and with the hash, name, creation time
    and expiry of a stored record. *)
Theorem ListTokens_masks tm :
  length (ListTokens tm) = size (tokens tm)
  /\ Forall (fun shown =>
               Token shown = "***"
               /\ exists token t, tokens tm !! token = Some t
                                  /\ Hash shown = Hash t /\ Name shown = Name t
                                  /\ CreatedAt shown = CreatedAt t
                                  /\ ExpiresAt shown = ExpiresAt t)
            (ListTokens tm).
Proof.
  unfold ListTokens. split.
  - by rewrite !length_fmap, length_map_to_list.
  - apply Forall_forall. intros shown Hin.
    apply list_elem_of_fmap in Hin as (t & -> & Hin).
    apply list_elem_of_fmap in Hin as ([token t'] & -> & Hin).
    apply elem_of_map_to_list in Hin. split; [reflexivity|].
    exists token, t'. cbn [snd]. auto.
Qed.

End ApiTokenFacts.

Module MiddlewareFacts.
Import GoStrings ApiTokens Middleware.

Lemma HasPrefix_append p s : HasPrefix (p +:+ s) p = true.
Proof.
  induction p as [|c p IH]; [by destruct s|].
  rewrite GoStringsFacts.append_String. cbn [HasPrefix].
  by rewrite Ascii.eqb_refl.
Qed.

Lemma TrimPrefix_append p s : TrimPrefix (p +:+ s) p = s.
Proof.
  induction p as [|c p IH]; [by destruct s|].
  rewrite GoStringsFacts.append_String. cbn [TrimPrefix].
  rewrite <- GoStringsFacts.append_String, HasPrefix_append. exact IH.
Qed.

Lemma tokenOf_bearer token : tokenOf ("Bearer " +:+ token) = token.
Proof. unfold tokenOf. by rewrite HasPrefix_append, TrimPrefix_append. Qed.

Lemma AuthMiddleware_enabled tm now path authHeader token :
  path <> "/api/v1/health" -> authHeader <> EmptyString ->
  tokenOf authHeader = token ->
  AuthMiddleware tm true now path authHeader
  = if ValidateToken now tm token then Next
    else Abort 401 "Invalid or expired token".
Proof.
  intros Hpath Hh Ht. unfold AuthMiddleware. cbn [negb].
  apply String.eqb_neq in Hpath, Hh. rewrite Hpath, Hh, Ht.
  by destruct (ValidateToken now tm token).
Qed.

(** X15.  With authentication enabled, a request to a path other than
    /api/v1/health that presents an issued API token, either as 'Bearer
    <token>' or as the bare token, is passed on exactly while the token
    has not expired and is answered 401 'Invalid or expired token' once
    the token is revoked; without an Authorization header the request is
    answered 401 'Missing Authorization header'; /api/v1/health, and every
    path when authentication is disabled, pass without a header. *)
Theorem bearer_token_admitted_until_expiry Sum256 now now' token tokenBytes name
    expiresAt tm path authHeader :
  path <> "/api/v1/health" -> token <> EmptyString ->
  authHeader = "Bearer " +:+ token
  \/ (authHeader = token /\ HasPrefix token "Bearer " = false) ->
  let tm' := snd (GenerateToken Sum256 now token tokenBytes name expiresAt tm) in
  (AuthMiddleware tm' true now' path authHeader = Next
   <-> match expiresAt with
       | Some expires => now' <= expires
       | None => True
       end)
  /\ AuthMiddleware (snd (RevokeToken tm' token)) true now' path authHeader
     = Abort 401 "Invalid or expired token"
  /\ AuthMiddleware tm' true now' path EmptyString
     = Abort 401 "Missing Authorization header"
  /\ AuthMiddleware tm' true now' "/api/v1/health" EmptyString = Next
  /\ AuthMiddleware tm' false now' path EmptyString = Next.
Proof.
  intros Hpath Htok Hh tm'.
  assert (Hne : authHeader <> EmptyString).
  { destruct Hh as [->|[-> _]]; [discriminate|exact Htok]. }
  assert (Ht : tokenOf authHeader = token).
  { destruct Hh as [->|[-> Hp]]; [apply tokenOf_bearer|].
    unfold tokenOf. by rewrite Hp. }
  split; [|split; [|split; [|split]]].
  - rewrite (AuthMiddleware_enabled _ _ _ _ token Hpath Hne Ht).
    subst tm'. unfold GenerateToken, ValidateToken. cbv zeta. cbn [snd tokens].
    rewrite lookup_insert_eq. unfold expiredAt. cbn [ExpiresAt].
    destruct expiresAt as [expires|]; [|tauto].
    destruct (expires <? now') eqn:E.
    + apply Z.ltb_lt in E. split; [discriminate|lia].
    + apply Z.ltb_ge in E. tauto.
  - rewrite (AuthMiddleware_enabled _ _ _ _ token Hpath Hne Ht).
    subst tm'. unfold RevokeToken, GenerateToken, ValidateToken.
    cbv zeta. cbn [snd tokens]. rewrite lookup_insert_eq. cbn [snd tokens].
    by rewrite lookup_delete_eq.
  - unfold AuthMiddleware. cbn [negb].
    apply String.eqb_neq in Hpath. by rewrite Hpath.
  - reflexivity.
  - reflexivity.
Qed.

Lemma bearer_token_admitted_until_expiry_witness :
  AuthMiddleware (snd (GenerateToken Examples.plainSum 0 "dG9rZW4=" "token" "ci"
                         (Some 100) (mkManager ∅ ∅ "test-secret")))
                 true 100 "/api/v1/pods" "Bearer dG9rZW4=" = Next.
Proof.
  destruct (bearer_token_admitted_until_expiry Examples.plainSum 0 100 "dG9rZW4="
              "token" "ci" (Some 100) (mkManager ∅ ∅ "test-secret") "/api/v1/pods"
              "Bearer dG9rZW4=") as [H _].
  - discriminate.
  - discriminate.
  - left. reflexivity.
  - apply H. lia.
Defined.

End MiddlewareFacts.

(* ================================================================== *)
(** ** Anti-entropy between stores *)
(* ================================================================== *)
Module Replication.
Import Storage MergeSpec.

Lemma preferIncoming_idem {A} (incoming local : option A) :
  preferIncoming incoming (preferIncoming incoming local) = preferIncoming incoming local.
Proof. by destruct incoming. Qed.

Lemma laterPod_idem (incoming local : option (option Pod.t)) :
  laterPod incoming (laterPod incoming local) = laterPod incoming local.
Proof.
  destruct incoming as [[p|]|], local as [[e|]|]; cbn [laterPod]; try reflexivity.
  - destruct (Pod.CreatedAt e <? Pod.CreatedAt p) eqn:E; cbn [laterPod].
    + by rewrite Z.ltb_irrefl.
    + by rewrite E.
  - by rewrite Z.ltb_irrefl.
Qed.

Lemma overwrite_idem {A} (incoming local : gmap string A) :
  overwrite incoming (overwrite incoming local) = overwrite incoming local.
Proof.
  apply map_eq. intros k. rewrite !Merge.overwrite_lookup. apply preferIncoming_idem.
Qed.

(** Between pod maps without nil pointers there is no nil clash, and
    their merge is again without nil pointers. *)
Lemma noNilPods_no_clash (incoming local : gmap string (option Pod.t)) :
  noNilPods incoming -> noNilPods local ->
  forall k, ~ nilClash (incoming !! k) (local !! k).
Proof.
  intros Hi Hl k. specialize (Hi k). specialize (Hl k).
  destruct (incoming !! k) as [[p|]|], (local !! k) as [[e|]|]; cbn; tauto.
Qed.

Lemma laterPod_not_nil (incoming local : option (option Pod.t)) :
  incoming <> Some None -> local <> Some None -> laterPod incoming local <> Some None.
Proof.
  destruct incoming as [[p|]|], local as [[e|]|]; cbn [laterPod]; try tauto.
  by destruct (Pod.CreatedAt e <? Pod.CreatedAt p).
Qed.

(** The deployments, services and ingresses after the merge of a newer
    snapshot, whether the pod loop returned or panicked. *)
Lemma MergeState_newer_maps now io s incoming :
  lastModified s < LastModified incoming ->
  let s' := snd (MergeState now io s incoming) in
  deployments s' = overwrite (Deployments incoming) (deployments s)
  /\ services s' = overwrite (Services incoming) (services s)
  /\ ingresses s' = overwrite (Ingresses incoming) (ingresses s).
Proof.
  intros Hlt. apply Z.ltb_lt in Hlt. unfold MergeState. rewrite Hlt.
  destruct (mergePods _ _) as [[u|what] merged]; cbv zeta; [|by cbn].
  by destruct io.
Qed.

(** The store after the merge of a newer snapshot without nil clash. *)
Lemma MergeState_merged now io s incoming :
  lastModified s < LastModified incoming ->
  (forall k, ~ nilClash (Pods incoming !! k) (pods s !! k)) ->
  let s' := snd (MergeState now io s incoming) in
  (exists r, fst (MergeState now io s incoming) = Returned r)
  /\ deployments s' = overwrite (Deployments incoming) (deployments s)
  /\ services s' = overwrite (Services incoming) (services s)
  /\ ingresses s' = overwrite (Ingresses incoming) (ingresses s)
  /\ (forall k, pods s' !! k = laterPod (Pods incoming !! k) (pods s !! k))
  /\ lastModified s' = now.
Proof.
  intros Hlt Hno. rewrite (Merge.MergeState_newer now io s incoming Hlt Hno).
  cbn [fst snd].
  match goal with |- context [persist io ?m] => set (merged := m) end.
  destruct (Merge.persist_memory io merged) as (Hd & Hs & Hi & Hp & Hm).
  cbv zeta in *. rewrite Hd, Hs, Hi, Hp, Hm. subst merged.
  cbn [deployments services ingresses pods lastModified].
  split; [eauto|]. repeat (split; [reflexivity|]).
  split; [|reflexivity]. apply (Merge.mergePods_returns _ _ Hno).
Qed.

(** X16.  MergeState is idempotent on the data, for a store and a snapshot
    whose pod maps hold no nil pointer: both merges return, and merging
    the same snapshot a second time, at any later clock reading and
    whatever the file system does, leaves deployments, services, ingresses
    and pods as the first merge left them (a re-delivered state_sync
    changes nothing). *)
Theorem MergeState_idempotent now1 io1 now2 io2 s incoming :
  noNilPods (pods s) -> noNilPods (Pods incoming) ->
  let s1 := snd (MergeState now1 io1 s incoming) in
  let s2 := snd (MergeState now2 io2 s1 incoming) in
  (exists r1 r2, fst (MergeState now1 io1 s incoming) = Returned r1
                 /\ fst (MergeState now2 io2 s1 incoming) = Returned r2)
  /\ deployments s2 = deployments s1 /\ services s2 = services s1
  /\ ingresses s2 = ingresses s1 /\ pods s2 = pods s1.
Proof.
  intros Hs Hin s1 s2.
  pose proof (noNilPods_no_clash _ _ Hin Hs) as Hno.
  assert (H1 : (exists r1, fst (MergeState now1 io1 s incoming) = Returned r1)
               /\ noNilPods (pods s1)
               /\ (lastModified s < LastModified incoming ->
                   deployments s1 = overwrite (Deployments incoming) (deployments s)
                   /\ services s1 = overwrite (Services incoming) (services s)
                   /\ ingresses s1 = overwrite (Ingresses incoming) (ingresses s)
                   /\ forall k, pods s1 !! k
                                = laterPod (Pods incoming !! k) (pods s !! k))
               /\ (LastModified incoming <= lastModified s -> s1 = s)).
  { destruct (Z.lt_ge_cases (lastModified s) (LastModified incoming)) as [Hlt|Hge].
    - destruct (MergeState_merged now1 io1 s incoming Hlt Hno)
        as (Hr & Hd & Hsv & Hi & Hp & _).
      fold s1 in Hd, Hsv, Hi, Hp.
      split; [exact Hr|]. split; [|split; [auto|lia]].
      intros k. rewrite Hp. apply laterPod_not_nil; [apply Hin|apply Hs].
    - subst s1. rewrite (Merge.MergeState_older _ _ _ _ Hge). cbn [fst snd].
      split; [eauto|]. split; [exact Hs|]. split; [lia|auto]. }
  destruct H1 as ([r1 Hr1] & Hs1 & Hnew1 & Hold1).
  pose proof (noNilPods_no_clash _ _ Hin Hs1) as Hno1.
  destruct (Z.lt_ge_cases (lastModified s1) (LastModified incoming)) as [H2|H2].
  - destruct (MergeState_merged now2 io2 s1 incoming H2 Hno1)
      as ([r2 Hr2] & Hd & Hsv & Hi & Hp & _).
    fold s2 in Hd, Hsv, Hi, Hp.
    split; [eauto|]. rewrite Hd, Hsv, Hi.
    destruct (Z.lt_ge_cases (lastModified s) (LastModified incoming)) as [Hlt|Hge].
    + destruct (Hnew1 Hlt) as (Hd1 & Hsv1 & Hi1 & Hp1).
      rewrite Hd1, Hsv1, Hi1, !overwrite_idem.
      repeat (split; [reflexivity|]).
      apply map_eq. intros k. rewrite Hp, !Hp1. apply laterPod_idem.
    + exfalso. rewrite (Hold1 Hge) in H2. lia.
  - subst s2. rewrite (Merge.MergeState_older _ _ _ _ H2). cbn [fst snd].
    split; [eauto|]. auto.
Qed.

(** X17.  There are no tombstones: after DeleteDeployment the deployment
    is not found, but merging a peer snapshot that was modified after the
    deletion and still holds the deployment brings it back: in the store
    the merge leaves (the deployments are written before the pod loop, so
    also when that loop panics on a nil pod) GetDeployment returns the
    peer's record. *)
Theorem merge_resurrects_deleted now io now' io' s namespace name deployment incoming :
  Deployments incoming !! nsKey namespace name = Some (Some deployment) ->
  now < LastModified incoming ->
  let s1 := snd (DeleteDeployment now io s namespace name) in
  GetDeployment s1 namespace name = Err "deployment not found"
  /\ GetDeployment (snd (MergeState now' io' s1 incoming)) namespace name
     = Ok (Some deployment).
Proof.
  intros Hin Hlt s1.
  assert (H1 : deployments s1 = delete (nsKey namespace name) (deployments s)
               /\ lastModified s1 = now).
  { subst s1. unfold DeleteDeployment. by destruct io. }
  destruct H1 as [Hd Hm]. split.
  - unfold GetDeployment. by rewrite Hd, lookup_delete_eq.
  - rewrite <- Hm in Hlt.
    destruct (MergeState_newer_maps now' io' s1 incoming Hlt) as (Hd' & _).
    unfold GetDeployment. rewrite Hd', Merge.overwrite_lookup, Hin. reflexivity.
Qed.

(** X18.  One exchange in each direction makes two stores agree, when
    their pod maps hold no nil pointer: if store a is newer than store b,
    b merges a's snapshot (GetState) at a time after a's last
    modification, and a then merges b's resulting snapshot, then both
    merges return, both stores hold the same deployments, services and
    ingresses, and for every pod key records with the same creation time. *)
Theorem two_way_sync_converges nowB ioB nowA ioA a b :
  noNilPods (pods a) -> noNilPods (pods b) ->
  lastModified b < lastModified a -> lastModified a < nowB ->
  let b' := snd (MergeState nowB ioB b (GetState a)) in
  let a' := snd (MergeState nowA ioA a (GetState b')) in
  (exists rb ra, fst (MergeState nowB ioB b (GetState a)) = Returned rb
                 /\ fst (MergeState nowA ioA a (GetState b')) = Returned ra)
  /\ deployments a' = deployments b' /\ services a' = services b'
  /\ ingresses a' = ingresses b'
  /\ (forall k, fmap Pod.CreatedAt <$> pods a' !! k
                = fmap Pod.CreatedAt <$> pods b' !! k).
Proof.
  intros Hna Hnb Hba Han b' a'.
  assert (Hnob : forall k, ~ nilClash (Pods (GetState a) !! k) (pods b !! k))
    by (apply noNilPods_no_clash; assumption).
  destruct (MergeState_merged nowB ioB b (GetState a) Hba Hnob)
    as ([rb Hrb] & Hd & Hs & Hi & Hp & Hm).
  fold b' in Hd, Hs, Hi, Hp, Hm. cbn [GetState Deployments Services Ingresses Pods] in *.
  assert (Hnb' : noNilPods (pods b')).
  { intros k. rewrite Hp. apply laterPod_not_nil; [apply Hna|apply Hnb]. }
  assert (Hab : lastModified a < LastModified (GetState b')).
  { cbn [GetState LastModified]. by rewrite Hm. }
  assert (Hnoa : forall k, ~ nilClash (Pods (GetState b') !! k) (pods a !! k))
    by (apply noNilPods_no_clash; assumption).
  destruct (MergeState_merged nowA ioA a (GetState b') Hab Hnoa)
    as ([ra Hra] & Hd' & Hs' & Hi' & Hp' & _).
  fold a' in Hd', Hs', Hi', Hp'.
  cbn [GetState Deployments Services Ingresses Pods] in *.
  assert (Hconv : forall A (x y : gmap string A),
            overwrite (overwrite x y) x = overwrite x y).
  { intros A x y. apply map_eq. intros k. rewrite !Merge.overwrite_lookup.
    destruct (x !! k), (y !! k); reflexivity. }
  split; [eauto|].
  rewrite Hd', Hs', Hi', Hd, Hs, Hi, !Hconv.
  split; [reflexivity|]. split; [reflexivity|]. split; [reflexivity|].
  intros k. rewrite Hp', Hp.
  pose proof (Hna k) as Hak. pose proof (Hnb k) as Hbk.
  destruct (pods a !! k) as [[pa|]|], (pods b !! k) as [[pb|]|]; try congruence;
    cbn [laterPod]; try reflexivity.
  - destruct (Pod.CreatedAt pb <? Pod.CreatedAt pa) eqn:E; cbn [laterPod].
    + by rewrite Z.ltb_irrefl.
    + destruct (Pod.CreatedAt pa <? Pod.CreatedAt pb) eqn:E'; [reflexivity|].
      apply Z.ltb_ge in E, E'. cbn. do 2 f_equal. lia.
  - by rewrite Z.ltb_irrefl.
Qed.

Lemma MergeState_idempotent_witness :
  pods (snd (MergeState 40 IOSuccess
               (snd (MergeState 15 IOSuccess Examples.localStore Examples.incomingState))
               Examples.incomingState))
  = pods (snd (MergeState 15 IOSuccess Examples.localStore Examples.incomingState)).
Proof.
  apply (MergeState_idempotent 15 IOSuccess 40 IOSuccess Examples.localStore
           Examples.incomingState).
  - intros k Hk. cbn in Hk. apply lookup_singleton_Some in Hk as [_ Hk]. discriminate.
  - intros k Hk. cbn in Hk. apply lookup_singleton_Some in Hk as [_ Hk]. discriminate.
Defined.

Lemma merge_resurrects_deleted_witness :
  GetDeployment (snd (DeleteDeployment 5 IOSuccess Examples.localStore "default" "local"))
                "default" "local"
  = Err "deployment not found"
  /\ GetDeployment
       (snd (MergeState 30 IOSuccess
               (snd (DeleteDeployment 5 IOSuccess Examples.localStore "default" "local"))
               (GetState Examples.localStore)))
       "default" "local"
     = Ok (Some (Examples.deploymentNamed "local")).
Proof.
  apply (merge_resurrects_deleted 5 IOSuccess 30 IOSuccess Examples.localStore
           "default" "local" (Examples.deploymentNamed "local")
           (GetState Examples.localStore)).
  - vm_compute. reflexivity.
  - vm_compute. reflexivity.
Defined.

Lemma two_way_sync_converges_witness :
  let b' := snd (MergeState 11 IOSuccess Examples.emptyStore
                   (GetState Examples.localStore)) in
  let a' := snd (MergeState 12 IOSuccess Examples.localStore (GetState b')) in
  deployments a' = deployments b'.
Proof.
  apply (two_way_sync_converges 11 IOSuccess 12 IOSuccess Examples.localStore
           Examples.emptyStore).
  - intros k Hk. cbn in Hk. apply lookup_singleton_Some in Hk as [_ Hk]. discriminate.
  - intros k Hk. cbn in Hk. by rewrite lookup_empty in Hk.
  - vm_compute. reflexivity.
  - vm_compute. reflexivity.
Defined.

End Replication.

(* ================================================================== *)
(** ** Answers for the cluster zone *)
(* ================================================================== *)
Module ClusterZone.
Import GoStrings Discovery Dns.

(** The plain form [<service>.<namespace>.<zone>.] parses into its
    service and namespace. *)
Lemma parseServiceName_plain (s : Server) (serviceName namespace : string) :
  SplitDot namespace = [namespace] ->
  HasSuffix (serviceName +:+ "." +:+ namespace) (".svc." +:+ clusterDomain s) = false ->
  parseServiceName s
    (serviceName +:+ "." +:+ namespace +:+ "." +:+ clusterDomain s +:+ ".")
  = Ok (serviceName, namespace).
Proof.
  intros Hns Hsvc. unfold parseServiceName.
  replace (serviceName +:+ "." +:+ namespace +:+ "." +:+ clusterDomain s +:+ ".")
    with (((serviceName +:+ "." +:+ namespace) +:+ ("." +:+ clusterDomain s)) +:+ ".")
    by (by rewrite !GoStringsFacts.append_assoc).
  rewrite !GoStringsFacts.TrimSuffix_append.
  rewrite (GoStringsFacts.TrimSuffix_without _ _ Hsvc).
  rewrite GoStringsFacts.SplitDot_append, Hns.
  rewrite length_app, last_last, removelast_last, GoStringsFacts.JoinDot_SplitDot.
  pose proof (GoStringsFacts.SplitDot_nonempty serviceName).
  destruct (SplitDot serviceName); [contradiction|].
  cbn [length]. by rewrite Nat.add_comm.
Qed.

Lemma SplitDot_underscore (label : string) :
  SplitDot label = [label] -> SplitDot ("_" +:+ label) = ["_" +:+ label].
Proof.
  intros H. rewrite GoStringsFacts.append_String, GoStringsFacts.append_empty_l.
  cbn [SplitDot]. change (Ascii.eqb "_" ".") with false. cbv iota. by rewrite H.
Qed.

Lemma srv_parts (a b namespace : string) (rest : list string) :
  rest <> [] ->
  let parts := [a; b] ++ rest ++ [namespace] in
  List.nth 0 parts EmptyString = a /\ List.nth 1 parts EmptyString = b
  /\ List.last parts EmptyString = namespace
  /\ List.removelast (drop 2 parts) = rest
  /\ (length parts <? 4)%nat = false.
Proof.
  intros Hne parts. subst parts. split; [reflexivity|]. split; [reflexivity|].
  split; [|split].
  - change ([a; b] ++ rest ++ [namespace]) with ((a :: b :: rest) ++ [namespace]).
    apply last_last.
  - cbn [app drop]. apply removelast_last.
  - apply Nat.ltb_ge. destruct rest; [contradiction|].
    rewrite !length_app. cbn [length]. lia.
Qed.

(** X19.  parseSRVName reads a name of the form
    _<port>._<protocol>.<service>.<namespace>.<zone>. back into exactly
    (port, protocol, service, namespace), for dot-free port, protocol and
    namespace (the service may contain dots), provided what precedes the
    zone does not itself end in .svc.<zone>. *)
Theorem parseSRVName_round_trip (s : Server) (portName protocol serviceName namespace : string) :
  SplitDot portName = [portName] -> SplitDot protocol = [protocol] ->
  SplitDot namespace = [namespace] ->
  HasSuffix ("_" +:+ portName +:+ "._" +:+ protocol +:+ "." +:+ serviceName
               +:+ "." +:+ namespace)
            (".svc." +:+ clusterDomain s) = false ->
  parseSRVName s
    ("_" +:+ portName +:+ "._" +:+ protocol +:+ "." +:+ serviceName +:+ "."
       +:+ namespace +:+ "." +:+ clusterDomain s +:+ ".")
  = Ok (portName, protocol, serviceName, namespace).
Proof.
  intros Hport Hproto Hns Hsvc. unfold parseSRVName.
  set (name := "_" +:+ portName +:+ "._" +:+ protocol +:+ "." +:+ serviceName
                 +:+ "." +:+ namespace) in *.
  replace ("_" +:+ portName +:+ "._" +:+ protocol +:+ "." +:+ serviceName +:+ "."
             +:+ namespace +:+ "." +:+ clusterDomain s +:+ ".")
    with ((name +:+ ("." +:+ clusterDomain s)) +:+ ".")
    by (subst name; by rewrite !GoStringsFacts.append_assoc).
  rewrite !GoStringsFacts.TrimSuffix_append.
  rewrite (GoStringsFacts.TrimSuffix_without _ _ Hsvc).
  assert (Hparts : SplitDot name
                   = ["_" +:+ portName; "_" +:+ protocol] ++ SplitDot serviceName
                     ++ [namespace]).
  { subst name.
    replace ("_" +:+ portName +:+ "._" +:+ protocol +:+ "." +:+ serviceName
               +:+ "." +:+ namespace)
      with (("_" +:+ portName) +:+ "." +:+ (("_" +:+ protocol) +:+ "."
              +:+ (serviceName +:+ "." +:+ namespace))).
    - rewrite !GoStringsFacts.SplitDot_append.
      by rewrite (SplitDot_underscore _ Hport), (SplitDot_underscore _ Hproto), Hns.
    - rewrite !GoStringsFacts.append_assoc.
      rewrite !GoStringsFacts.append_String, !GoStringsFacts.append_empty_l.
      reflexivity. }
  rewrite Hparts. cbv zeta.
  pose proof (GoStringsFacts.SplitDot_nonempty serviceName) as Hne.
  destruct (srv_parts ("_" +:+ portName) ("_" +:+ protocol) namespace
              (SplitDot serviceName) Hne) as (H0 & H1 & Hl & Hr & Hlen).
  cbn [app] in *. rewrite Hlen, H0, H1, Hl, Hr.
  rewrite !MiddlewareFacts.HasPrefix_append. cbn [negb orb].
  by rewrite !MiddlewareFacts.TrimPrefix_append, GoStringsFacts.JoinDot_SplitDot.
Qed.

Lemma parseSRVName_round_trip_witness :
  parseSRVName Examples.server "_pg._tcp.postgres.default.cluster.local."
  = Ok ("pg", "tcp", "postgres", "default").
Proof.
  apply (parseSRVName_round_trip Examples.server "pg" "tcp" "postgres" "default");
    vm_compute; reflexivity.
Defined.

Section Records.

Variable rr_accepts : RR -> bool.

Lemma answer_loop (qname : string) (endpoints : list ServiceEndpoint) (m : Msg) :
  foldl (fun m endpoint =>
           match NewRR rr_accepts (RR_A qname 60 (Address endpoint)) with
           | Err _ => m
           | Ok rr => appendAnswer m rr
           end) m endpoints
  = mkMsg (Questions m)
          (Answer m ++ List.filter rr_accepts
                         ((fun e => RR_A qname 60 (Address e)) <$> endpoints))
          (Extra m) (MsgRcode m) (Authoritative m).
Proof.
  revert m. induction endpoints as [|e endpoints IH]; intros m.
  - cbn [foldl fmap list_fmap List.filter]. rewrite app_nil_r. by destruct m.
  - cbn [foldl]. rewrite IH, fmap_cons. cbn [List.filter]. unfold NewRR.
    destruct (rr_accepts (RR_A qname 60 (Address e))); [|reflexivity].
    unfold appendAnswer. cbn [Questions Answer Extra MsgRcode Authoritative].
    by rewrite <- app_assoc.
Qed.

(** X20.  An A question for <service>.<namespace>.<zone>. (namespace
    dot-free, the name before the zone not ending in .svc.<zone>) appends
    to the answer section one A record with the question's name, TTL 60
    and the endpoint's address for each endpoint GetServiceEndpoints
    returns for that service and namespace, in that order, leaving out
    only records the DNS library refuses to parse; the rest of the reply
    is untouched, and when the service is unknown the reply is left as it
    was. *)
Theorem A_query_lists_fresh_endpoints now s m q serviceName namespace :
  SplitDot namespace = [namespace] ->
  HasSuffix (serviceName +:+ "." +:+ namespace) (".svc." +:+ clusterDomain s) = false ->
  qName q = serviceName +:+ "." +:+ namespace +:+ "." +:+ clusterDomain s +:+ "." ->
  handleAQuery rr_accepts now s m q
  = match GetServiceEndpoints now (discovery s) serviceName namespace with
    | Ok endpoints =>
        mkMsg (Questions m)
              (Answer m ++ List.filter rr_accepts
                             ((fun e => RR_A (qName q) 60 (Address e)) <$> endpoints))
              (Extra m) (MsgRcode m) (Authoritative m)
    | Err _ => m
    end.
Proof.
  intros Hns Hsvc Hq. unfold handleAQuery.
  rewrite Hq, (parseServiceName_plain s serviceName namespace Hns Hsvc), <- Hq.
  destruct (GetServiceEndpoints now (discovery s) serviceName namespace);
    [apply answer_loop|reflexivity].
Qed.

Lemma srvLoop_header qname target targetPort endpoints i priority m :
  let m' := srvLoop rr_accepts qname target targetPort endpoints i priority m in
  Questions m' = Questions m /\ MsgRcode m' = MsgRcode m
  /\ Authoritative m' = Authoritative m.
Proof.
  revert i priority m. induction endpoints as [|e endpoints IH]; intros i priority m.
  - by cbn.
  - cbn [srvLoop].
    destruct (NewRR rr_accepts (RR_SRV qname 60 priority 10 targetPort target));
      [|apply IH].
    cbv zeta. match goal with |- context [srvLoop _ _ _ _ _ _ ?p ?x] =>
      destruct (IH (S i) p x) as (H1 & H2 & H3) end.
    rewrite H1, H2, H3.
    by destruct (NewRR rr_accepts (RR_A target 60 (Address e))).
Qed.

Lemma handleAQuery_header now s m q :
  let m' := handleAQuery rr_accepts now s m q in
  Questions m' = Questions m /\ MsgRcode m' = MsgRcode m
  /\ Authoritative m' = Authoritative m.
Proof.
  unfold handleAQuery.
  destruct (parseServiceName s (qName q)) as [[serviceName namespace]|]; [|by cbn].
  destruct (GetServiceEndpoints now (discovery s) serviceName namespace); [|by cbn].
  by rewrite answer_loop.
Qed.

Lemma handleSRVQuery_header now s m q :
  let m' := handleSRVQuery rr_accepts now s m q in
  Questions m' = Questions m /\ MsgRcode m' = MsgRcode m
  /\ Authoritative m' = Authoritative m.
Proof.
  unfold handleSRVQuery.
  destruct (parseSRVName s (qName q)) as [[[[portName protocol] serviceName] namespace]|];
    [|by cbn].
  destruct (GetServiceEndpoints now (discovery s) serviceName namespace); [|by cbn].
  apply srvLoop_header.
Qed.

Lemma handleClusterQuery_header now s r :
  let m := handleClusterQuery rr_accepts now s r in
  Questions m = take 1 (Questions r) /\ MsgRcode m = RcodeSuccess
  /\ Authoritative m = true.
Proof.
  unfold handleClusterQuery. cbv zeta.
  cbn [SetReply Questions Answer Extra MsgRcode Authoritative].
  assert (H : forall qs m,
            let m' := foldl (fun m q =>
                        match Qtype q with
                        | TypeA => handleAQuery rr_accepts now s m q
                        | TypeSRV => handleSRVQuery rr_accepts now s m q
                        | TypeAAAA => appendAnswer m (emptyAnswer rr_accepts q)
                        | TypeOther => appendAnswer m (emptyAnswer rr_accepts q)
                        end) m qs in
            Questions m' = Questions m /\ MsgRcode m' = MsgRcode m
            /\ Authoritative m' = Authoritative m).
  { induction qs as [|q qs IH]; intros m; [by cbn|].
    cbn [foldl]. cbv zeta.
    match goal with |- context [foldl _ ?x qs] =>
      destruct (IH x) as (H1 & H2 & H3) end.
    rewrite H1, H2, H3.
    destruct (Qtype q);
      [apply handleAQuery_header|apply handleSRVQuery_header|by cbn|by cbn]. }
  apply (H (Questions r) (mkMsg (take 1 (Questions r)) [] [] RcodeSuccess true)).
Qed.

End Records.

(** The test of [isClusterDomainQuery] passes only against a zone
    configured in lower case. *)
Lemma zone_test_lowercase (s : Server) (name : string) :
  HasSuffix (ToLower name) ("." +:+ clusterDomain s)
  || String.eqb (ToLower name) (clusterDomain s) = true ->
  ToLower (clusterDomain s) = clusterDomain s.
Proof.
  intros [H|H]%orb_true_iff.
  - apply GoStringsFacts.HasSuffix_true in H as [x Hx].
    rewrite <- GoStringsFacts.append_assoc in Hx.
    by apply GoStringsFacts.lowercase_suffix in Hx.
  - apply String.eqb_eq in H. rewrite <- H. apply GoStringsFacts.ToLower_idem.
Qed.

(** X21.  A request one of whose question names, without its trailing dot
    and lower-cased, is the configured zone or ends in a dot followed by
    the configured zone, is never forwarded: handleDNS contacts no
    upstream, whatever the whitelist says, and the reply is authoritative,
    has rcode NOERROR (also for an unknown service) and carries the first
    question of the request. Only the name is lower-cased, the zone is
    compared as configured: with a zone that contains an upper-case letter
    no name passes the test and every request is forwarded. *)
Theorem cluster_queries_answered_locally exchange rr_accepts now s r :
  (forall q labels,
      q ∈ Questions r ->
      ToLower (TrimSuffix (qName q) ".") = clusterDomain s
      \/ ToLower (TrimSuffix (qName q) ".") = labels +:+ "." +:+ clusterDomain s ->
      snd (handleDNS exchange rr_accepts now s r) = []
      /\ Authoritative (fst (handleDNS exchange rr_accepts now s r)) = true
      /\ MsgRcode (fst (handleDNS exchange rr_accepts now s r)) = RcodeSuccess
      /\ Questions (fst (handleDNS exchange rr_accepts now s r)) = take 1 (Questions r))
  /\ (ToLower (clusterDomain s) <> clusterDomain s ->
      handleDNS exchange rr_accepts now s r = forwardQuery exchange s r).
Proof.
  split.
  - intros q labels Hq Hname.
    assert (Hc : isClusterDomainQuery s (Questions r) = true).
    { unfold isClusterDomainQuery. apply existsb_exists. exists q.
      split; [by apply list_elem_of_In|]. cbv zeta.
      destruct Hname as [-> | ->].
      - rewrite String.eqb_refl. apply orb_true_r.
      - by rewrite GoStringsFacts.HasSuffix_append. }
    unfold handleDNS. rewrite Hc. cbn [fst snd].
    destruct (handleClusterQuery_header rr_accepts now s r) as (H1 & H2 & H3).
    auto.
  - intros Hupper. unfold handleDNS.
    destruct (isClusterDomainQuery s (Questions r)) eqn:Hc; [|reflexivity].
    exfalso. apply Hupper. unfold isClusterDomainQuery in Hc.
    apply existsb_exists in Hc as (q & _ & Hq).
    by apply (zone_test_lowercase s (TrimSuffix (qName q) ".")).
Qed.

Lemma cluster_queries_answered_locally_witness :
  snd (handleDNS Examples.network Examples.acceptAll Examples.queryTime Examples.guarded
         (Examples.query "No-Such.Default.Cluster.Local.")) = []
  /\ MsgRcode (fst (handleDNS Examples.network Examples.acceptAll Examples.queryTime
                      Examples.guarded
                      (Examples.query "No-Such.Default.Cluster.Local.")))
     = RcodeSuccess.
Proof.
  destruct (cluster_queries_answered_locally Examples.network Examples.acceptAll
              Examples.queryTime Examples.guarded
              (Examples.query "No-Such.Default.Cluster.Local.")) as [Hlocal _].
  destruct (Hlocal (mkQuestion "No-Such.Default.Cluster.Local." TypeA)
                   "no-such.default") as (H1 & _ & H2 & _).
  - apply list_elem_of_here.
  - right. vm_compute. reflexivity.
  - split; [exact H1|exact H2].
Defined.

Lemma A_query_lists_fresh_endpoints_witness :
  Answer (Examples.answerA "postgres.default.cluster.local.")
  = [RR_A "postgres.default.cluster.local." 60 "10.0.1.1";
     RR_A "postgres.default.cluster.local." 60 "10.0.1.2"].
Proof.
  unfold Examples.answerA.
  rewrite (A_query_lists_fresh_endpoints Examples.acceptAll Examples.queryTime
             Examples.server Examples.emptyReply
             (mkQuestion "postgres.default.cluster.local." TypeA)
             "postgres" "default").
  - vm_compute. reflexivity.
  - vm_compute. reflexivity.
  - vm_compute. reflexivity.
  - vm_compute. reflexivity.
Defined.

End ClusterZone.

(* ================================================================== *)
(** ** Scheduling *)
(* ================================================================== *)
Module Scheduling.
Import Scheduler.

Lemma matchesSelector_spec (labels selector : gmap string string) :
  matchesSelector labels selector = true
  <-> forall key value, selector !! key = Some value -> labelOf labels key = value.
Proof.
  unfold matchesSelector. rewrite forallb_forall. split.
  - intros H key value Hl.
    apply String.eqb_eq. apply (H (key, value)).
    by apply list_elem_of_In, elem_of_map_to_list.
  - intros H [key value] Hin. apply list_elem_of_In, elem_of_map_to_list in Hin.
    apply String.eqb_eq. by apply H.
Qed.

Lemma forallb_false {A} (f : A -> bool) (l : list A) :
  forallb f l = false -> exists x, In x l /\ f x = false.
Proof.
  induction l as [|x l IH]; [discriminate|]. cbn [forallb].
  destruct (f x) eqn:E.
  - intros H. destruct (IH H) as (y & Hin & Hy). exists y. split; [by right|exact Hy].
  - intros _. exists x. split; [by left|exact E].
Qed.

Lemma matchesSelector_false (labels selector : gmap string string) :
  matchesSelector labels selector = false ->
  exists key value, selector !! key = Some value /\ labelOf labels key <> value.
Proof.
  intros H. apply forallb_false in H as ([key value] & Hin & Hne).
  apply list_elem_of_In, elem_of_map_to_list in Hin.
  exists key, value. split; [exact Hin|]. by apply String.eqb_neq.
Qed.

Lemma roster_member (c : Cluster.t) (node : Node.t) :
  In node (Cluster.GetNodes c) <-> exists name, Cluster.nodes c !! name = Some node.
Proof.
  unfold Cluster.GetNodes. rewrite <- list_elem_of_In, list_elem_of_fmap. split.
  - intros ([name n] & -> & H%elem_of_map_to_list). eauto.
  - intros [name H]. exists (name, node). split; [reflexivity|].
    by apply elem_of_map_to_list.
Qed.

Lemma placed (s : t) (pod : Pod.t) (nodeName : string) :
  let pod' := Pod.setNodeName pod nodeName in
  let s' := mk (<[Pod.ID pod' := pod']> (pods s)) in
  GetPod s' (Pod.ID pod) = Ok pod'
  /\ In pod' (GetPodsByNode s' nodeName)
  /\ (forall other, other <> Pod.ID pod -> GetPod s' other = GetPod s other).
Proof.
  intros pod' s'. subst s'.
  assert (Hid : Pod.ID pod' = Pod.ID pod) by (by destruct pod).
  assert (Hnode : Pod.NodeName pod' = nodeName) by (by destruct pod).
  rewrite Hid. split; [|split].
  - unfold GetPod. cbn [pods]. by rewrite lookup_insert_eq.
  - unfold GetPodsByNode. apply filter_In. split.
    + apply list_elem_of_In, list_elem_of_fmap. exists (Pod.ID pod, pod').
      split; [reflexivity|]. apply elem_of_map_to_list. cbn [pods].
      apply lookup_insert_eq.
    + rewrite Hnode. apply String.eqb_refl.
  - intros other Hne. unfold GetPod. cbn [pods].
    by rewrite lookup_insert_ne.
Qed.

(** X22.  SchedulePod either succeeds with a node of the cluster roster
    whose labels carry every key of the pod's node selector with the
    selector's value (a missing label reads as the empty string; an empty
    selector accepts any node), records the pod under its ID with NodeName
    set to that node so that GetPod and GetPodsByNode return it, and
    leaves every other pod as it was; or it fails, leaves the scheduler
    unchanged, and then every node of the roster violates the selector
    (with an empty selector: the roster is empty). *)
Theorem SchedulePod_spec Intn c s pod :
  match SchedulePod Intn c s pod with
  | (Ok (nodeName, pod'), s') =>
      (exists name node,
         Cluster.nodes c !! name = Some node /\ Node.Name node = nodeName
         /\ forall key value, Pod.NodeSelector pod !! key = Some value ->
                              labelOf (Node.Labels node) key = value)
      /\ pod' = Pod.setNodeName pod nodeName
      /\ GetPod s' (Pod.ID pod) = Ok pod'
      /\ In pod' (GetPodsByNode s' nodeName)
      /\ (forall other, other <> Pod.ID pod -> GetPod s' other = GetPod s other)
  | (Err _, s') =>
      s' = s
      /\ forall name node,
           Cluster.nodes c !! name = Some node ->
           exists key value, Pod.NodeSelector pod !! key = Some value
                             /\ labelOf (Node.Labels node) key <> value
  end.
Proof.
  unfold SchedulePod.
  destruct (0 <? size (Pod.NodeSelector pod))%nat eqn:Hsel.
  - unfold findNodeBySelector.
    destruct (List.find _ (Cluster.GetNodes c)) as [node|] eqn:Hf.
    + apply find_some in Hf as [Hin Hm].
      apply roster_member in Hin as [name Hin].
      split; [|split; [reflexivity|]].
      * exists name, node. split; [exact Hin|]. split; [reflexivity|].
        by apply matchesSelector_spec.
      * destruct (placed s pod (Node.Name node)) as (H1 & H2 & H3).
        replace (Pod.ID (Pod.setNodeName pod (Node.Name node))) with (Pod.ID pod) in *
          by (by destruct pod).
        auto.
    + split; [reflexivity|]. intros name node Hin.
      assert (Hm : matchesSelector (Node.Labels node) (Pod.NodeSelector pod) = false).
      { apply (find_none _ _ Hf). apply roster_member. eauto. }
      by apply matchesSelector_false.
  - assert (Hempty : Pod.NodeSelector pod = ∅).
    { apply Nat.ltb_ge in Hsel. apply map_size_empty_iff. lia. }
    destruct (nth_error (Cluster.GetNodes c) _) as [node|] eqn:Hn.
    + apply nth_error_In in Hn. apply roster_member in Hn as [name Hin].
      split; [|split; [reflexivity|]].
      * exists name, node. split; [exact Hin|]. split; [reflexivity|].
        intros key value. by rewrite Hempty, lookup_empty.
      * destruct (placed s pod (Node.Name node)) as (H1 & H2 & H3).
        replace (Pod.ID (Pod.setNodeName pod (Node.Name node))) with (Pod.ID pod) in *
          by (by destruct pod).
        auto.
    + split; [reflexivity|]. intros name node Hin. exfalso.
      apply nth_error_None in Hn.
      assert (Hin' : In node (Cluster.GetNodes c)) by (apply roster_member; eauto).
      destruct (Cluster.GetNodes c) as [|n0 l]; [contradiction|].
      pose proof (Nat.mod_upper_bound (Intn (length (n0 :: l))) (length (n0 :: l))
                    ltac:(discriminate)).
      lia.
Qed.

Lemma SchedulePod_spec_witness :
  exists pod' s',
    SchedulePod Examples.firstNode Examples.oneNode (mk ∅) Examples.postgresPod
    = (Ok ("node-1", pod'), s')
    /\ GetPod s' "p1" = Ok pod'.
Proof.
  pose proof (SchedulePod_spec Examples.firstNode Examples.oneNode (mk ∅)
                Examples.postgresPod) as H.
  destruct (SchedulePod Examples.firstNode Examples.oneNode (mk ∅)
              Examples.postgresPod) as [[[nodeName pod']|e] s'] eqn:E.
  - destruct H as (_ & _ & Hget & _).
    assert (nodeName = "node-1") as -> by (vm_compute in E; congruence).
    exists pod', s'. split; [reflexivity|exact Hget].
  - vm_compute in E. discriminate.
Defined.

End Scheduling.

(* ================================================================== *)
(** ** Recovery and deletion of manifests *)
(* ================================================================== *)
Module Manifests.
Import Api.

Section World.

Variable generateID : nat -> string.
Variable unixNow : nat -> Z.
Variable Intn : nat -> nat.
Variable podman : Podman.Client.
Variable now : Z.
Variable io : Storage.IO.

(** X23.  The replica loop of RecoverDeployments accounts for every
    replica: each index either appends one pod to the deployment or raises
    the failure count by one, so pods plus failures grow by exactly the
    number of replicas attempted, a failure never stops the loop, and the
    deployment's name, namespace and desired replica count are untouched. *)
Theorem recovery_accounts_for_every_replica a dep indices failedCount :
  let '(a', dep', failedCount') :=
    recoverReplicas generateID unixNow Intn podman a dep indices failedCount in
  (length (Deployment.Pods dep') + failedCount'
   = length (Deployment.Pods dep) + failedCount + length indices)%nat
  /\ (failedCount <= failedCount')%nat
  /\ Deployment.Name dep' = Deployment.Name dep
  /\ Deployment.Namespace dep' = Deployment.Namespace dep
  /\ Deployment.DesiredReplicas dep' = Deployment.DesiredReplicas dep.
Proof.
  revert a dep failedCount.
  induction indices as [|i rest IH]; intros a dep failedCount.
  - cbn [recoverReplicas length]. repeat split; lia.
  - cbn [recoverReplicas].
    destruct (replica generateID unixNow Intn podman a dep i) as [[pod|e] a1].
    + specialize (IH a1 (Deployment.setPods dep (Deployment.Pods dep ++ [pod]))
                     failedCount).
      destruct (recoverReplicas _ _ _ _ a1 _ rest failedCount) as [[a' dep'] f'].
      destruct IH as (H1 & H2 & H3 & H4 & H5).
      destruct dep. cbn in *. rewrite length_app in H1. cbn [length] in *.
      repeat split; try assumption; lia.
    + specialize (IH a1 dep (S failedCount)).
      destruct (recoverReplicas _ _ _ _ a1 dep rest (S failedCount)) as [[a' dep'] f'].
      destruct IH as (H1 & H2 & H3 & H4 & H5). cbn [length].
      repeat split; try assumption; lia.
Qed.

Variable encryptor : option (Discovery.Update -> result unit).

(** What the deployment branch of [DeleteManifest] asks of the runtime
    for one pod. *)
Lemma deletePod_frame a pod :
  let a' := deletePod a pod in
  cluster a' = cluster a /\ discovery a' = discovery a /\ ingress a' = ingress a
  /\ storage a' = storage a /\ deployments a' = deployments a
  /\ services a' = services a /\ ingresses a' = ingresses a
  /\ Scheduler.pods (scheduler a') = delete (Pod.ID pod) (Scheduler.pods (scheduler a))
  /\ runtimeCalls a'
     = runtimeCalls a
       ++ (if String.eqb (Pod.NodeName pod) (Cluster.GetLocalNodeName (cluster a))
           then [Podman.CallStop (Pod.ID pod); Podman.CallRemove (Pod.ID pod)]
           else []).
Proof.
  unfold deletePod.
  destruct (String.eqb (Pod.NodeName pod) (Cluster.GetLocalNodeName (cluster a)));
    cbn; repeat split; try reflexivity.
  - by rewrite <- app_assoc.
  - by rewrite app_nil_r.
Qed.

Lemma deletePods_frame pods a :
  let a' := foldl deletePod a pods in
  cluster a' = cluster a /\ discovery a' = discovery a /\ ingress a' = ingress a
  /\ storage a' = storage a /\ deployments a' = deployments a
  /\ services a' = services a /\ ingresses a' = ingresses a
  /\ Scheduler.pods (scheduler a')
     = foldl (fun m pod => delete (Pod.ID pod) m) (Scheduler.pods (scheduler a)) pods
  /\ runtimeCalls a'
     = runtimeCalls a
       ++ flat_map (fun pod =>
                      if String.eqb (Pod.NodeName pod)
                                    (Cluster.GetLocalNodeName (cluster a))
                      then [Podman.CallStop (Pod.ID pod); Podman.CallRemove (Pod.ID pod)]
                      else []) pods.
Proof.
  revert a. induction pods as [|pod pods IH]; intros a.
  - cbn. rewrite app_nil_r. repeat split; reflexivity.
  - cbn [foldl flat_map].
    destruct (deletePod_frame a pod) as (H1 & H2 & H3 & H4 & H5 & H6 & H7 & H8 & H9).
    destruct (IH (deletePod a pod)) as (I1 & I2 & I3 & I4 & I5 & I6 & I7 & I8 & I9).
    cbv zeta in *.
    rewrite I1, I2, I3, I4, I5, I6, I7, I8, I9, H1, H2, H3, H4, H5, H6, H7, H8, H9.
    rewrite <- app_assoc. repeat split; reflexivity.
Qed.

(** The service branch touches the discovery client only, whether its
    loop returns or panics. *)
Lemma deregisterPods_frame svc pods :
  forall a,
    let a' := snd (deregisterPods now encryptor svc pods a) in
    scheduler a' = scheduler a /\ cluster a' = cluster a /\ ingress a' = ingress a
    /\ storage a' = storage a /\ deployments a' = deployments a
    /\ services a' = services a /\ ingresses a' = ingresses a
    /\ runtimeCalls a' = runtimeCalls a.
Proof.
  induction pods as [|pod pods IH]; intros a.
  - cbn. repeat split; reflexivity.
  - cbn [deregisterPods]. cbv zeta.
    destruct (Scheduler.matchesSelector _ _); [|apply IH].
    destruct (Discovery.DeregisterService _ _ _ _ _) as [[r|what] d].
    + destruct (IH (withDiscovery a d)) as (I1 & I2 & I3 & I4 & I5 & I6 & I7 & I8).
      cbv zeta in *. rewrite I1, I2, I3, I4, I5, I6, I7, I8.
      repeat split; reflexivity.
    + cbn. repeat split; reflexivity.
Qed.

Lemma deleteIngress_frame a namespace name :
  let a' := deleteIngress a namespace name in
  scheduler a' = scheduler a /\ cluster a' = cluster a /\ discovery a' = discovery a
  /\ storage a' = storage a /\ deployments a' = deployments a
  /\ services a' = services a
  /\ ingresses a' = delete (nsKey namespace name) (ingresses a)
  /\ runtimeCalls a' = runtimeCalls a.
Proof.
  unfold deleteIngress. destruct (ingresses a !! nsKey namespace name) eqn:E; cbn.
  - repeat split; reflexivity.
  - rewrite delete_id by exact E. repeat split; reflexivity.
Qed.

(** The steps of [DeleteManifest].  The deployment branch is always
    done; the service is taken out of the cache, and the ingress branch
    reached, only when the loop of the service branch returns. *)
Lemma DeleteManifest_steps a namespace name :
  let key := nsKey namespace name in
  let out := DeleteManifest now encryptor a namespace name in
  deployments (snd out) = delete key (deployments a)
  /\ cluster (snd out) = cluster a /\ storage (snd out) = storage a
  /\ runtimeCalls (snd out)
     = runtimeCalls a
       ++ match deployments a !! key with
          | Some dep =>
              flat_map (fun pod =>
                          if String.eqb (Pod.NodeName pod)
                                        (Cluster.GetLocalNodeName (cluster a))
                          then [Podman.CallStop (Pod.ID pod);
                                Podman.CallRemove (Pod.ID pod)]
                          else []) (Deployment.Pods dep)
          | None => []
          end
  /\ Scheduler.pods (scheduler (snd out))
     = match deployments a !! key with
       | Some dep =>
           foldl (fun m pod => delete (Pod.ID pod) m) (Scheduler.pods (scheduler a))
                 (Deployment.Pods dep)
       | None => Scheduler.pods (scheduler a)
       end
  /\ match fst out with
     | Returned _ =>
         services (snd out) = delete key (services a)
         /\ ingresses (snd out) = delete key (ingresses a)
     | Panicked _ =>
         is_Some (services a !! key)
         /\ services (snd out) = services a
         /\ ingresses (snd out) = ingresses a
         /\ ingress (snd out) = ingress a
     end.
Proof.
  intros key out. subst out. unfold DeleteManifest. fold key. cbv zeta.
  set (a1 := match deployments a !! key with
             | Some dep => _
             | None => a
             end).
  assert (H1 : deployments a1 = delete key (deployments a)
               /\ services a1 = services a /\ ingresses a1 = ingresses a
               /\ cluster a1 = cluster a /\ storage a1 = storage a
               /\ ingress a1 = ingress a
               /\ runtimeCalls a1
                  = runtimeCalls a
                    ++ match deployments a !! key with
                       | Some dep =>
                           flat_map (fun pod =>
                                       if String.eqb (Pod.NodeName pod)
                                            (Cluster.GetLocalNodeName (cluster a))
                                       then [Podman.CallStop (Pod.ID pod);
                                             Podman.CallRemove (Pod.ID pod)]
                                       else []) (Deployment.Pods dep)
                       | None => []
                       end
               /\ Scheduler.pods (scheduler a1)
                  = match deployments a !! key with
                    | Some dep =>
                        foldl (fun m pod => delete (Pod.ID pod) m)
                              (Scheduler.pods (scheduler a)) (Deployment.Pods dep)
                    | None => Scheduler.pods (scheduler a)
                    end).
  { subst a1. destruct (deployments a !! key) as [dep|] eqn:E.
    - destruct (deletePods_frame (Deployment.Pods dep) a)
        as (F1 & F2 & F3 & F4 & F5 & F6 & F7 & F8 & F9).
      cbv zeta in *. cbn. rewrite F1, F3, F4, F5, F6, F7, F8, F9.
      repeat split; reflexivity.
    - rewrite app_nil_r, delete_id by exact E. repeat split; reflexivity. }
  destruct H1 as (D1 & D2 & D3 & D4 & D5 & D6 & D7 & D8).
  destruct (services a1 !! key) as [svc|] eqn:E.
  - destruct (deregisterPods_frame svc (Scheduler.GetAllPods (scheduler a1)) a1)
      as (F1 & F2 & F3 & F4 & F5 & F6 & F7 & F8).
    cbv zeta in *.
    destruct (deregisterPods _ _ _ _ _) as [[u|what] a2]; cbn [fst snd] in *.
    + destruct (deleteIngress_frame (withServices a2 (delete key (services a2)))
                  namespace name) as (G1 & G2 & G3 & G4 & G5 & G6 & G7 & G8).
      cbv zeta in *. fold key in G7. rewrite G1, G2, G4, G5, G6, G7, G8. cbn.
      rewrite F1, F2, F4, F5, F6, F7, F8, D1, D2, D3, D4, D5, D7, D8.
      repeat split; reflexivity.
    + rewrite F1, F2, F3, F4, F5, F6, F7, F8, D1, D2, D3, D4, D5, D6, D7, D8.
      rewrite <- D2, E. repeat split; eauto.
  - cbn [fst snd].
    destruct (deleteIngress_frame a1 namespace name)
      as (G1 & G2 & G3 & G4 & G5 & G6 & G7 & G8).
    cbv zeta in *. fold key in G7. rewrite G1, G2, G4, G5, G6, G7, G8.
    rewrite D1, D3, D4, D5, D7, D8.
    rewrite <- (delete_id (services a1) key E), D2.
    repeat split; reflexivity.
Qed.



Lemma forgotten (pods : list Pod.t) (m : gmap string Pod.t) (id : string) :
  foldl (fun m pod => delete (Pod.ID pod) m) m pods !! id
  = if bool_decide (id ∈ Pod.ID <$> pods) then None else m !! id.
Proof.
  revert m. induction pods as [|pod pods IH]; intros m; [reflexivity|].
  cbn [foldl]. rewrite IH, fmap_cons.
  destruct (decide (id = Pod.ID pod)) as [->|Hne].
  - rewrite lookup_delete_eq.
    rewrite (bool_decide_eq_true_2 (Pod.ID pod ∈ Pod.ID pod :: (Pod.ID <$> pods)))
      by apply list_elem_of_here.
    by destruct (bool_decide _).
  - rewrite lookup_delete_ne by congruence.
    destruct (decide (id ∈ Pod.ID <$> pods)) as [Hin|Hnin].
    + rewrite !bool_decide_eq_true_2; [reflexivity| |exact Hin].
      by apply list_elem_of_further.
    + rewrite !bool_decide_eq_false_2; [reflexivity| |exact Hnin].
      intros [H|H]%elem_of_cons; contradiction.
Qed.

(** X25.  Deleting a deployment asks the container runtime, in pod order,
    to stop and then remove exactly the deployment's pods that run on the
    local node, and nothing else, and the deployment is gone from the
    API's table, whether the rest of the delete returns or panics. The
    scheduler is asked to remove each pod by the pod's ID: its table
    afterwards is the old one without the keys that are the ID of a pod of
    the deployment, and every entry under another key stays. A pod created
    on the local node has the container id for ID while the scheduler
    keeps it under the id generated at scheduling, so its entry stays (on
    the example, nginx-0 is still in the scheduler after the delete). *)
Theorem delete_stops_local_pods a namespace name dep :
  deployments a !! nsKey namespace name = Some dep ->
  let a' := snd (DeleteManifest now encryptor a namespace name) in
  runtimeCalls a'
  = runtimeCalls a
    ++ flat_map (fun pod =>
                   if String.eqb (Pod.NodeName pod) (Cluster.GetLocalNodeName (cluster a))
                   then [Podman.CallStop (Pod.ID pod); Podman.CallRemove (Pod.ID pod)]
                   else []) (Deployment.Pods dep)
  /\ (forall id,
        Scheduler.pods (scheduler a') !! id
        = if bool_decide (id ∈ Pod.ID <$> Deployment.Pods dep) then None
          else Scheduler.pods (scheduler a) !! id)
  /\ (forall id pod,
        Scheduler.pods (scheduler a) !! id = Some pod ->
        id ∉ Pod.ID <$> Deployment.Pods dep ->
        Scheduler.GetPod (scheduler a') id = Ok pod)
  /\ deployments a' !! nsKey namespace name = None.
Proof.
  intros Hdep a'.
  destruct (DeleteManifest_steps a namespace name) as (Hd & _ & _ & Hc & Hp & _).
  cbv zeta in *. fold a' in Hd, Hc, Hp. rewrite Hdep in Hc, Hp.
  split; [exact Hc|]. split; [|split].
  - intros id. rewrite Hp. apply forgotten.
  - intros id pod Hpod Hid. unfold Scheduler.GetPod.
    by rewrite Hp, forgotten, bool_decide_eq_false_2, Hpod.
  - rewrite Hd. apply lookup_delete_eq.
Qed.

End World.


(** On the recovered agent: the container of [nginx-0] is stopped and
    removed under its container id, and the scheduler still holds the pod
    under the generated id [id-0]. *)
Lemma delete_stops_local_pods_witness :
  runtimeCalls Examples.afterDelete
  = runtimeCalls Examples.recovered
    ++ [Podman.CallStop "ctr-nginx-0"; Podman.CallRemove "ctr-nginx-0"]
  /\ exists pod,
       Scheduler.GetPod (scheduler Examples.afterDelete) "id-0" = Ok pod
       /\ Pod.Name pod = "nginx-0" /\ Pod.ID pod = "ctr-nginx-0".
Proof.
  destruct (deployments Examples.recovered !! "default/nginx") as [dep|] eqn:E;
    [|vm_compute in E; discriminate].
  destruct (delete_stops_local_pods 70 Examples.sealing Examples.recovered
              "default" "nginx" dep E) as (H & _ & Hkeep & _).
  vm_compute in E. injection E as <-. split.
  - unfold Examples.afterDelete. rewrite H. f_equal.
  - eexists. split.
    + apply Hkeep; [vm_compute; reflexivity|].
      apply (bool_decide_unpack _). vm_compute. exact I.
    + split; reflexivity.
Defined.

End Manifests.

(* ================================================================== *)
(** ** Leadership *)
(* ================================================================== *)
Module Leadership.
Import Cluster.

Lemma ascii_compare_trans (a b c : ascii) :
  Ascii.compare a b = Lt -> Ascii.compare b c = Lt -> Ascii.compare a c = Lt.
Proof.
  unfold Ascii.compare. rewrite !N.compare_lt_iff. lia.
Qed.

Lemma compare_trans (s1 s2 s3 : string) :
  String.compare s1 s2 = Lt -> String.compare s2 s3 = Lt -> String.compare s1 s3 = Lt.
Proof.
  revert s2 s3. induction s1 as [|a s1 IH]; intros [|b s2] [|c s3]; cbn;
    try discriminate; try reflexivity.
  destruct (Ascii.compare a b) eqn:Eab; try discriminate.
  - apply Ascii.compare_eq_iff in Eab as ->.
    destruct (Ascii.compare b c) eqn:Ebc; try discriminate; [apply IH|reflexivity].
  - intros _. destruct (Ascii.compare b c) eqn:Ebc; try discriminate.
    + apply Ascii.compare_eq_iff in Ebc as <-. by rewrite Eab.
    + by rewrite (ascii_compare_trans a b c Eab Ebc).
Qed.

Lemma ltb_false_leb (a b : string) : String.ltb a b = false -> String.leb b a = true.
Proof.
  unfold String.ltb, String.leb. rewrite (String.compare_antisym b a).
  by destruct (String.compare a b).
Qed.

(** A least name of a non-empty list. *)
Lemma least_member (members : list string) :
  members <> [] ->
  exists a, a ∈ members /\ forall m, m ∈ members -> String.ltb m a = false.
Proof.
  induction members as [|x members IH]; [contradiction|]. intros _.
  destruct members as [|y members].
  - exists x. split; [apply list_elem_of_here|].
    intros m ->%list_elem_of_singleton. unfold String.ltb.
    assert (H : String.compare x x = Eq).
    { pose proof (String.compare_antisym x x) as H.
      destruct (String.compare x x); try reflexivity; discriminate. }
    by rewrite H.
  - destruct (IH ltac:(discriminate)) as (a & Hin & Hmin).
    destruct (String.ltb x a) eqn:E.
    + exists x. split; [apply list_elem_of_here|].
      intros m [->|Hm]%elem_of_cons.
      * unfold String.ltb in *.
        pose proof (String.compare_antisym x x) as H.
        destruct (String.compare x x); try reflexivity; discriminate.
      * specialize (Hmin m Hm). unfold String.ltb in *.
        destruct (String.compare m x) eqn:Emx; try reflexivity.
        destruct (String.compare x a) eqn:Exa; try discriminate.
        by rewrite (compare_trans m x a Emx Exa) in Hmin.
    + exists a. split; [by apply list_elem_of_further|].
      intros m [->|Hm]%elem_of_cons; [exact E|by apply Hmin].
Qed.

Lemma IsLeader_spec (members : list string) (localName : string) :
  IsLeader members localName = true
  <-> members <> [] /\ forall m, m ∈ members -> String.ltb m localName = false.
Proof.
  unfold IsLeader. destruct members as [|x members].
  - cbn. split; [discriminate|]. by intros [H _].
  - cbn [length Nat.eqb]. rewrite forallb_forall. split.
    + intros H. split; [discriminate|]. intros m Hm.
      apply negb_true_iff. apply H. by apply list_elem_of_In.
    + intros [_ H] m Hm. apply negb_true_iff. apply H. by apply list_elem_of_In.
Qed.

(** X26.  IsLeader elects at most one member: two members of the same
    member list that both consider themselves leader have the same name;
    every non-empty member list has a member that is leader (the least
    name in byte order); with no members nobody is leader. *)
Theorem one_leader (members : list string) :
  (forall a b, a ∈ members -> b ∈ members ->
               IsLeader members a = true -> IsLeader members b = true -> a = b)
  /\ (members <> [] -> exists a, a ∈ members /\ IsLeader members a = true)
  /\ (forall a, IsLeader [] a = false).
Proof.
  split; [|split].
  - intros a b Ha Hb [_ La]%IsLeader_spec [_ Lb]%IsLeader_spec.
    apply String.leb_antisym; apply ltb_false_leb; auto.
  - intros Hne. destruct (least_member members Hne) as (a & Hin & Hmin).
    exists a. split; [exact Hin|]. by apply IsLeader_spec.
  - reflexivity.
Qed.

End Leadership.

(* ================================================================== *)
(** ** Ingress routing *)
(* ================================================================== *)
Module Routing.
Import Ingress IngressRouting.

Lemma substring_String (c : ascii) (n : nat) (s : string) :
  substring 0 (S n) (String c s) = String c (substring 0 n s).
Proof. reflexivity. Qed.

Lemma hasPathPrefix_spec (requestPath ingressPath : string) :
  hasPathPrefix requestPath ingressPath = true
  <-> exists rest, requestPath = ingressPath +:+ rest.
Proof.
  unfold hasPathPrefix. revert requestPath.
  induction ingressPath as [|c p IH]; intros r.
  - cbn [String.length]. split.
    + intros _. exists r. by rewrite GoStringsFacts.append_empty_l.
    + intros _. by destruct r.
  - cbn [String.length]. destruct r as [|d r].
    + split; [discriminate|]. intros [rest H].
      rewrite GoStringsFacts.append_String in H. discriminate.
    + cbn [String.length]. rewrite substring_String. cbn [String.eqb].
      change (S (String.length p) <=? S (String.length r))%nat
        with (String.length p <=? String.length r)%nat.
      destruct (Ascii.eqb d c) eqn:E.
      * apply Ascii.eqb_eq in E as ->. rewrite IH. split.
        -- intros [rest ->]. exists rest. by rewrite GoStringsFacts.append_String.
        -- intros [rest H]. rewrite GoStringsFacts.append_String in H.
           injection H as ->. eauto.
      * rewrite andb_false_r. split; [discriminate|].
        intros [rest H]. rewrite GoStringsFacts.append_String in H.
        injection H as -> _. by rewrite Ascii.eqb_refl in E.
Qed.

(** X27.  matchesPath accepts a request path exactly when the ingress path
    is empty (whatever the path type, Exact included), or the type is
    Exact and the two paths are equal, or the type is absent, Prefix or
    ImplementationSpecific and the ingress path is a plain string prefix
    of the request path (not a segment prefix: /api matches /apiary); any
    other path type matches nothing. *)
Theorem matchesPath_spec (requestPath ingressPath : string) (pathType : option string) :
  matchesPath requestPath ingressPath pathType = true
  <-> ingressPath = EmptyString
      \/ (pathType = Some "Exact" /\ requestPath = ingressPath)
      \/ ((pathType = None \/ pathType = Some "Prefix"
           \/ pathType = Some "ImplementationSpecific")
          /\ exists rest, requestPath = ingressPath +:+ rest).
Proof.
  unfold matchesPath.
  destruct (String.eqb ingressPath EmptyString) eqn:E0.
  { apply String.eqb_eq in E0. tauto. }
  apply String.eqb_neq in E0.
  destruct pathType as [ty|].
  - destruct (String.eqb ty "Exact") eqn:E1.
    { apply String.eqb_eq in E1 as ->. rewrite String.eqb_eq. split.
      - intros ->. right. left. auto.
      - intros [H|[[_ H]|[[H|[H|H]] _]]]; try congruence; discriminate. }
    apply String.eqb_neq in E1.
    destruct (String.eqb ty "Prefix") eqn:E2.
    { apply String.eqb_eq in E2 as ->. rewrite hasPathPrefix_spec. split.
      - intros H. right. right. auto.
      - intros [H|[[H _]|[_ H]]]; [contradiction|discriminate|exact H]. }
    apply String.eqb_neq in E2.
    destruct (String.eqb ty "ImplementationSpecific") eqn:E3.
    { apply String.eqb_eq in E3 as ->. rewrite hasPathPrefix_spec. split.
      - intros H. right. right. auto.
      - intros [H|[[H _]|[_ H]]]; [contradiction|discriminate|exact H]. }
    apply String.eqb_neq in E3.
    split; [discriminate|].
    intros [H|[[H _]|[[H|[H|H]] _]]]; congruence.
  - rewrite hasPathPrefix_spec. split.
    + intros H. right. right. auto.
    + intros [H|[[H _]|[_ H]]]; [contradiction|discriminate|exact H].
Qed.

Lemma matchRule_Some host path rule p :
  matchRule host path rule = Some p ->
  (Host rule = host \/ Host rule = EmptyString)
  /\ p ∈ Paths rule /\ matchesPath path (Path p) (PathType p) = true.
Proof.
  unfold matchRule.
  destruct (String.eqb (Host rule) host || String.eqb (Host rule) EmptyString)
    eqn:E; [|discriminate].
  intros [Hin Hm]%find_some. split; [|split; [by apply list_elem_of_In|exact Hm]].
  apply orb_true_iff in E as [E|E]; apply String.eqb_eq in E; auto.
Qed.

Lemma matchRule_None host path rule p :
  matchRule host path rule = None ->
  Host rule = host \/ Host rule = EmptyString -> p ∈ Paths rule ->
  matchesPath path (Path p) (PathType p) = false.
Proof.
  unfold matchRule. intros H Hhost Hin.
  assert (E : String.eqb (Host rule) host || String.eqb (Host rule) EmptyString = true).
  { apply orb_true_iff. destruct Hhost as [->| ->]; rewrite String.eqb_refl; auto. }
  rewrite E in H.
  apply (find_none _ _ H p). by apply list_elem_of_In.
Qed.

Lemma matchRules_Some host path rules p :
  matchRules host path rules = Some p ->
  exists rule, rule ∈ rules
               /\ (Host rule = host \/ Host rule = EmptyString)
               /\ p ∈ Paths rule /\ matchesPath path (Path p) (PathType p) = true.
Proof.
  induction rules as [|rule rules IH]; [discriminate|]. cbn [matchRules].
  destruct (matchRule host path rule) as [p'|] eqn:E.
  - intros [= ->]. exists rule. split; [apply list_elem_of_here|].
    by apply matchRule_Some.
  - intros H. destruct (IH H) as (rule' & Hin & Hrest).
    exists rule'. split; [by apply list_elem_of_further|exact Hrest].
Qed.

Lemma matchRules_None host path rules rule p :
  matchRules host path rules = None -> rule ∈ rules ->
  Host rule = host \/ Host rule = EmptyString -> p ∈ Paths rule ->
  matchesPath path (Path p) (PathType p) = false.
Proof.
  induction rules as [|rule' rules IH]; [by intros _ ?%elem_of_nil|].
  cbn [matchRules].
  destruct (matchRule host path rule') eqn:E; [discriminate|].
  intros H [->|Hin]%elem_of_cons Hhost Hp.
  - by apply (matchRule_None host path rule').
  - by apply IH.
Qed.

Lemma matchIngresses_Some host path ingresses ingress p :
  matchIngresses host path ingresses = Some (ingress, p) ->
  ingress ∈ ingresses
  /\ exists rule, rule ∈ Rules ingress
                  /\ (Host rule = host \/ Host rule = EmptyString)
                  /\ p ∈ Paths rule
                  /\ matchesPath path (Path p) (PathType p) = true.
Proof.
  induction ingresses as [|i ingresses IH]; [discriminate|]. cbn [matchIngresses].
  destruct (matchRules host path (Rules i)) as [p'|] eqn:E.
  - intros [= -> ->]. split; [apply list_elem_of_here|].
    by apply matchRules_Some.
  - intros H. destruct (IH H) as [Hin Hrest].
    split; [by apply list_elem_of_further|exact Hrest].
Qed.

Lemma matchIngresses_None host path ingresses ingress rule p :
  matchIngresses host path ingresses = None -> ingress ∈ ingresses ->
  rule ∈ Rules ingress -> Host rule = host \/ Host rule = EmptyString ->
  p ∈ Paths rule -> matchesPath path (Path p) (PathType p) = false.
Proof.
  induction ingresses as [|i ingresses IH]; [by intros _ ?%elem_of_nil|].
  cbn [matchIngresses].
  destruct (matchRules host path (Rules i)) eqn:E; [discriminate|].
  intros H [->|Hin]%elem_of_cons Hrule Hhost Hp.
  - by apply (matchRules_None host path (Rules i) rule).
  - by apply IH.
Qed.

Lemma rule_member (ic : IngressController.t) (ingress : Ingress.t) :
  ingress ∈ (snd <$> map_to_list (IngressController.rules ic))
  <-> exists key, IngressController.rules ic !! key = Some ingress.
Proof.
  rewrite list_elem_of_fmap. split.
  - intros ([key i] & -> & H%elem_of_map_to_list). eauto.
  - intros [key H]. exists (key, ingress). split; [reflexivity|].
    by apply elem_of_map_to_list.
Qed.

(** X28.  The rule search of handleRequest: the request is answered 404
    exactly when no rule of any ingress for this host (or for no host) has
    a path matching the request, independently of the order the rules are
    visited in; otherwise a rule with a matching path was chosen and the
    endpoints of its service are looked up in the namespace of the chosen
    ingress: 503 when the service is unknown or has no fresh endpoint,
    else the non-empty endpoint list GetServiceEndpoints returned goes on
    to the backend choice. *)
Theorem route_spec now ic d host path :
  match route now ic d host path with
  | NotFound =>
      forall key ingress rule p,
        IngressController.rules ic !! key = Some ingress -> rule ∈ Rules ingress ->
        Host rule = host \/ Host rule = EmptyString -> p ∈ Paths rule ->
        matchesPath path (Path p) (PathType p) = false
  | ServiceUnavailable =>
      exists key ingress rule p,
        IngressController.rules ic !! key = Some ingress /\ rule ∈ Rules ingress
        /\ (Host rule = host \/ Host rule = EmptyString) /\ p ∈ Paths rule
        /\ matchesPath path (Path p) (PathType p) = true
        /\ (Discovery.GetServiceEndpoints now d (ServiceName p) (Namespace ingress)
            = Err "service not found"
            \/ Discovery.GetServiceEndpoints now d (ServiceName p) (Namespace ingress)
               = Ok [])
  | Backends ingress p endpoints =>
      (exists key rule,
         IngressController.rules ic !! key = Some ingress /\ rule ∈ Rules ingress
         /\ (Host rule = host \/ Host rule = EmptyString) /\ p ∈ Paths rule
         /\ matchesPath path (Path p) (PathType p) = true)
      /\ Discovery.GetServiceEndpoints now d (ServiceName p) (Namespace ingress)
         = Ok endpoints
      /\ endpoints <> []
  end.
Proof.
  unfold route.
  destruct (matchIngresses host path _) as [[ingress p]|] eqn:E.
  - apply matchIngresses_Some in E as [Hin (rule & Hrule & Hhost & Hp & Hm)].
    apply rule_member in Hin as [key Hkey].
    destruct (Discovery.GetServiceEndpoints now d (ServiceName p) (Namespace ingress))
      as [[|e eps]|err] eqn:Eg.
    + cbn [length Nat.eqb]. exists key, ingress, rule, p. auto 10.
    + cbn [length Nat.eqb]. split; [eauto 10|]. split; [exact Eg|discriminate].
    + exists key, ingress, rule, p.
      assert (err = "service not found") as ->.
      { unfold Discovery.GetServiceEndpoints in Eg.
        destruct (Discovery.services d !! _); congruence. }
      auto 10.
  - intros key ingress rule p Hkey.
    apply (matchIngresses_None host path _ ingress rule p E).
    apply rule_member. eauto.
Qed.

Lemma matchesPath_spec_witness :
  matchesPath "/apiary" "/api" (Some "Prefix") = true
  /\ matchesPath "/other" EmptyString (Some "Exact") = true.
Proof.
  split.
  - apply (proj2 (matchesPath_spec "/apiary" "/api" (Some "Prefix"))).
    right. right. split; [auto|]. exists "ary". reflexivity.
  - apply (proj2 (matchesPath_spec "/other" EmptyString (Some "Exact"))).
    left. reflexivity.
Defined.

End Routing.

(* ================================================================== *)
(** ** Whitelist management *)
(* ================================================================== *)
Module WhitelistApi.
Import GoStrings Dns DnsApi WhitelistSpec.

(** A normalized name that does not end in a dot is its own normal form. *)
Lemma normalizeHost_idem (h : string) :
  HasSuffix (normalizeHost h) "." = false ->
  normalizeHost (normalizeHost h) = normalizeHost h.
Proof.
  intros H. unfold normalizeHost at 1.
  rewrite (GoStringsFacts.TrimSuffix_without _ _ H).
  unfold normalizeHost. apply GoStringsFacts.ToLower_idem.
Qed.

Lemma collected (hosts : list string) (acc : list string) (x : string) :
  x ∈ foldl (fun hosts host =>
               let normalized := TrimSuffix host "." in
               if bool_decide (normalized ∈ hosts) then hosts
               else hosts ++ [normalized]) acc hosts
  <-> x ∈ acc \/ exists d, d ∈ hosts /\ x = TrimSuffix d ".".
Proof.
  revert acc. induction hosts as [|d hosts IH]; intros acc.
  - cbn [foldl]. split; [auto|]. intros [H|(d & Hd & _)]; [exact H|].
    by apply elem_of_nil in Hd.
  - cbn [foldl]. cbv zeta. rewrite IH. split.
    + intros [H|(d' & Hd' & ->)].
      * destruct (bool_decide _); [auto|].
        apply elem_of_app in H as [H|H]; [auto|].
        apply list_elem_of_singleton in H as ->. right. exists d.
        split; [apply list_elem_of_here|reflexivity].
      * right. exists d'. split; [by apply list_elem_of_further|reflexivity].
    + intros [H|(d' & Hd' & ->)].
      * left. destruct (bool_decide _); [exact H|]. apply elem_of_app. auto.
      * apply elem_of_cons in Hd' as [->|Hd'].
        -- left. destruct (bool_decide (TrimSuffix d "." ∈ acc)) eqn:E.
           ++ by apply bool_decide_eq_true in E.
           ++ apply elem_of_app. right. by apply list_elem_of_singleton.
        -- right. eauto.
Qed.

Lemma collected_NoDup (hosts : list string) (acc : list string) :
  NoDup acc ->
  NoDup (foldl (fun hosts host =>
                  let normalized := TrimSuffix host "." in
                  if bool_decide (normalized ∈ hosts) then hosts
                  else hosts ++ [normalized]) acc hosts).
Proof.
  revert acc. induction hosts as [|d hosts IH]; intros acc Hacc; [exact Hacc|].
  cbn [foldl]. cbv zeta. apply IH.
  destruct (bool_decide (TrimSuffix d "." ∈ acc)) eqn:E; [exact Hacc|].
  apply bool_decide_eq_false in E.
  apply NoDup_app. split; [exact Hacc|]. split.
  - intros x Hx ->%list_elem_of_singleton. contradiction.
  - apply NoDup_singleton.
Qed.

Lemma GetWhitelist_elem (s : Server) (x : string) :
  x ∈ snd (GetWhitelist s) <-> exists d, d ∈ Hosts (whitelist s) /\ x = TrimSuffix d ".".
Proof.
  unfold GetWhitelist. cbn [snd]. rewrite collected. split.
  - intros [H|(d & Hd & ->)]; [by apply elem_of_nil in H|].
    exists d. split; [by apply elem_of_elements|reflexivity].
  - intros (d & Hd & ->). right. exists d. split; [by apply elem_of_elements|reflexivity].
Qed.

(** What [GetWhitelist] returns after [SetWhitelist] of well-formed
    hosts: the normalized hosts. *)
Lemma GetWhitelist_SetWhitelist (s : Server) (enabled : bool) (hosts : list string)
    (x : string) :
  wellFormed hosts ->
  x ∈ snd (GetWhitelist (SetWhitelist s enabled hosts))
  <-> exists h, h ∈ hosts /\ x = normalizeHost h.
Proof.
  intros Hwf. rewrite GetWhitelist_elem. split.
  - intros (d & Hd & ->). apply Whitelist.SetWhitelist_hosts in Hd as (h & Hh & [->| ->]).
    + exists h. split; [exact Hh|]. by apply GoStringsFacts.TrimSuffix_without, Hwf.
    + exists h. split; [exact Hh|]. apply GoStringsFacts.TrimSuffix_append.
  - intros (h & Hh & ->). exists (normalizeHost h). split.
    + apply Whitelist.SetWhitelist_hosts. eauto.
    + symmetry. by apply GoStringsFacts.TrimSuffix_without, Hwf.
Qed.

(** X29.  After SetWhitelist with ASCII hosts none of which ends in two
    dots (on ASCII text Go's strings.ToLower is the byte-wise mapping of
    A-Z the model uses), GetWhitelist returns the enabled flag and the
    normalized hosts (lower case, one trailing dot removed), each exactly
    once, in an order of its own; feeding that list back to SetWhitelist
    reproduces the stored host set. *)
Theorem whitelist_round_trip (s : Server) (enabled : bool) (hosts : list string) :
  Forall (fun h => isASCII h = true) hosts ->
  wellFormed hosts ->
  let s' := SetWhitelist s enabled hosts in
  fst (GetWhitelist s') = enabled
  /\ NoDup (snd (GetWhitelist s'))
  /\ (forall x, x ∈ snd (GetWhitelist s') <-> exists h, h ∈ hosts /\ x = normalizeHost h)
  /\ Hosts (whitelist (SetWhitelist s' enabled (snd (GetWhitelist s'))))
     = Hosts (whitelist s').
Proof.
  intros _ Hwf s'. split; [reflexivity|]. split; [|split].
  - unfold GetWhitelist. cbn [snd]. apply collected_NoDup, NoDup_nil_2.
  - intros x. by apply GetWhitelist_SetWhitelist.
  - subst s'. apply set_eq. intros d. rewrite !Whitelist.SetWhitelist_hosts. split.
    + intros (x & Hx & Hd).
      apply (GetWhitelist_SetWhitelist s enabled hosts x Hwf) in Hx as (h & Hh & ->).
      exists h. split; [exact Hh|].
      rewrite normalizeHost_idem in Hd; [exact Hd|by apply Hwf].
    + intros (h & Hh & Hd). exists (normalizeHost h). split.
      * apply (GetWhitelist_SetWhitelist s enabled hosts _ Hwf). eauto.
      * rewrite normalizeHost_idem; [exact Hd|by apply Hwf].
Qed.

Lemma existsb_eqb (host : string) (hosts : list string) :
  existsb (fun h => String.eqb h host) hosts = true <-> host ∈ hosts.
Proof.
  rewrite existsb_exists. split.
  - intros (h & Hin & ->%String.eqb_eq). by apply list_elem_of_In.
  - intros H. exists host. split; [by apply list_elem_of_In|apply String.eqb_refl].
Qed.

(** X30.  On a whitelist set from ASCII hosts none of which ends in two
    dots, AddDNSWhitelistHost with a non-empty ASCII host answers 200,
    keeps the enabled flag and every stored name, and adds the normalized
    host with and without trailing dot; RemoveDNSWhitelistHost answers
    200, keeps the flag, and keeps exactly the entries of the listed hosts
    whose normalized form differs from the given text, so a host is
    removed only when it is given in normalized form (given in upper case
    or with a trailing dot, nothing is removed). On ASCII text Go's
    strings.ToLower is the byte-wise mapping of A-Z the model uses. *)
Theorem whitelist_add_remove (s : Server) (enabled : bool) (hosts : list string)
    (host : string) :
  Forall (fun h => isASCII h = true) hosts -> isASCII host = true ->
  wellFormed hosts -> host <> EmptyString ->
  let s' := SetWhitelist s enabled hosts in
  let added := snd (AddDNSWhitelistHost s' host) in
  let removed := snd (RemoveDNSWhitelistHost s' host) in
  fst (AddDNSWhitelistHost s' host) = 200
  /\ Enabled (whitelist added) = enabled
  /\ (forall d, d ∈ Hosts (whitelist added)
                <-> d ∈ Hosts (whitelist s')
                    \/ d = normalizeHost host \/ d = normalizeHost host +:+ ".")
  /\ fst (RemoveDNSWhitelistHost s' host) = 200
  /\ Enabled (whitelist removed) = enabled
  /\ (forall d, d ∈ Hosts (whitelist removed)
                <-> exists h, h ∈ hosts /\ normalizeHost h <> host
                              /\ (d = normalizeHost h \/ d = normalizeHost h +:+ ".")).
Proof.
  intros _ _ Hwf Hne s' added removed.
  apply String.eqb_neq in Hne.
  assert (Hidem : forall x, x ∈ snd (GetWhitelist s') -> normalizeHost x = x).
  { intros x Hx. apply (GetWhitelist_SetWhitelist s enabled hosts x Hwf) in Hx
      as (h & Hh & ->). by apply normalizeHost_idem, Hwf. }
  split; [|split; [|split; [|split; [|split]]]].
  - unfold AddDNSWhitelistHost. by rewrite Hne.
  - subst added. unfold AddDNSWhitelistHost. by rewrite Hne.
  - intros d. subst added. unfold AddDNSWhitelistHost. rewrite Hne.
    change (GetWhitelist s') with (fst (GetWhitelist s'), snd (GetWhitelist s')).
    cbv iota beta zeta. cbn [snd].
    rewrite Whitelist.SetWhitelist_hosts.
    subst s'. rewrite (Whitelist.SetWhitelist_hosts s enabled hosts d).
    set (listed := snd (GetWhitelist (SetWhitelist s enabled hosts))) in *.
    split.
    + intros (x & Hx & Hd).
      assert (Hcase : x ∈ listed \/ x = host).
      { destruct (existsb _ listed); [auto|].
        apply elem_of_app in Hx as [Hx|Hx]; [auto|].
        apply list_elem_of_singleton in Hx. auto. }
      destruct Hcase as [Hl| ->]; [|auto].
      left. rewrite (Hidem x Hl) in Hd.
      apply (GetWhitelist_SetWhitelist s enabled hosts x Hwf) in Hl as (h & Hh & ->).
      eauto.
    + intros [(h & Hh & Hd)|Hd].
      * exists (normalizeHost h).
        assert (Hl : normalizeHost h ∈ listed).
        { apply (GetWhitelist_SetWhitelist s enabled hosts _ Hwf). eauto. }
        split.
        -- destruct (existsb _ listed); [exact Hl|]. apply elem_of_app. auto.
        -- by rewrite (Hidem _ Hl).
      * exists host. split; [|exact Hd].
        destruct (existsb _ listed) eqn:E.
        -- by apply existsb_eqb.
        -- apply elem_of_app. right. by apply list_elem_of_singleton.
  - unfold RemoveDNSWhitelistHost. by rewrite Hne.
  - subst removed. unfold RemoveDNSWhitelistHost. by rewrite Hne.
  - intros d. subst removed. unfold RemoveDNSWhitelistHost. rewrite Hne.
    change (GetWhitelist s') with (fst (GetWhitelist s'), snd (GetWhitelist s')).
    cbv iota beta zeta. cbn [snd].
    rewrite Whitelist.SetWhitelist_hosts. split.
    + intros (x & Hx & Hd).
      apply list_elem_of_In, filter_In in Hx as [Hx Hneq].
      apply list_elem_of_In in Hx. apply negb_true_iff, String.eqb_neq in Hneq.
      rewrite (Hidem x Hx) in Hd.
      apply (GetWhitelist_SetWhitelist s enabled hosts x Hwf) in Hx as (h & Hh & ->).
      eauto.
    + intros (h & Hh & Hneq & Hd). exists (normalizeHost h).
      assert (Hl : normalizeHost h ∈ snd (GetWhitelist s')).
      { apply (GetWhitelist_SetWhitelist s enabled hosts _ Hwf). eauto. }
      split.
      * apply list_elem_of_In, filter_In. split; [by apply list_elem_of_In|].
        by apply negb_true_iff, String.eqb_neq.
      * by rewrite (Hidem _ Hl).
Qed.

Lemma wellFormed_example : wellFormed ["Example.COM."].
Proof. intros h ->%list_elem_of_singleton. vm_compute. reflexivity. Qed.

Lemma ascii_example : Forall (fun h => isASCII h = true) ["Example.COM."].
Proof. repeat constructor. Qed.

Lemma whitelist_round_trip_witness :
  "example.com" ∈ snd (GetWhitelist (SetWhitelist Examples.server true ["Example.COM."]))
  /\ NoDup (snd (GetWhitelist (SetWhitelist Examples.server true ["Example.COM."]))).
Proof.
  destruct (whitelist_round_trip Examples.server true ["Example.COM."]
              ascii_example wellFormed_example) as (_ & Hnd & Hin & _).
  split; [|exact Hnd].
  apply Hin. exists "Example.COM.". split; [apply list_elem_of_here|].
  vm_compute. reflexivity.
Defined.

Lemma whitelist_add_remove_witness :
  ("Example.COM"
     ∉ Hosts (whitelist (SetWhitelist Examples.server true ["Example.COM."])))
  /\ "example.com"
     ∈ Hosts (whitelist (snd (RemoveDNSWhitelistHost
                                (SetWhitelist Examples.server true ["Example.COM."])
                                "Example.COM")))
  /\ "api.test"
     ∈ Hosts (whitelist (snd (AddDNSWhitelistHost
                                (SetWhitelist Examples.server true ["Example.COM."])
                                "API.test."))).
Proof.
  assert (H1 : "Example.COM" <> EmptyString) by discriminate.
  assert (H2 : "API.test." <> EmptyString) by discriminate.
  destruct (whitelist_add_remove Examples.server true ["Example.COM."] "Example.COM"
              ascii_example eq_refl wellFormed_example H1) as (_ & _ & _ & _ & _ & Hrem).
  destruct (whitelist_add_remove Examples.server true ["Example.COM."] "API.test."
              ascii_example eq_refl wellFormed_example H2) as (_ & _ & Hadd & _).
  split; [|split].
  - intros H. apply (bool_decide_pack _) in H. vm_compute in H. exact H.
  - apply Hrem. exists "Example.COM.". split; [apply list_elem_of_here|].
    split; [vm_compute; discriminate|]. left. vm_compute. reflexivity.
  - apply Hadd. right. left. vm_compute. reflexivity.
Defined.

End WhitelistApi.
